(** * Children reconciliation of million: [src/million/drivers/useChildren.ts]

    A shallow embedding of [useChildren] with explicit state passing.
    The mutable objects the function touches while it queues effects are
    kept in a [Store]: the [Effect[]] arrays (shared by reference between
    the caller, the recursive driver and [queueEffect]), the child lists
    of the host nodes, and the hidden object-pool field of the host nodes.
    The closures handed to [queueEffect] are represented by the data they
    capture ([Flush]); [flush] gives what running such a closure does. *)

From Stdlib Require Import ZArith String List Bool Lia.
From stdpp Require Import base option list gmap strings.

Local Open Scope Z_scope.

(** ** Data model *)

Module Flags.
(** Modelled from the spec: [Flags] of [../types] (not among the sources),
    "OptimizationFlag: one of DEFAULT, NO_CHILDREN, KEYED_CHILDREN,
    TEXT_CHILDREN"; the three names the driver tests are the code's. *)
Inductive t :=
| DEFAULT
| ELEMENT_NO_CHILDREN
| ELEMENT_TEXT_CHILDREN
| ELEMENT_KEYED_CHILDREN.

#[global] Instance eq_dec : EqDecision t.
Proof. solve_decision. Defined.
End Flags.

Module DeltaTypes.
Inductive t := CREATE | UPDATE | REMOVE.

#[global] Instance eq_dec : EqDecision t.
Proof. solve_decision. Defined.
End DeltaTypes.

Module EffectTypes.
Inductive t := CREATE | REMOVE | REPLACE | UPDATE.

#[global] Instance eq_dec : EqDecision t.
Proof. solve_decision. Defined.
End EffectTypes.

(** [key?: string]: [None] is JavaScript's [undefined]. *)
Abbreviation Key := (option string).

(** [Delta = [DeltaTypes, number]]; positions are non-negative indices. *)
Definition Delta : Type := DeltaTypes.t * nat.

(** [VNode = VElement | string].  Of a [VElement] only the fields read by
    [useChildren] are kept: [flag], [key], [children] and [delta].
    [children] is annotated [VNode[]]; at run time the value of a
    text-only container is a string (the specification's data model: "an
    ordered sequence of child NodeDescriptions (or a string for text-only
    containers)"), and the tests of the source ([Array.isArray(c)], [!c])
    tell the two apart. *)
Inductive VNode :=
| VText (s : string)
| VElem (v : VElement)
with VElement :=
| mkVElement (flag : Flags.t) (key : Key)
    (children : option Children) (delta : option (list Delta))
with Children :=
| ChildArray (l : list VNode)
| ChildString (s : string).

Definition flag (v : VElement) : Flags.t :=
  match v with mkVElement f _ _ _ => f end.

Definition children (v : VElement) : option Children :=
  match v with mkVElement _ _ c _ => c end.

(** [c[i]] and [c.length] of a children value [c]: the elements of an
    array; of a string, its characters, each a one-character string. *)
Definition elements (c : Children) : list VNode :=
  match c with
  | ChildArray l => l
  | ChildString s =>
      (λ ch, VText (String ch EmptyString)) <$> list_ascii_of_string s
  end.

(** [!c] is [false] for every array, also the empty one, and for every
    string but the empty one. *)
Definition truthy (c : Children) : bool :=
  match c with
  | ChildArray _ => true
  | ChildString EmptyString => false
  | ChildString (String _ _) => true
  end.

Definition delta (v : VElement) : option (list Delta) :=
  match v with mkVElement _ _ _ d => d end.

(** [(child as VElement).key]: the cast is erased at run time, so a text
    child (a JavaScript string) has key [undefined]. *)
Definition key (v : VNode) : Key :=
  match v with
  | VText _ => None
  | VElem (mkVElement _ k _ _) => k
  end.

(** Host nodes and [Effect[]] arrays are mutable objects: they are
    represented by their identity. *)
Definition DOMNode : Type := nat.
Definition loc : Type := nat.

(** The first argument of [insertBefore] / [appendChild] inside a queued
    closure. *)
Inductive NodeExpr :=
| Captured (node : option DOMNode)
    (* a [const node] resolved when the effect was queued *)
| CreateElement (v : option VNode)
    (* [createElement(v, false)], called when the closure runs *)
| CreateElementAt (c : option Children) (i : nat)
    (* [createElement(c![i], false)], called when the closure runs *)
| CachedOrCreate (cachedNode : option DOMNode) (v : option VNode).
    (* [cachedNode ?? createElement(v, false)] *)

(** The host child a queued closure refers to. *)
Inductive RefExpr :=
| RefCaptured (child : option DOMNode)
    (* resolved when the effect was queued *)
| RefItem (i : Z)
    (* [el.childNodes.item(i)], resolved when the closure runs *)
| RefItemNextSibling (i : Z).
    (* [el.childNodes.item(i).nextSibling], resolved when the closure runs *)

(** The closures passed to [queueEffect], by the data they capture. *)
Inductive Flush :=
| InsertBefore (node : NodeExpr) (ref : RefExpr)
| AppendChild (node : NodeExpr)
| RemoveChild (child : RefExpr)
| SetTextContent (s : option string).

(** Modelled from the spec: [Effect] of [../types] (not among the sources),
    "a deferred unit of host mutation, tagged with a kind and a
    zero-argument action"; [eff_el] is the host node the queue was opened
    for, which every action captures. *)
Record Effect := mkEffect {
  eff_el : DOMNode;
  eff_type : EffectTypes.t;
  eff_flush : Flush
}.

(** History of the operations performed while queuing, in program order.
    No definition reads it. *)
Inductive Event :=
| EvPoolInit (el : DOMNode)
| EvPoolGet (el : DOMNode) (k : Key) (cachedNode : option DOMNode)
| EvPoolSet (el : DOMNode) (k : Key) (node : option DOMNode)
| EvQueue (a : loc) (e : Effect)
| EvCreateElement (v : option VNode) (node : DOMNode).

Record Store := mkStore {
  arrays : gmap loc (list Effect);
    (* the contents of every [Effect[]] array *)
  childNodes : gmap DOMNode (list DOMNode);
    (* [el.childNodes] of every host node *)
  pools : gmap DOMNode (gmap Key (option DOMNode));
    (* [el[NODE_OBJECT_POOL_FIELD]], absent until first set *)
  made : list (option VNode);
    (* the descriptions the node factory was called on, oldest first *)
  nextNode : DOMNode;
    (* identity of the next host node the factory returns *)
  trace : list Event
}.

Definition set_arrays (f : gmap loc (list Effect) → gmap loc (list Effect))
    (st : Store) : Store :=
  mkStore (f (arrays st)) (childNodes st) (pools st) (made st) (nextNode st)
    (trace st).

Definition set_childNodes
    (f : gmap DOMNode (list DOMNode) → gmap DOMNode (list DOMNode))
    (st : Store) : Store :=
  mkStore (arrays st) (f (childNodes st)) (pools st) (made st) (nextNode st)
    (trace st).

Definition set_pools
    (f : gmap DOMNode (gmap Key (option DOMNode)) →
         gmap DOMNode (gmap Key (option DOMNode)))
    (st : Store) : Store :=
  mkStore (arrays st) (childNodes st) (f (pools st)) (made st) (nextNode st)
    (trace st).

Definition log (ev : Event) (st : Store) : Store :=
  mkStore (arrays st) (childNodes st) (pools st) (made st) (nextNode st)
    (trace st ++ [ev]).

(** ** Host primitives and collaborators *)

(** The contents of the array [a]. *)
Definition array (st : Store) (a : loc) : list Effect :=
  default [] (arrays st !! a).

Definition kids (st : Store) (el : DOMNode) : list DOMNode :=
  default [] (childNodes st !! el).

(** [l[i]] for a JavaScript number [i]: [undefined] out of range. *)
Definition index {A} (l : list A) (i : Z) : option A :=
  if bool_decide (0 ≤ i) then l !! Z.to_nat i else None.

(** [el.childNodes.item(i)] for [i] an [unsigned long]: [null] out of
    range.  A caller whose argument is any number converts it first
    ([toUint32] below). *)
Definition item (st : Store) (el : DOMNode) (i : Z) : option DOMNode :=
  index (kids st el) i.

(** The conversion of a JavaScript integer to the [unsigned long] that
    [NodeList.item] takes (ToUint32).  An index below the length of a
    JavaScript array is below [2^32] and is not changed by it; it is
    written out where the argument of [item] is any number, the position
    of a patch entry. *)
Definition toUint32 (i : Z) : Z := i mod 2 ^ 32.

(** Modelled from the spec: [effect] of [../effect] (not among the
    sources), "queueEffect(kind, action) appends (kind, action) to the
    effect sequence"; [effect el effects] is the [queueEffect] of the
    source, bound to the array [effects] it was created with. *)
Definition effect (el : DOMNode) (effects : loc)
    (type : EffectTypes.t) (fl : Flush) (st : Store) : Store :=
  let e := mkEffect el type fl in
  log (EvQueue effects e)
    (set_arrays (λ m, <[effects := array st effects ++ [e]]> m) st).

(** Modelled from the spec: [createElement] of [../createElement] (not
    among the sources), "materialize(nodeDescription, isSVGContext) →
    hostNode": a new host node, attached nowhere, for whatever
    description it is handed ([None] is [undefined]).  The factory does
    not fault; its result is in the fault monad of its callers. *)
Definition createElement (v : option VNode) (st : Store)
    : option (DOMNode * Store) :=
  let node := nextNode st in
  Some (node,
        log (EvCreateElement v node)
          (mkStore (arrays st) (childNodes st) (pools st)
             (made st ++ [v]) (S node) (trace st))).

(** [el[NODE_OBJECT_POOL_FIELD].get(k)]; the pool exists whenever the
    keyed reconciler reads it. *)
Definition pool (st : Store) (el : DOMNode) : gmap Key (option DOMNode) :=
  default ∅ (pools st !! el).

Definition poolGet (el : DOMNode) (k : Key) (st : Store)
    : option DOMNode * Store :=
  let cachedNode := mjoin (pool st el !! k) in
  (cachedNode, log (EvPoolGet el k cachedNode) st).

(** [el[NODE_OBJECT_POOL_FIELD].set(k, node)] *)
Definition poolSet (el : DOMNode) (k : Key) (node : option DOMNode)
    (st : Store) : Store :=
  log (EvPoolSet el k node)
    (set_pools (λ m, <[el := <[k := node]> (pool st el)]> m) st).

(** [if (!el[NODE_OBJECT_POOL_FIELD]) el[NODE_OBJECT_POOL_FIELD] = new Map()] *)
Definition poolInit (el : DOMNode) (st : Store) : Store :=
  match pools st !! el with
  | Some _ => st
  | None => log (EvPoolInit el) (set_pools (λ m, <[el := ∅]> m) st)
  end.

(** ** What a queued closure does when it runs

    Modelled from the spec: the host mutation primitives ("indexed child
    lookup, insert-before, remove-child, set-text-content", external to
    the sources), with the behaviour the DOM gives them.  [None] is a
    host-level fault (a thrown exception). *)

Definition detach (node : DOMNode) (m : gmap DOMNode (list DOMNode))
    : gmap DOMNode (list DOMNode) :=
  filter (λ c, c ≠ node) <$> m.

Fixpoint placeBefore (node r : DOMNode) (l : list DOMNode) : list DOMNode :=
  match l with
  | [] => [node]
  | c :: l' =>
      if decide (c = r) then node :: c :: l' else c :: placeBefore node r l'
  end.

Fixpoint nextSibling (node : DOMNode) (l : list DOMNode) : option DOMNode :=
  match l with
  | [] => None
  | c :: l' => if decide (c = node) then head l' else nextSibling node l'
  end.

(** [el.insertBefore(node, ref)]: [node] leaves its current parent first;
    a [null] reference appends. *)
Definition insertBefore (el : DOMNode) (node ref : option DOMNode)
    (st : Store) : option Store :=
  match node with
  | None => None
  | Some n =>
      let m := detach n (childNodes st) in
      let l := default [] (m !! el) in
      match ref with
      | None => Some (set_childNodes (λ _, <[el := l ++ [n]]> m) st)
      | Some r =>
          if bool_decide (r ∈ kids st el) then
            let r' := if decide (r = n)
                      then nextSibling n (kids st el) else Some r in
            let l' := match r' with
                      | Some r' => placeBefore n r' l
                      | None => l ++ [n]
                      end in
            Some (set_childNodes (λ _, <[el := l']> m) st)
          else None
      end
  end.

(** [el.removeChild(child)] *)
Definition removeChild (el : DOMNode) (child : option DOMNode) (st : Store)
    : option Store :=
  match child with
  | None => None
  | Some c =>
      if bool_decide (c ∈ kids st el)
      then Some (set_childNodes
                   (λ m, <[el := filter (λ x, x ≠ c) (kids st el)]> m) st)
      else None
  end.

(** [el.textContent = s]: every child is dropped; a non-empty string
    leaves one new text node. *)
Definition setTextContent (el : DOMNode) (s : option string) (st : Store)
    : Store :=
  match s with
  | None | Some EmptyString => set_childNodes (λ m, <[el := []]> m) st
  | Some _ =>
      let node := nextNode st in
      mkStore (arrays st) (<[el := [node]]> (childNodes st)) (pools st)
        (made st) (S node) (trace st)
  end.

Definition evalNode (e : NodeExpr) (st : Store)
    : option (option DOMNode * Store) :=
  match e with
  | Captured node => Some (node, st)
  | CreateElement v =>
      '(node, st') ← createElement v st; Some (Some node, st')
  | CreateElementAt c i =>
      (* [undefined[i]] throws *)
      c' ← c;
      '(node, st') ← createElement (elements c' !! i) st;
      Some (Some node, st')
  | CachedOrCreate (Some node) _ => Some (Some node, st)
  | CachedOrCreate None v =>
      '(node, st') ← createElement v st; Some (Some node, st')
  end.

Definition evalRef (el : DOMNode) (r : RefExpr) (st : Store)
    : option (option DOMNode) :=
  match r with
  | RefCaptured child => Some child
  | RefItem i => Some (item st el i)
  | RefItemNextSibling i =>
      match item st el i with
      | None => None
      | Some _ => Some (item st el (i + 1))
      end
  end.

(** Running the action of one queued effect. *)
Definition flush (e : Effect) (st : Store) : option Store :=
  let el := eff_el e in
  match eff_flush e with
  | InsertBefore node ref =>
      '(n, st1) ← evalNode node st;
      r ← evalRef el ref st1;
      insertBefore el n r st1
  | AppendChild node =>
      '(n, st1) ← evalNode node st;
      insertBefore el n None st1
  | RemoveChild child =>
      c ← evalRef el child st;
      removeChild el c st
  | SetTextContent s => Some (setTextContent el s st)
  end.

(** Running a sequence of effects in queued order. *)
Fixpoint flushAll (es : list Effect) (st : Store) : option Store :=
  match es with
  | [] => Some st
  | e :: es' => st' ← flush e st; flushAll es' st'
  end.

(** ** The driver interface *)

(** The state a running call sees: the caller-visible [Store] and the
    call's own variable [effects], which [effects = diff(...)] rebinds. *)
Record Frame := mkFrame {
  effectsVar : loc;
  store : Store
}.

(** The first-order part of [ReturnType<Driver>]: what [commit] receives
    as its second argument. *)
Record Context := mkContext {
  ctx_el : option DOMNode;
  ctx_newVNode : VElement;
  ctx_oldVNode : option VElement;
  ctx_effects : loc
}.

(** [Commit = (work: () => void, data) => void].  [work] is the closure,
    run on the frame of the call that built it. *)
Definition Commit : Type :=
  (Frame → option Frame) → Context → Frame → option Frame.

(** The default [(work) => work()]. *)
Definition defaultCommit : Commit := λ work _, work.

(** [driver(el, newVNode, oldVNode, commit, effects).effects!]: the
    recursive reconciler, as [diff] uses it.  Unchecked casts let [null]
    and [undefined] through, hence the options. *)
Definition Driver : Type :=
  option DOMNode → option VNode → option VNode → Commit → loc →
  Store → option (loc * Store).

(** An element of [drivers], called with all six arguments; its result is
    dropped. *)
Definition ChainedDriver : Type :=
  DOMNode → VElement → option VElement → Commit → loc → option Driver →
  Store → option Store.

Module Data.
(** [ReturnType<Driver>] as [getData] builds it. *)
Record t := mk {
  el : option DOMNode;
  newVNode : VElement;
  oldVNode : option VElement;
  effects : loc;
  commit : Commit;
  driver : option Driver
}.

Definition context (d : t) : Context :=
  mkContext (el d) (newVNode d) (oldVNode d) (effects d).
End Data.

(** ** Loops *)

(** [for (const x of l) body(x)] *)
Fixpoint forEach {A S} (l : list A) (body : A → S → option S) (s : S)
    : option S :=
  match l with
  | [] => Some s
  | x :: l' => s' ← body x s; forEach l' body s'
  end.

(** [for (let i = lo; i < lo + n; ++i) body(i)] *)
Fixpoint forUp {S} (n : nat) (i : Z) (body : Z → S → option S) (s : S)
    : option S :=
  match n with
  | O => Some s
  | S n' => s' ← body i s; forUp n' (i + 1) body s'
  end.

(** [for (let i = hi; i > hi - n; --i) body(i)] *)
Fixpoint forDown {S} (n : nat) (i : Z) (body : Z → S → option S) (s : S)
    : option S :=
  match n with
  | O => Some s
  | S n' => s' ← body i s; forDown n' (i - 1) body s'
  end.

(** A JavaScript [Map] that is iterated: entries in insertion order,
    [set] on a present key keeps its place. *)
Fixpoint mapSet {V} (k : Key) (v : V) (m : list (Key * V))
    : list (Key * V) :=
  match m with
  | [] => [(k, v)]
  | (k', v') :: m' =>
      if decide (k' = k) then (k, v) :: m' else (k', v') :: mapSet k v m'
  end.

Fixpoint mapGet {V} (k : Key) (m : list (Key * V)) : option V :=
  match m with
  | [] => None
  | (k', v') :: m' => if decide (k' = k) then Some v' else mapGet k m'
  end.

Fixpoint mapDelete {V} (k : Key) (m : list (Key * V)) : list (Key * V) :=
  match m with
  | [] => []
  | (k', v') :: m' =>
      if decide (k' = k) then m' else (k', v') :: mapDelete k m'
  end.

(** [children.join('')]: strings as they are, objects through
    [Object.prototype.toString]. *)
Definition toString (v : VNode) : string :=
  match v with
  | VText s => s
  | VElem _ => "[object Object]"
  end.

Definition join (l : list VNode) : string :=
  String.concat "" (map toString l).

(** The four cursors of the keyed reconciler. *)
Record Cursors := mkCursors {
  oldHead : Z;
  newHead : Z;
  oldTail : Z;
  newTail : Z
}.

(** ** [useChildren] *)

Section UseChildren.

(** The arguments of [useChildren(drivers)(el, newVNode, oldVNode, commit,
    effects, driver)]; the blocks below are the bodies of its branches and
    read them as the source's closures do.  The defaults of the source
    ([drivers = []], [commit = defaultCommit], [effects] a new empty
    array) are left to the caller. *)
Variable drivers : list ChainedDriver.
Variable el : DOMNode.
Variable newVNode : VElement.
Variable oldVNode : option VElement.
Variable commit : Commit.
Variable effects : loc.
Variable driver : option Driver.

(** [const queueEffect = effect(el, effects)]: bound once, to the array
    passed in. *)
Definition queueEffect : EffectTypes.t → Flush → Store → Store :=
  effect el effects.

(** [getData] reads the variable [effects] when it is called. *)
Definition getData (element : option DOMNode) (fr : Frame) : Data.t :=
  Data.mk element newVNode oldVNode (effectsVar fr) commit driver.

Definition onStore (f : Store → Store) (fr : Frame) : Frame :=
  mkFrame (effectsVar fr) (f (store fr)).

Definition finish (element : DOMNode) (fr : Frame)
    : option (Data.t * Store) :=
  let data := getData (Some element) fr in
  fr' ← forEach drivers
          (λ d, commit
                  (λ f, st ← d el newVNode oldVNode commit (effectsVar f)
                               driver (store f);
                        Some (mkFrame (effectsVar f) st))
                  (Data.context data))
          fr;
  Some (data, store fr').

(** [oldVNode?.children ?? []]: the value, which the source tests with
    [!oldVNodeChildren], and its elements, which it reads with
    [oldVNodeChildren[i]] and [oldVNodeChildren.length]. *)
Definition oldChildrenValue : Children :=
  default (ChildArray []) (oldVNode ≫= children).

Definition oldVNodeChildren : list VNode := elements oldChildrenValue.

Definition newVNodeChildren : option Children := children newVNode.

(** [diff]: the call [driver!(el, newVNode, oldVNode, commit, effects)]
    with the current value of [effects]; an absent driver is a fault. *)
Definition diff (child : option DOMNode) (n o : option VNode) (fr : Frame)
    : option (loc * Store) :=
  d ← driver; d child n o commit (effectsVar fr) (store fr).

(** *** Delta replay (lines 60-86) *)

Definition deltaStep (d : Delta) (fr : Frame) : option Frame :=
  let '(deltaType, deltaPosition) := d in
  let child := item (store fr) el (toUint32 (Z.of_nat deltaPosition)) in
  let fr1 :=
    if decide (deltaType = DeltaTypes.CREATE) then
      onStore (queueEffect EffectTypes.CREATE
                 (InsertBefore
                    (CreateElementAt newVNodeChildren deltaPosition)
                    (RefCaptured child))) fr
    else fr in
  fr2 ← (if decide (deltaType = DeltaTypes.UPDATE) then
           commit
             (λ f, cs ← newVNodeChildren;
                   '(a, st) ← diff child (elements cs !! deltaPosition)
                                (oldVNodeChildren !! deltaPosition) f;
                   Some (mkFrame a st))
             (Data.context (getData child fr1)) fr1
         else Some fr1);
  if decide (deltaType = DeltaTypes.REMOVE) then
    Some (onStore (queueEffect EffectTypes.REMOVE
                     (RemoveChild (RefCaptured child))) fr2)
  else Some fr2.

Definition deltaPath (ds : list Delta) : Frame → option Frame :=
  forEach ds deltaStep.

(** *** Flag fast paths (lines 91-105) *)

Definition noChildrenPath (st : Store) : Store :=
  if negb (truthy oldChildrenValue) then st
  else queueEffect EffectTypes.REMOVE (SetTextContent (Some "")) st.

Definition appendPath (new : list VNode) : Store → option Store :=
  forUp (length new) 0
    (λ i st, Some (queueEffect EffectTypes.CREATE
                     (AppendChild (CreateElement (index new i))) st)).

(** *** Keyed reconciler (lines 261-359) *)

Definition inRange (c : Cursors) : bool :=
  bool_decide (oldHead c ≤ oldTail c) && bool_decide (newHead c ≤ newTail c).

(** One iteration of the trim loop; [Some None] is [break]. *)
Definition trimStep (new : list VNode) (c : Cursors) (st : Store)
    : option (option (Cursors * Store)) :=
  oldTailVNode ← index oldVNodeChildren (oldTail c);
  newTailVNode ← index new (newTail c);
  if decide (key oldTailVNode = key newTailVNode) then
    (* [2] suffix *)
    Some (Some (mkCursors (oldHead c) (newHead c)
                  (oldTail c - 1) (newTail c - 1), st))
  else
    oldHeadVNode ← index oldVNodeChildren (oldHead c);
    newHeadVNode ← index new (newHead c);
    if decide (key oldHeadVNode = key newHeadVNode) then
      (* [3] prefix *)
      Some (Some (mkCursors (oldHead c + 1) (newHead c + 1)
                    (oldTail c) (newTail c), st))
    else if decide (key oldHeadVNode = key newTailVNode) then
      (* [4] right move *)
      let node := item st el (oldHead c) in
      let tail := newTail c in
      Some (Some (mkCursors (oldHead c + 1) (newHead c)
                    (oldTail c) (newTail c - 1),
                  queueEffect EffectTypes.CREATE
                    (InsertBefore (Captured node) (RefItemNextSibling tail))
                    st))
    else if decide (key oldTailVNode = key newHeadVNode) then
      (* [5] left move *)
      let node := item st el (oldTail c) in
      let head := newHead c in
      Some (Some (mkCursors (oldHead c) (newHead c + 1)
                    (oldTail c - 1) (newTail c),
                  queueEffect EffectTypes.CREATE
                    (InsertBefore (Captured node) (RefItem head)) st))
    else Some None.

(** [while (oldHead <= oldTail && newHead <= newTail)]: every iteration
    that does not leave the loop moves [oldHead] or [oldTail] by one, so
    [oldTail - oldHead + 1] iterations are enough ([trim_unfold]). *)
Fixpoint trimLoop (n : nat) (new : list VNode) (c : Cursors) (st : Store)
    : option (Cursors * Store) :=
  match n with
  | O => Some (c, st)
  | S n' =>
      if inRange c then
        r ← trimStep new c st;
        match r with
        | Some (c', st') => trimLoop n' new c' st'
        | None => Some (c, st)
        end
      else Some (c, st)
  end.

Definition trim (new : list VNode) (c : Cursors) (st : Store)
    : option (Cursors * Store) :=
  trimLoop (Z.to_nat (oldTail c - oldHead c + 1)) new c st.

(** [6] every remaining new child is inserted *)
Definition insertStep (new : list VNode) (head : Z) (st : Store)
    : option Store :=
  v ← index new head;
  let '(cachedNode, st1) := poolGet el (key v) st in
  Some (queueEffect EffectTypes.CREATE
          (InsertBefore (CachedOrCreate cachedNode (Some v)) (RefItem head))
          st1).

(** [7] every remaining old child is removed *)
Definition removeStep (head : Z) (st : Store) : option Store :=
  v ← index oldVNodeChildren head;
  let node := item st el head in
  Some (queueEffect EffectTypes.REMOVE (RemoveChild (RefCaptured node))
          (poolSet el (key v) node st)).

(** [8] [oldKeyMap.set(oldVNodeChildren[oldHead].key, oldHead++)] *)
Definition indexStep (i : Z) (oldKeyMap : list (Key * Z))
    : option (list (Key * Z)) :=
  v ← index oldVNodeChildren i;
  Some (mapSet (key v) i oldKeyMap).

(** [9] and [10] *)
Definition walkStep (new : list VNode) (head : Z)
    (s : list (Key * Z) * Store) : option (list (Key * Z) * Store) :=
  let '(oldKeyMap, st) := s in
  newVNodeChild ← index new head;
  match mapGet (key newVNodeChild) oldKeyMap with
  | Some oldIndex =>
      let node := item st el oldIndex in
      Some (mapDelete (key newVNodeChild) oldKeyMap,
            queueEffect EffectTypes.CREATE
              (InsertBefore (Captured node) (RefItem head)) st)
  | None =>
      let '(cachedNode, st1) := poolGet el (key newVNodeChild) st in
      Some (oldKeyMap,
            queueEffect EffectTypes.CREATE
              (InsertBefore (CachedOrCreate cachedNode (Some newVNodeChild))
                 (RefItem head))
              st1)
  end.

(** [11] *)
Definition cleanStep (entry : Key * Z) (st : Store) : option Store :=
  let '(oldVNodeKey, oldVNodeValue) := entry in
  let node := item st el oldVNodeValue in
  Some (queueEffect EffectTypes.REMOVE (RemoveChild (RefCaptured node))
          (poolSet el oldVNodeKey node st)).

Definition span (lo hi : Z) : nat := Z.to_nat (hi - lo + 1).

Definition keyedPath (new : list VNode) (st : Store) : option Store :=
  let st0 := poolInit el st in
  '(c, st1) ← trim new
                (mkCursors 0 0 (Z.of_nat (length oldVNodeChildren) - 1)
                   (Z.of_nat (length new) - 1))
                st0;
  if bool_decide (oldHead c > oldTail c) then
    forUp (span (newHead c) (newTail c)) (newHead c) (insertStep new) st1
  else if bool_decide (newHead c > newTail c) then
    forUp (span (oldHead c) (oldTail c)) (oldHead c) removeStep st1
  else
    oldKeyMap ← forUp (span (oldHead c) (oldTail c)) (oldHead c) indexStep [];
    '(oldKeyMap', st2) ← forUp (span (newHead c) (newTail c)) (newHead c)
                           (walkStep new) (oldKeyMap, st1);
    forEach oldKeyMap' cleanStep st2.

(** *** Text children (lines 361-372) *)

(** [Array.isArray(c) ? c.join('') : c]: an array is joined, a string
    and [undefined] are taken as they are. *)
Definition flatten (c : option Children) : option string :=
  match c with
  | Some (ChildArray l) => Some (join l)
  | Some (ChildString s) => Some s
  | None => None
  end.

Definition textPath (st : Store) : Store :=
  let oldString := flatten (oldVNode ≫= children) in
  let newString := flatten (children newVNode) in
  if decide (oldString ≠ newString) then
    queueEffect EffectTypes.REPLACE (SetTextContent newString) st
  else st.

(** *** Generic path (lines 374-404) *)

Definition diffAt (new : list VNode) (i : Z) (fr : Frame) : option Frame :=
  commit
    (λ f, '(a, st) ← diff (item (store f) el i) (index new i)
                        (index oldVNodeChildren i) f;
          Some (mkFrame a st))
    (Data.context (getData (Some el) fr)) fr.

Definition appendCreated (new : list VNode) (i : Z) (fr : Frame)
    : option Frame :=
  '(node, st) ← createElement (index new i) (store fr);
  Some (mkFrame (effectsVar fr)
          (queueEffect EffectTypes.CREATE
             (AppendChild (Captured (Some node))) st)).

Definition removeAt (i : Z) (fr : Frame) : option Frame :=
  Some (onStore (queueEffect EffectTypes.REMOVE (RemoveChild (RefItem i)))
          fr).

Definition genericPath (new : list VNode) (fr : Frame) : option Frame :=
  let nOld := Z.of_nat (length oldVNodeChildren) in
  let nNew := Z.of_nat (length new) in
  if truthy oldChildrenValue then
    let commonLength := Z.min nOld nNew in
    fr1 ← forDown (Z.to_nat commonLength) (commonLength - 1) (diffAt new) fr;
    if bool_decide (nNew > nOld) then
      forUp (Z.to_nat (nNew - commonLength)) commonLength
        (appendCreated new) fr1
    else if bool_decide (nNew < nOld) then
      forDown (Z.to_nat (nOld - commonLength)) (nOld - 1) removeAt fr1
    else Some fr1
  else
    forUp (length new) 0 (appendCreated new) fr.

(** *** Dispatch *)

Definition useChildren (st : Store) : option (Data.t * Store) :=
  let fr := mkFrame effects st in
  match delta newVNode with
  | Some ds => fr' ← deltaPath ds fr; finish el fr'
  | None =>
      match newVNodeChildren with
      | None => finish el (onStore noChildrenPath fr)
      | Some c =>
          let new := elements c in
          if negb (truthy c) then
            finish el (onStore noChildrenPath fr)
          else if decide (flag newVNode = Flags.ELEMENT_NO_CHILDREN) then
            finish el (onStore noChildrenPath fr)
          else if negb (truthy oldChildrenValue)
                  || bool_decide (length oldVNodeChildren = 0%nat) then
            st' ← appendPath new st; finish el (mkFrame effects st')
          else if decide (flag newVNode = Flags.ELEMENT_KEYED_CHILDREN) then
            st' ← keyedPath new st; finish el (mkFrame effects st')
          else if decide (flag newVNode = Flags.ELEMENT_TEXT_CHILDREN) then
            finish el (onStore textPath fr)
          else
            fr' ← genericPath new fr; finish el fr'
      end
  end.

End UseChildren.

(** ** Specification-side definitions

    What the specification says of each path, in its own words; the
    theorems below compare them with the embedding above. *)

(** The reconciliation paths. *)
Inductive Path :=
| ByDelta (ds : list Delta)
| NoChildren
| AppendOnly (new : list VNode)
| TextChildren
| Keyed (new : list VNode)
| Generic (new : list VNode).

Section Dispatch.

Variable drivers : list ChainedDriver.
Variable el : DOMNode.
Variable newVNode : VElement.
Variable oldVNode : option VElement.
Variable commit : Commit.
Variable effects : loc.
Variable driver : option Driver.

(** Running one path, and nothing else, before [finish]. *)
Definition runPath (p : Path) (st : Store) : option (Data.t * Store) :=
  let fr := mkFrame effects st in
  let done := finish drivers el newVNode oldVNode commit driver el in
  match p with
  | ByDelta ds =>
      fr' ← deltaPath el newVNode oldVNode commit effects driver ds fr;
      done fr'
  | NoChildren => done (onStore (noChildrenPath el oldVNode effects) fr)
  | AppendOnly new =>
      st' ← appendPath el effects new st; done (mkFrame effects st')
  | TextChildren => done (onStore (textPath el newVNode oldVNode effects) fr)
  | Keyed new =>
      st' ← keyedPath el oldVNode effects new st; done (mkFrame effects st')
  | Generic new =>
      fr' ← genericPath el newVNode oldVNode commit effects driver new fr;
      done fr'
  end.

(** "NO_CHILDREN or absent new children"; a text-only container with
    the empty string has none. *)
Definition noChildrenApplies : bool :=
  match children newVNode with
  | None | Some (ChildString EmptyString) => true
  | Some _ => bool_decide (flag newVNode = Flags.ELEMENT_NO_CHILDREN)
  end.

(** "Old children absent or empty" *)
Definition appendOnlyApplies : bool :=
  match elements <$> (oldVNode ≫= children) with
  | None | Some [] => true
  | Some (_ :: _) => false
  end.

(** "concatenate old and new children sequences into plain strings
    (list-of-strings joined, or the string itself if already scalar)" *)
Definition plainString (c : Children) : string :=
  match c with
  | ChildArray l => join l
  | ChildString s => s
  end.

Definition textApplies : bool :=
  bool_decide (flag newVNode = Flags.ELEMENT_TEXT_CHILDREN).

(** "Precedence, highest first: explicit patch list →
    NO_CHILDREN/TEXT_CHILDREN/append-only flags → KEYED_CHILDREN → generic
    unkeyed path." *)
Definition spec_selectPath : Path :=
  let new := default [] (elements <$> children newVNode) in
  match delta newVNode with
  | Some ds => ByDelta ds
  | None =>
      if noChildrenApplies then NoChildren
      else if appendOnlyApplies then AppendOnly new
      else if textApplies then TextChildren
      else if bool_decide (flag newVNode = Flags.ELEMENT_KEYED_CHILDREN)
      then Keyed new
      else Generic new
  end.

(** One entry of the patch list on the host child [child]: "for each
    (CREATE, pos) ... queue a CREATE effect inserting before the host
    child ...; for (UPDATE, pos), synchronously recurse reconciliation on
    the host child ... against new/old children at pos ...; for
    (REMOVE, pos), queue a REMOVE effect deleting the host child". *)
Definition spec_deltaStepAt (child : option DOMNode) (d : Delta) (fr : Frame)
    : option Frame :=
  let pos := d.2 in
  match d.1 with
  | DeltaTypes.CREATE =>
      Some (onStore
              (effect el effects EffectTypes.CREATE
                 (InsertBefore (CreateElementAt (children newVNode) pos)
                    (RefCaptured child))) fr)
  | DeltaTypes.UPDATE =>
      commit
        (λ f, cs ← children newVNode;
              '(a, st) ← diff commit driver child (elements cs !! pos)
                           (oldVNodeChildren oldVNode !! pos) f;
              Some (mkFrame a st))
        (mkContext child newVNode oldVNode (effectsVar fr)) fr
  | DeltaTypes.REMOVE =>
      Some (onStore
              (effect el effects EffectTypes.REMOVE
                 (RemoveChild (RefCaptured child))) fr)
  end.

(** ... "the host child currently at pos", in the child list
    [snapshot]. *)
Definition spec_deltaStep (snapshot : list DOMNode) (d : Delta) (fr : Frame)
    : option Frame :=
  spec_deltaStepAt (snapshot !! d.2) d fr.

(** The unkeyed reconciler: the common prefix highest index first, then
    the extra new children in increasing order or the extra old children
    in decreasing order. *)
Definition spec_genericPath (new : list VNode) (fr : Frame) : option Frame :=
  let nOld := Z.of_nat (length (oldVNodeChildren oldVNode)) in
  let nNew := Z.of_nat (length new) in
  let common := Z.min nOld nNew in
  fr1 ← forEach (reverse (seqZ 0 common))
          (diffAt el newVNode oldVNode commit driver new) fr;
  if bool_decide (nOld < nNew) then
    forEach (seqZ common (nNew - common)) (appendCreated el effects new) fr1
  else
    forEach (reverse (seqZ common (nOld - common))) (removeAt el effects) fr1.

End Dispatch.

(** The outcomes of one iteration of the trim loop. *)
Definition suffixCursors (c : Cursors) : Cursors :=
  mkCursors (oldHead c) (newHead c) (oldTail c - 1) (newTail c - 1).

Definition prefixCursors (c : Cursors) : Cursors :=
  mkCursors (oldHead c + 1) (newHead c + 1) (oldTail c) (newTail c).

Definition rightMoveCursors (c : Cursors) : Cursors :=
  mkCursors (oldHead c + 1) (newHead c) (oldTail c) (newTail c - 1).

Definition leftMoveCursors (c : Cursors) : Cursors :=
  mkCursors (oldHead c) (newHead c + 1) (oldTail c - 1) (newTail c).

(** The cursors stay inside the two lists. *)
Definition inBounds (oldVNode : option VElement) (new : list VNode)
    (c : Cursors) : Prop :=
  0 ≤ oldHead c ∧ oldTail c < Z.of_nat (length (oldVNodeChildren oldVNode))
  ∧ 0 ≤ newHead c ∧ newTail c < Z.of_nat (length new).

(** A driver that queues nothing when it is given the same description
    twice. *)
Definition quiet (d : Driver) : Prop :=
  ∀ child v a st, ∃ st',
    d child (Some v) (Some v) defaultCommit a st = Some (a, st')
    ∧ arrays st' = arrays st.

(** A driver that leaves every child list as it found it while it
    queues. *)
Definition keepsChildNodes (d : Driver) : Prop :=
  ∀ child n o c a st a' st',
    d child n o c a st = Some (a', st') → childNodes st' = childNodes st.

(** A driver that hands back the array it was given, having at most
    appended to it, and leaves the child lists alone while it queues. *)
Definition threads (d : Driver) : Prop :=
  ∀ child n o c a st a' st',
    d child n o c a st = Some (a', st') →
    a' = a
    ∧ array st a `prefix_of` array st' a
    ∧ childNodes st' = childNodes st.

(** A driver that writes no object pool. *)
Definition leavesPools (d : Driver) : Prop :=
  ∀ child n o c a st a' st',
    d child n o c a st = Some (a', st') → pools st' = pools st.

(** The effects a history queued on the array [a], oldest first. *)
Definition queued (a : loc) (evs : list Event) : list Effect :=
  omap (λ ev, match ev with
              | EvQueue a' e => if decide (a' = a) then Some e else None
              | _ => None
              end) evs.

(** The pool of [el] after the writes of a history. *)
Definition replay (el : DOMNode) (evs : list Event)
    (p : gmap Key (option DOMNode)) : gmap Key (option DOMNode) :=
  foldl (λ p ev, match ev with
                 | EvPoolSet el' k node =>
                     if decide (el' = el) then <[k := node]> p else p
                 | _ => p
                 end) p evs.

(** The history of a keyed pass is made of these blocks: [kids] is the
    host child list and [p] the pool when the pass starts. *)
Inductive KeyedBlock (el : DOMNode) (a : loc) (old new : list VNode)
    (kids : list DOMNode) (p : gmap Key (option DOMNode))
    : list Event → Prop :=
| KB_init :
    KeyedBlock el a old new kids p [EvPoolInit el]
| KB_move i r :
    KeyedBlock el a old new kids p
      [EvQueue a (mkEffect el EffectTypes.CREATE
                    (InsertBefore (Captured (index kids i)) r))]
| KB_insert v head :
    v ∈ new →
    KeyedBlock el a old new kids p
      [EvPoolGet el (key v) (mjoin (p !! key v));
       EvQueue a (mkEffect el EffectTypes.CREATE
                    (InsertBefore
                       (CachedOrCreate (mjoin (p !! key v)) (Some v))
                       (RefItem head)))]
| KB_remove i v :
    index old i = Some v →
    KeyedBlock el a old new kids p
      [EvPoolSet el (key v) (index kids i);
       EvQueue a (mkEffect el EffectTypes.REMOVE
                    (RemoveChild (RefCaptured (index kids i))))].

(** Histories without pool writes, without pool reads, and histories in
    which no key is both read and written. *)
Definition noSets (el : DOMNode) (evs : list Event) : Prop :=
  ∀ k node, EvPoolSet el k node ∉ evs.

Definition noGets (el : DOMNode) (evs : list Event) : Prop :=
  ∀ k c, EvPoolGet el k c ∉ evs.

Definition getsApartFromSets (el : DOMNode) (evs : list Event) : Prop :=
  ∀ k c node, EvPoolGet el k c ∈ evs → EvPoolSet el k node ∉ evs.

(** What a keyed pass has done to the store [st0] it started from, when it
    has reached [st]: its history is the blocks [bs], and nothing but the
    array [a] and the pool of [el] has changed. *)
Record KeyedRun (el : DOMNode) (a : loc) (old new : list VNode)
    (st0 st : Store) (bs : list (list Event)) : Prop := mkKeyedRun {
  kr_blocks : Forall (KeyedBlock el a old new (kids st0 el) (pool st0 el)) bs;
  kr_trace : trace st = trace st0 ++ concat bs;
  kr_childNodes : childNodes st = childNodes st0;
  kr_made : made st = made st0;
  kr_nextNode : nextNode st = nextNode st0;
  kr_array : array st a = array st0 a ++ queued a (concat bs);
  kr_arrays : ∀ b, b ≠ a → arrays st !! b = arrays st0 !! b;
  kr_pool : pool st el = replay el (concat bs) (pool st0 el);
  kr_pools : ∀ el', el' ≠ el → pools st !! el' = pools st0 !! el'
}.

(** Every entry of [oldKeyMap] is the key and the index of an old
    child. *)
Definition validKeyMap (old : list VNode) (m : list (Key * Z)) : Prop :=
  ∀ k i, (k, i) ∈ m → ∃ v, index old i = Some v ∧ key v = k.

(** A commit function that does nothing but schedule the work it is given
    (run it now, several times, or not before the call returns): whatever
    the work preserves, it preserves. *)
Definition schedulesOnly (commit : Commit) : Prop :=
  ∀ (P : Frame → Prop) work ctx fr fr',
    (∀ f f', work f = Some f' → P f → P f') →
    commit work ctx fr = Some fr' → P fr → P fr'.

(** What a call may have done to the store [st0] it started from, when
    it has reached [st]: the array [a] has only grown and no child list
    has changed; and, when the recursive driver writes no pool
    ([poolsLeft]), no pool but that of [el] has changed. *)
Definition keepsHost (el : DOMNode) (a : loc) (poolsLeft : Prop)
    (st0 st : Store) : Prop :=
  array st0 a `prefix_of` array st a
  ∧ childNodes st = childNodes st0
  ∧ (poolsLeft → ∀ el', el' ≠ el → pools st !! el' = pools st0 !! el').

(** The position of the last entry of a patch list that recurses. *)
Fixpoint lastUpdate (ds : list Delta) : option nat :=
  match ds with
  | [] => None
  | d :: ds =>
      match lastUpdate ds with
      | Some pos => Some pos
      | None =>
          match d.1 with DeltaTypes.UPDATE => Some d.2 | _ => None end
      end
  end.

(** The new and the old child of the last recursive reconciliation a call
    asks for, if it asks for one: those at the position of the last UPDATE
    entry of the patch list, or, on the generic path, those at index 0,
    where the downward loop over the common indices ends. *)
Definition lastDiff (newVNode : VElement) (oldVNode : option VElement)
    : option (option VNode * option VNode) :=
  match spec_selectPath newVNode oldVNode with
  | ByDelta ds =>
      pos ← lastUpdate ds;
      Some (children newVNode ≫= (λ cs, elements cs !! pos),
            oldVNodeChildren oldVNode !! pos)
  | Generic (n :: _) =>
      match oldVNodeChildren oldVNode with
      | o :: _ => Some (Some n, Some o)
      | [] => None
      end
  | _ => None
  end.

(** ** Queued effects by shape

    The effects of each path, by the data their closures capture, and
    what is asked of the host tree when they are run. *)

(** The effect the append-only path queues for one new child. *)
Definition appendEffect (el : DOMNode) (v : VNode) : Effect :=
  mkEffect el EffectTypes.CREATE (AppendChild (CreateElement (Some v))).

(** The effect a CREATE or REMOVE entry of a patch list queues on the
    host child [child]; an UPDATE entry queues none itself. *)
Definition deltaEffectAt (el : DOMNode) (new : option Children)
    (child : option DOMNode) (d : Delta) : list Effect :=
  match d.1 with
  | DeltaTypes.CREATE =>
      [mkEffect el EffectTypes.CREATE
         (InsertBefore (CreateElementAt new d.2) (RefCaptured child))]
  | DeltaTypes.UPDATE => []
  | DeltaTypes.REMOVE =>
      [mkEffect el EffectTypes.REMOVE (RemoveChild (RefCaptured child))]
  end.

(** The same, with the position of the entry, converted to an
    [unsigned long], resolved in [snapshot]. *)
Definition deltaEffect (el : DOMNode) (new : option Children)
    (snapshot : list DOMNode) (d : Delta) : list Effect :=
  deltaEffectAt el new (index snapshot (toUint32 (Z.of_nat d.2))) d.

(** The effect the generic path queues to drop the child at index [i],
    resolved when the effect runs. *)
Definition removeAtEffect (el : DOMNode) (i : Z) : Effect :=
  mkEffect el EffectTypes.REMOVE (RemoveChild (RefItem i)).

(** The effect the keyed reconciler queues to remove the host child
    [node], and to insert the new child [v] at index [head], with
    [cachedNode] read from the pool. *)
Definition removeEffect (el : DOMNode) (node : option DOMNode) : Effect :=
  mkEffect el EffectTypes.REMOVE (RemoveChild (RefCaptured node)).

Definition insertEffect (el : DOMNode) (cachedNode : option DOMNode)
    (v : VNode) (head : Z) : Effect :=
  mkEffect el EffectTypes.CREATE
    (InsertBefore (CachedOrCreate cachedNode (Some v)) (RefItem head)).

(** The effects of [4] and [5]: the captured host child is put before the
    sibling after [item(tail)], or before [item(head)]. *)
Definition rightMoveEffect (el : DOMNode) (node : option DOMNode) (tail : Z)
    : Effect :=
  mkEffect el EffectTypes.CREATE
    (InsertBefore (Captured node) (RefItemNextSibling tail)).

Definition leftMoveEffect (el : DOMNode) (node : option DOMNode) (head : Z)
    : Effect :=
  mkEffect el EffectTypes.CREATE
    (InsertBefore (Captured node) (RefItem head)).

(** Queuing the effects [es] on the array [a], in order. *)
Definition queueAll (a : loc) (es : list Effect) (st : Store) : Store :=
  foldl (λ st e, effect (eff_el e) a (eff_type e) (eff_flush e) st) st es.

(** No host node of the child list of [el] is one the factory has yet to
    return. *)
Definition kidsBelowNext (el : DOMNode) (st : Store) : Prop :=
  ∀ node, node ∈ kids st el → (node < nextNode st)%nat.

(** The old child at index [i] and the new child at index [j] exist and
    carry the same key, or different keys. *)
Definition sameKeyAt (old new : list VNode) (i j : Z) : Prop :=
  ∃ vo vn, index old i = Some vo ∧ index new j = Some vn ∧ key vo = key vn.

Definition otherKeyAt (old new : list VNode) (i j : Z) : Prop :=
  ∃ vo vn, index old i = Some vo ∧ index new j = Some vn ∧ key vo ≠ key vn.

(** The entries [8] writes to [oldKeyMap] for the old children [m] that
    follow [p], in insertion order. *)
Definition keyEntries (p m : list VNode) : list (Key * Z) :=
  imap (λ j v, (key v, Z.of_nat (length p + j))) m.

(** Sample values for the closed examples. *)
Definition emptyStore : Store := mkStore ∅ ∅ ∅ [] 0%nat [].

Definition keyedChild (k : string) : VNode :=
  VElem (mkVElement Flags.DEFAULT (Some k) None None).

Definition sameArrayDriver : Driver := λ _ _ _ _ a st, Some (a, st).

Definition otherArrayDriver : Driver := λ _ _ _ _ a st, Some (S a, st).

(** A driver that queues on an array of its own and returns that one. *)
Definition ownArrayDriver : Driver :=
  λ _ _ _ _ a st,
    Some (S a,
          effect 0%nat (S a) EffectTypes.REPLACE (SetTextContent (Some "x"))
            st).

Definition sampleStore : Store :=
  mkStore ∅ {[ 0%nat := [1%nat; 2%nat; 3%nat] ]} ∅ [] 10%nat [].

Definition keyedParent (cs : list VNode) : VElement :=
  mkVElement Flags.ELEMENT_KEYED_CHILDREN None (Some (ChildArray cs)) None.

Definition plainParent (cs : list VNode) (ds : option (list Delta))
    : VElement :=
  mkVElement Flags.DEFAULT None (Some (ChildArray cs)) ds.

Definition sampleStore4 : Store :=
  mkStore ∅ {[ 0%nat := [1%nat; 2%nat; 3%nat; 4%nat] ]} ∅ [] 10%nat [].

(** * Properties *)

(** ** Loops and indexing *)

Lemma forEach_ind {A S} (P : S → Prop) (body : A → S → option S) l :
  ∀ s, P s →
  (∀ x s, x ∈ l → P s → ∃ s', body x s = Some s' ∧ P s') →
  ∃ s', forEach l body s = Some s' ∧ P s'.
Proof.
  induction l as [|x l IH]; intros s Hs Hbody; simpl; [eauto|].
  destruct (Hbody x s) as (s1 & -> & Hs1); [left | done |]. simpl.
  apply IH; [done|]. intros y t Hy. apply Hbody. by right.
Qed.

Lemma forUp_ind {S} (P : S → Prop) (body : Z → S → option S) n :
  ∀ i s, P s →
  (∀ j s, i ≤ j < i + Z.of_nat n → P s → ∃ s', body j s = Some s' ∧ P s') →
  ∃ s', forUp n i body s = Some s' ∧ P s'.
Proof.
  induction n as [|n IH]; intros i s Hs Hbody; simpl; [eauto|].
  destruct (Hbody i s) as (s1 & -> & Hs1); [lia | done |]. simpl.
  apply IH; [done|]. intros j t Hj. apply Hbody. lia.
Qed.

Lemma forDown_ind {S} (P : S → Prop) (body : Z → S → option S) n :
  ∀ i s, P s →
  (∀ j s, i - Z.of_nat n < j ≤ i → P s → ∃ s', body j s = Some s' ∧ P s') →
  ∃ s', forDown n i body s = Some s' ∧ P s'.
Proof.
  induction n as [|n IH]; intros i s Hs Hbody; simpl; [eauto|].
  destruct (Hbody i s) as (s1 & -> & Hs1); [lia | done |]. simpl.
  apply IH; [done|]. intros j t Hj. apply Hbody. lia.
Qed.

(** The same, for a body that may fault. *)
Lemma forEach_inv {A S} (P : S → Prop) (body : A → S → option S) l :
  (∀ x s s', x ∈ l → body x s = Some s' → P s → P s') →
  ∀ s s', forEach l body s = Some s' → P s → P s'.
Proof.
  induction l as [|x l IH]; intros Hbody s s' Hrun Hs; simpl in Hrun.
  { by simplify_eq. }
  destruct (body x s) as [s1|] eqn:Hx; simpl in Hrun; [|done].
  eapply IH; [|done|].
  - intros y t t' Hy. apply Hbody. by right.
  - eapply Hbody; [left|done|done].
Qed.

Lemma forEach_app {A S} (body : A → S → option S) l1 l2 s :
  forEach (l1 ++ l2) body s = s' ← forEach l1 body s; forEach l2 body s'.
Proof.
  revert s. induction l1 as [|x l1 IH]; intros s; simpl; [done|].
  destruct (body x s); simpl; [apply IH | done].
Qed.

(** A counting loop visits the indices of its range in order. *)
Lemma forUp_forEach {S} (body : Z → S → option S) n i s :
  forUp n i body s = forEach (seqZ i (Z.of_nat n)) body s.
Proof.
  revert i s. induction n as [|n IH]; intros i s; [done|].
  rewrite Nat2Z.inj_succ, seqZ_cons by lia. simpl.
  destruct (body i s); simpl; [|done].
  rewrite IH. do 2 f_equal. lia.
Qed.

Lemma forDown_forEach {S} (body : Z → S → option S) n i s :
  forDown n i body s
  = forEach (reverse (seqZ (i - Z.of_nat n + 1) (Z.of_nat n))) body s.
Proof.
  revert i s. induction n as [|n IH]; intros i s; [done|].
  rewrite Nat2Z.inj_succ.
  replace (Z.succ (Z.of_nat n)) with (Z.of_nat n + 1) by lia.
  rewrite seqZ_app by lia. rewrite reverse_app.
  replace (i - (Z.of_nat n + 1) + 1 + Z.of_nat n) with i by lia.
  change (seqZ i 1) with [i]. simpl.
  destruct (body i s); simpl; [|done].
  rewrite IH. do 3 f_equal. lia.
Qed.

Lemma index_lookup {A} (l : list A) (i : Z) :
  0 ≤ i < Z.of_nat (length l) → ∃ x, index l i = Some x ∧ x ∈ l.
Proof.
  intros Hi. unfold index. rewrite bool_decide_eq_true_2 by lia.
  destruct (lookup_lt_is_Some_2 l (Z.to_nat i)) as [x Hx]; [lia|].
  exists x. split; [done|]. by eapply list_elem_of_lookup_2.
Qed.

Lemma index_of_nat {A} (l : list A) (i : nat) :
  index l (Z.of_nat i) = l !! i.
Proof.
  unfold index. rewrite bool_decide_eq_true_2 by lia. by rewrite Nat2Z.id.
Qed.

(** ** Queue and pool primitives *)

Lemma array_effect el a ty fl st :
  array (effect el a ty fl st) a = array st a ++ [mkEffect el ty fl].
Proof. unfold array, effect. simpl. by rewrite lookup_insert_eq. Qed.

Lemma array_effect_ne el a b ty fl st :
  a ≠ b → array (effect el a ty fl st) b = array st b.
Proof. intros. unfold array, effect. simpl. by rewrite lookup_insert_ne. Qed.

Lemma array_effect_prefix el a b ty fl st :
  array st b `prefix_of` array (effect el a ty fl st) b.
Proof.
  destruct (decide (a = b)) as [->|].
  - rewrite array_effect. by apply prefix_app_r.
  - by rewrite array_effect_ne.
Qed.

Lemma arrays_poolInit el st : arrays (poolInit el st) = arrays st.
Proof. unfold poolInit. by destruct (pools st !! el). Qed.

Lemma childNodes_poolInit el st : childNodes (poolInit el st) = childNodes st.
Proof. unfold poolInit. by destruct (pools st !! el). Qed.

Lemma pool_poolInit el st : pool (poolInit el st) el = pool st el.
Proof.
  unfold poolInit, pool. destruct (pools st !! el) eqn:H; [by rewrite H|].
  simpl. by rewrite lookup_insert_eq.
Qed.

Lemma pools_poolInit_ne el el' st :
  el' ≠ el → pools (poolInit el st) !! el' = pools st !! el'.
Proof.
  intros. unfold poolInit. destruct (pools st !! el); [done|].
  simpl. by rewrite lookup_insert_ne.
Qed.

Lemma pool_poolSet el k node st :
  pool (poolSet el k node st) el = <[k := node]> (pool st el).
Proof. unfold pool at 1, poolSet. simpl. by rewrite lookup_insert_eq. Qed.

Lemma pools_poolSet_ne el el' k node st :
  el' ≠ el → pools (poolSet el k node st) !! el' = pools st !! el'.
Proof. intros. unfold poolSet. simpl. by rewrite lookup_insert_ne. Qed.

(** ** Children values *)

Lemma truthy_elements c : elements c ≠ [] → truthy c = true.
Proof. by destruct c as [l|[|ch s]]. Qed.

Lemma oldChildrenValue_array oldVNode olds :
  oldVNode ≫= children = Some (ChildArray olds) →
  oldChildrenValue oldVNode = ChildArray olds.
Proof. unfold oldChildrenValue. by intros ->. Qed.

Lemma oldVNodeChildren_array oldVNode olds :
  oldVNode ≫= children = Some (ChildArray olds) →
  oldVNodeChildren oldVNode = olds.
Proof.
  intros H. unfold oldVNodeChildren. by rewrite (oldChildrenValue_array _ olds).
Qed.

Lemma truthy_old oldVNode :
  oldVNodeChildren oldVNode ≠ [] → truthy (oldChildrenValue oldVNode) = true.
Proof. apply truthy_elements. Qed.

(** [!oldVNodeChildren || oldVNodeChildren?.length === 0] *)
Lemma oldEmpty_test oldVNode :
  negb (truthy (oldChildrenValue oldVNode))
  || bool_decide (length (oldVNodeChildren oldVNode) = 0%nat)
  = bool_decide (length (oldVNodeChildren oldVNode) = 0%nat).
Proof.
  unfold oldVNodeChildren.
  by destruct (oldChildrenValue oldVNode) as [l|[|ch s]].
Qed.

(** ** Dispatch *)

(** C2: for every call exactly one reconciliation path runs before
    [finish], and it is the one the precedence of the specification
    selects: the patch list first, then the NO_CHILDREN / append-only /
    TEXT_CHILDREN fast paths, then the keyed reconciler, then the generic
    unkeyed path.  The code tests KEYED_CHILDREN before TEXT_CHILDREN; the
    flag has one value, so the two orders select the same path. *)
Theorem C2_dispatch_precedence
    drivers el newVNode oldVNode commit effects driver st :
  useChildren drivers el newVNode oldVNode commit effects driver st
  = runPath drivers el newVNode oldVNode commit effects driver
      (spec_selectPath newVNode oldVNode) st.
Proof.
  unfold useChildren, spec_selectPath, runPath, noChildrenApplies,
    appendOnlyApplies, textApplies, newVNodeChildren, oldVNodeChildren,
    oldChildrenValue.
  destruct (delta newVNode) as [ds|]; [done|].
  destruct (children newVNode) as [[new|[|ch s]]|]; [|done| |done];
    (destruct (flag newVNode); simpl;
     destruct (oldVNode ≫= children) as [[[|o os]|[|ch' s']]|]; simpl; done).
Qed.

(** ** Flag fast paths *)

(** C3: under the NO_CHILDREN flag (and without a patch list) the call
    queues one REMOVE effect that clears the text content whatever the old
    node is, also when there is no old node or it has no children: the
    guard [if (!oldVNodeChildren)] does not fire for them, because
    [oldVNodeChildren] defaults to an array, and an array is truthy.  The
    one value it fires for is the empty string of a text-only
    container. *)
Theorem C3_no_old_children_still_queues_remove
    el k cs oldVNode commit a driver st :
  useChildren [] el (mkVElement Flags.ELEMENT_NO_CHILDREN k cs None) oldVNode
    commit a driver st
  = Some (Data.mk (Some el)
            (mkVElement Flags.ELEMENT_NO_CHILDREN k cs None)
            oldVNode a commit driver,
          match oldVNode ≫= children with
          | Some (ChildString EmptyString) => st
          | _ => effect el a EffectTypes.REMOVE (SetTextContent (Some "")) st
          end).
Proof.
  unfold useChildren, noChildrenPath, oldChildrenValue.
  cbn [delta newVNodeChildren children flag].
  assert (∀ r, (if negb (truthy (default (ChildArray []) (oldVNode ≫= children)))
                then st else r)
               = match oldVNode ≫= children with
                 | Some (ChildString EmptyString) => st
                 | _ => r
                 end) as Hguard
    by (intros r; by destruct (oldVNode ≫= children) as [[l|[|ch s]]|]).
  destruct cs as [c|]; [|by rewrite <- Hguard].
  destruct (negb (truthy c)); [by rewrite <- Hguard|].
  rewrite decide_True by done. by rewrite <- Hguard.
Qed.

Lemma join_strings (ss : list string) :
  join (VText <$> ss) = String.concat "" ss.
Proof.
  unfold join. f_equal. induction ss as [|s ss IH]; [done|].
  rewrite fmap_cons. simpl. f_equal. exact IH.
Qed.

(** C8: on the TEXT_CHILDREN path (no patch list; the new children an
    array or a non-empty string, the old children a non-empty array or
    string, for otherwise an earlier path runs) the old and the new
    children are each flattened to one string: an array is joined with no
    separator, a string is taken as it is.  The call queues exactly one
    REPLACE effect, which sets the text content to the new string, when
    the two strings differ, and nothing when they are equal. *)
Theorem C8_text_children el k c oldVNode oc commit a driver st :
  children oldVNode = Some oc →
  elements oc ≠ [] →
  truthy c = true →
  ∃ data st',
    useChildren [] el (mkVElement Flags.ELEMENT_TEXT_CHILDREN k (Some c) None)
      (Some oldVNode) commit a driver st = Some (data, st')
    ∧ (∀ l, plainString (ChildArray l) = join l)
    ∧ (∀ ss, join (VText <$> ss) = String.concat "" ss)
    ∧ (∀ s, plainString (ChildString s) = s)
    ∧ (plainString oc ≠ plainString c →
       st' = effect el a EffectTypes.REPLACE
               (SetTextContent (Some (plainString c))) st
       ∧ array st' a
         = array st a
           ++ [mkEffect el EffectTypes.REPLACE
                 (SetTextContent (Some (plainString c)))])
    ∧ (plainString oc = plainString c → st' = st).
Proof.
  intros Hold Hne Htrue. unfold useChildren.
  cbn [delta newVNodeChildren children flag]. rewrite Htrue. cbn [negb].
  rewrite decide_False by done.
  assert (oldVNodeChildren (Some oldVNode) = elements oc) as Holds.
  { unfold oldVNodeChildren, oldChildrenValue. cbn [mbind option_bind].
    by rewrite Hold. }
  rewrite oldEmpty_test, Holds.
  rewrite bool_decide_eq_false_2 by (by destruct (elements oc)).
  rewrite decide_False by done. rewrite decide_True by done.
  unfold finish, onStore, textPath, queueEffect.
  cbn [forEach mbind option_bind store effectsVar children].
  rewrite Hold.
  assert (∀ c', flatten (Some c') = Some (plainString c')) as Hflat
    by (by intros [l|s]).
  rewrite !Hflat.
  eexists _, _. split; [done|]. split; [done|].
  split; [apply join_strings|]. split; [done|].
  split.
  - intros Hd. rewrite decide_True by congruence.
    split; [done|]. apply array_effect.
  - intros He. rewrite decide_False; [done|]. intros H. apply H. by f_equal.
Qed.

Lemma C8_text_children_witness :
  ∃ data st',
    useChildren [] 0%nat
      (mkVElement Flags.ELEMENT_TEXT_CHILDREN None
         (Some (ChildString "ac")) None)
      (Some (mkVElement Flags.ELEMENT_TEXT_CHILDREN None
               (Some (ChildArray [VText "a"; VText "b"])) None))
      defaultCommit 0%nat None emptyStore = Some (data, st')
    ∧ array st' 0%nat
      = [mkEffect 0%nat EffectTypes.REPLACE (SetTextContent (Some "ac"))].
Proof.
  destruct (C8_text_children 0%nat None (ChildString "ac")
              (mkVElement Flags.ELEMENT_TEXT_CHILDREN None
                 (Some (ChildArray [VText "a"; VText "b"])) None)
              (ChildArray [VText "a"; VText "b"]) defaultCommit 0%nat None
              emptyStore)
    as (data & st' & Hrun & _ & _ & _ & Hdiff & _);
    [reflexivity | discriminate | reflexivity |].
  exists data, st'. split; [exact Hrun|].
  destruct Hdiff as [_ Harr]; [discriminate|]. exact Harr.
Defined.

(** ** The trim loop of the keyed reconciler *)

Section Trim.

Variable el : DOMNode.
Variable oldVNode : option VElement.
Variable effects : loc.
Variable new : list VNode.

Let old := oldVNodeChildren oldVNode.

Lemma trimStep_suffix c st vOT vNT :
  index old (oldTail c) = Some vOT → index new (newTail c) = Some vNT →
  key vOT = key vNT →
  trimStep el oldVNode effects new c st = Some (Some (suffixCursors c, st)).
Proof.
  intros HOT HNT Hk. unfold trimStep. fold old. rewrite HOT, HNT. simpl.
  by rewrite decide_True.
Qed.

Lemma trimStep_other c st vOT vNT vOH vNH :
  index old (oldTail c) = Some vOT → index new (newTail c) = Some vNT →
  index old (oldHead c) = Some vOH → index new (newHead c) = Some vNH →
  key vOT ≠ key vNT →
  trimStep el oldVNode effects new c st =
  Some (if decide (key vOH = key vNH) then Some (prefixCursors c, st)
        else if decide (key vOH = key vNT) then
          Some (rightMoveCursors c,
                effect el effects EffectTypes.CREATE
                  (InsertBefore (Captured (item st el (oldHead c)))
                     (RefItemNextSibling (newTail c))) st)
        else if decide (key vOT = key vNH) then
          Some (leftMoveCursors c,
                effect el effects EffectTypes.CREATE
                  (InsertBefore (Captured (item st el (oldTail c)))
                     (RefItem (newHead c))) st)
        else None).
Proof.
  intros HOT HNT HOH HNH Hk. unfold trimStep. fold old.
  rewrite HOT, HNT. simpl. rewrite decide_False by done.
  rewrite HOH, HNH. simpl. by repeat case_decide.
Qed.

Ltac split_trimStep H :=
  unfold trimStep in H;
  repeat (first
    [ match type of H with
      | context [index ?l ?i] =>
          destruct (index l i) eqn:?; simpl in H; [|done]
      end
    | case_decide ]);
  simplify_eq.

(** Every iteration that stays in the loop shortens the old range by
    one. *)
Lemma trimStep_measure c st c' st' :
  trimStep el oldVNode effects new c st = Some (Some (c', st')) →
  oldTail c' - oldHead c' + 1 = oldTail c - oldHead c.
Proof. intros H. split_trimStep H; simpl; lia. Qed.

(** The fuel of [trim] is enough: [trim] is the [while] loop. *)
Lemma trim_unfold c st :
  trim el oldVNode effects new c st =
  if inRange c then
    r ← trimStep el oldVNode effects new c st;
    match r with
    | Some (c', st') => trim el oldVNode effects new c' st'
    | None => Some (c, st)
    end
  else Some (c, st).
Proof.
  unfold trim. destruct (inRange c) eqn:Hr.
  - pose proof Hr as Hr'. unfold inRange in Hr'.
    apply andb_true_iff in Hr'
      as [H1%bool_decide_eq_true H2%bool_decide_eq_true].
    replace (Z.to_nat (oldTail c - oldHead c + 1))
      with (S (Z.to_nat (oldTail c - oldHead c))) by lia.
    cbn [trimLoop]. rewrite Hr.
    destruct (trimStep el oldVNode effects new c st) as [[[c' st']|]|] eqn:Hs;
      simpl; [|done..].
    by rewrite (trimStep_measure _ _ _ _ Hs).
  - destruct (Z.to_nat _); simpl; [done|]. by rewrite Hr.
Qed.

Lemma inRange_spec c :
  inRange c = true ↔ oldHead c ≤ oldTail c ∧ newHead c ≤ newTail c.
Proof.
  unfold inRange. rewrite andb_true_iff, !bool_decide_eq_true. done.
Qed.

Lemma inBounds_lookup c :
  inBounds oldVNode new c → inRange c = true →
  ∃ vOT vNT vOH vNH,
    index old (oldTail c) = Some vOT ∧ index new (newTail c) = Some vNT
    ∧ index old (oldHead c) = Some vOH ∧ index new (newHead c) = Some vNH.
Proof.
  intros (H1 & H2 & H3 & H4) [H5 H6]%inRange_spec. fold old in H2.
  destruct (index_lookup old (oldTail c)) as (vOT & ? & _); [lia|].
  destruct (index_lookup new (newTail c)) as (vNT & ? & _); [lia|].
  destruct (index_lookup old (oldHead c)) as (vOH & ? & _); [lia|].
  destruct (index_lookup new (newHead c)) as (vNH & ? & _); [lia|].
  by exists vOT, vNT, vOH, vNH.
Qed.

Lemma trimStep_inBounds c st c' st' :
  inBounds oldVNode new c → inRange c = true →
  trimStep el oldVNode effects new c st = Some (Some (c', st')) →
  inBounds oldVNode new c'.
Proof.
  intros (H1 & H2 & H3 & H4) [H5 H6]%inRange_spec H.
  split_trimStep H; unfold inBounds; simpl; lia.
Qed.

End Trim.

(** C4: in the trim loop, while both index ranges are non-empty, the four
    key comparisons are tried in the order suffix, prefix, right move,
    left move.  A suffix or a prefix match leaves the store as it is and
    only moves cursors; a right or a left move appends exactly one CREATE
    effect to the queue, whose action re-inserts the host child found at
    the old cursor; when none of the four succeeds the loop is left with
    cursors and store as they are.  The cursors the loop starts with are
    inside the lists and every iteration keeps them there. *)
Theorem C4_trim_loop_order el oldVNode effects new c st :
  inBounds oldVNode new c →
  inRange c = true →
  let old := oldVNodeChildren oldVNode in
  let step := trimStep el oldVNode effects new c st in
  let loop := trim el oldVNode effects new in
  let right :=
    effect el effects EffectTypes.CREATE
      (InsertBefore (Captured (item st el (oldHead c)))
         (RefItemNextSibling (newTail c))) st in
  let left :=
    effect el effects EffectTypes.CREATE
      (InsertBefore (Captured (item st el (oldTail c)))
         (RefItem (newHead c))) st in
  ∃ vOT vNT vOH vNH,
    index old (oldTail c) = Some vOT ∧ index new (newTail c) = Some vNT
    ∧ index old (oldHead c) = Some vOH ∧ index new (newHead c) = Some vNH
    ∧ (key vOT = key vNT →
       step = Some (Some (suffixCursors c, st))
       ∧ loop c st = loop (suffixCursors c) st)
    ∧ (key vOT ≠ key vNT → key vOH = key vNH →
       step = Some (Some (prefixCursors c, st))
       ∧ loop c st = loop (prefixCursors c) st)
    ∧ (key vOT ≠ key vNT → key vOH ≠ key vNH → key vOH = key vNT →
       step = Some (Some (rightMoveCursors c, right))
       ∧ loop c st = loop (rightMoveCursors c) right
       ∧ array right effects
         = array st effects
           ++ [mkEffect el EffectTypes.CREATE
                 (InsertBefore (Captured (item st el (oldHead c)))
                    (RefItemNextSibling (newTail c)))])
    ∧ (key vOT ≠ key vNT → key vOH ≠ key vNH → key vOH ≠ key vNT →
       key vOT = key vNH →
       step = Some (Some (leftMoveCursors c, left))
       ∧ loop c st = loop (leftMoveCursors c) left
       ∧ array left effects
         = array st effects
           ++ [mkEffect el EffectTypes.CREATE
                 (InsertBefore (Captured (item st el (oldTail c)))
                    (RefItem (newHead c)))])
    ∧ (key vOT ≠ key vNT → key vOH ≠ key vNH → key vOH ≠ key vNT →
       key vOT ≠ key vNH →
       step = Some None ∧ loop c st = Some (c, st))
    ∧ (∀ c' st', step = Some (Some (c', st')) → inBounds oldVNode new c')
    ∧ inBounds oldVNode new
        (mkCursors 0 0 (Z.of_nat (length old) - 1)
           (Z.of_nat (length new) - 1)).
Proof.
  intros Hb Hr old step loop right left.
  destruct (inBounds_lookup _ _ _ Hb Hr)
    as (vOT & vNT & vOH & vNH & HOT & HNT & HOH & HNH).
  exists vOT, vNT, vOH, vNH. repeat (split; [done|]).
  assert (∀ c' st', step = Some (Some (c', st')) → inBounds oldVNode new c')
    as Hnext by (intros c' st'; by apply trimStep_inBounds).
  assert (inBounds oldVNode new
            (mkCursors 0 0 (Z.of_nat (length old) - 1)
               (Z.of_nat (length new) - 1))) as Hinit
    by (unfold inBounds; subst old; simpl; lia).
  subst loop step. rewrite trim_unfold, Hr.
  split; [|split; [|split; [|split; [|split; [|done]]]]].
  - intros Hk. rewrite (trimStep_suffix _ _ _ _ _ _ _ _ HOT HNT Hk). done.
  - intros H1 H2.
    rewrite (trimStep_other _ _ _ _ _ _ _ _ _ _ HOT HNT HOH HNH H1).
    by rewrite decide_True.
  - intros H1 H2 H3.
    rewrite (trimStep_other _ _ _ _ _ _ _ _ _ _ HOT HNT HOH HNH H1).
    rewrite decide_False, decide_True by done.
    repeat (split; [done|]). apply array_effect.
  - intros H1 H2 H3 H4.
    rewrite (trimStep_other _ _ _ _ _ _ _ _ _ _ HOT HNT HOH HNH H1).
    rewrite !decide_False, decide_True by done.
    repeat (split; [done|]). apply array_effect.
  - intros H1 H2 H3 H4.
    rewrite (trimStep_other _ _ _ _ _ _ _ _ _ _ HOT HNT HOH HNH H1).
    by rewrite !decide_False.
Qed.

Lemma C4_trim_loop_order_witness :
  let old := Some (mkVElement Flags.ELEMENT_KEYED_CHILDREN None
                     (Some (ChildArray [keyedChild "a"; keyedChild "b"; keyedChild "X"]))
                     None) in
  let new := [keyedChild "X"; keyedChild "a"; keyedChild "b"] in
  let c := mkCursors 0 0 2 2 in
  trimStep 0%nat old 0%nat new c emptyStore
  = Some (Some (leftMoveCursors c,
                effect 0%nat 0%nat EffectTypes.CREATE
                  (InsertBefore (Captured None) (RefItem 0)) emptyStore)).
Proof.
  intros old new c.
  assert (inBounds old new c) as Hb
    by (unfold inBounds; subst old new c; simpl; lia).
  destruct (C4_trim_loop_order 0%nat old 0%nat new c emptyStore Hb eq_refl)
    as (vOT & vNT & vOH & vNH & HOT & HNT & HOH & HNH
        & _ & _ & _ & Hleft & _).
  injection HOT as <-. injection HNT as <-.
  injection HOH as <-. injection HNH as <-.
  destruct Hleft as [Hstep _]; [discriminate..| reflexivity |].
  exact Hstep.
Defined.

(** ** Reconciling a description against itself *)

Lemma trimLoop_same el a k fl c dl :
  ∀ (m : nat) st, (m ≤ length (elements c))%nat →
  trimLoop el (Some (mkVElement fl k (Some c) dl)) a m (elements c)
    (mkCursors 0 0 (Z.of_nat m - 1) (Z.of_nat m - 1)) st
  = Some (mkCursors 0 0 (-1) (-1), st).
Proof.
  intros m. induction m as [|m IH]; intros st Hm; [done|].
  cbn [trimLoop]. unfold inRange; cbn [oldHead oldTail newHead newTail].
  rewrite !bool_decide_eq_true_2 by lia. cbn [andb].
  destruct (lookup_lt_is_Some_2 (elements c) m) as [v Hv]; [lia|].
  erewrite trimStep_suffix with (vOT := v) (vNT := v); [| | |done].
  - cbn [mbind option_bind]. unfold suffixCursors.
    cbn [oldHead oldTail newHead newTail].
    replace (Z.of_nat (S m) - 1 - 1) with (Z.of_nat m - 1) by lia.
    apply IH. lia.
  - cbn. replace (Z.of_nat (S m) - 1) with (Z.of_nat m) by lia.
    by rewrite index_of_nat.
  - cbn [newTail]. replace (Z.of_nat (S m) - 1) with (Z.of_nat m) by lia.
    by rewrite index_of_nat.
Qed.

(** Equal keyed lists are consumed by suffix matches alone. *)
Lemma keyedPath_same el a fl k c dl st :
  keyedPath el (Some (mkVElement fl k (Some c) dl)) a (elements c) st
  = Some (poolInit el st).
Proof.
  unfold keyedPath, trim. cbn [oldHead oldTail].
  change (oldVNodeChildren (Some (mkVElement fl k (Some c) dl)))
    with (elements c).
  replace (Z.to_nat (Z.of_nat (length (elements c)) - 1 - 0 + 1))
    with (length (elements c)) by lia.
  rewrite trimLoop_same by done.
  cbn [mbind option_bind oldHead oldTail newHead newTail].
  rewrite bool_decide_eq_true_2 by lia. done.
Qed.




(** ** Delta replay *)

Lemma toUint32_small (pos : nat) :
  Z.of_nat pos < 2 ^ 32 → toUint32 (Z.of_nat pos) = Z.of_nat pos.
Proof. intros H. unfold toUint32. apply Z.mod_small. lia. Qed.

Section DeltaReplay.

Variable drivers : list ChainedDriver.
Variable el : DOMNode.
Variable newVNode : VElement.
Variable oldVNode : option VElement.
Variable effects : loc.
Variable driver : option Driver.

(** The host child of an entry is the one at its position converted to
    an [unsigned long]. *)
Lemma deltaStep_at commit d fr :
  deltaStep el newVNode oldVNode commit effects driver d fr
  = spec_deltaStepAt el newVNode oldVNode commit effects driver
      (item (store fr) el (toUint32 (Z.of_nat d.2))) d fr.
Proof.
  destruct d as [ty pos]. unfold deltaStep, spec_deltaStepAt.
  cbn [fst snd].
  destruct ty; cbn [decide]; simpl; try done.
  unfold getData, Data.context, newVNodeChildren. simpl.
  by destruct (commit _ _ fr).
Qed.

Lemma deltaStep_spec commit d fr :
  Z.of_nat d.2 < 2 ^ 32 →
  deltaStep el newVNode oldVNode commit effects driver d fr
  = spec_deltaStep el newVNode oldVNode commit effects driver
      (kids (store fr) el) d fr.
Proof.
  intros Hd. rewrite deltaStep_at. unfold spec_deltaStep, item.
  by rewrite toUint32_small, index_of_nat.
Qed.

Lemma deltaPath_at commit ds fr :
  deltaPath el newVNode oldVNode commit effects driver ds fr
  = forEach ds
      (λ d fr, spec_deltaStepAt el newVNode oldVNode commit effects driver
                 (item (store fr) el (toUint32 (Z.of_nat d.2))) d fr) fr.
Proof.
  unfold deltaPath. revert fr.
  induction ds as [|d ds IH]; intros fr; [done|].
  cbn [forEach]. rewrite deltaStep_at.
  destruct (spec_deltaStepAt _ _ _ _ _ _ _ d fr); [|done].
  cbn [mbind option_bind]. apply IH.
Qed.

Lemma deltaPath_current commit ds fr :
  Forall (λ d : Delta, Z.of_nat d.2 < 2 ^ 32) ds →
  deltaPath el newVNode oldVNode commit effects driver ds fr
  = forEach ds
      (λ d fr, spec_deltaStep el newVNode oldVNode commit effects driver
                 (kids (store fr) el) d fr) fr.
Proof.
  unfold deltaPath. intros Hall. revert fr.
  induction Hall as [|d ds Hd Hall IH]; intros fr; [done|].
  cbn [forEach]. rewrite deltaStep_spec by done.
  destruct (spec_deltaStep _ _ _ _ _ _ _ d fr); [|done].
  cbn [mbind option_bind]. apply IH.
Qed.

Lemma spec_deltaStepAt_childNodes child d fr fr' :
  (∀ d, driver = Some d → keepsChildNodes d) →
  spec_deltaStepAt el newVNode oldVNode defaultCommit effects driver
    child d fr = Some fr' →
  childNodes (store fr') = childNodes (store fr).
Proof.
  intros Hkeep. destruct d as [ty pos]. unfold spec_deltaStepAt.
  cbn [fst snd]. destruct ty; intros H.
  - simplify_eq. reflexivity.
  - unfold defaultCommit, diff in H.
    destruct (children newVNode) as [cs|]; simpl in H; [|done].
    destruct driver as [d|] eqn:Hd; simpl in H; [|done].
    destruct (d _ _ _ _ _ _) as [[a st]|] eqn:Hrun; simpl in H; [|done].
    simplify_eq. simpl. by eapply Hkeep.
  - simplify_eq. reflexivity.
Qed.

Lemma deltaPath_snapshot ds snapshot :
  (∀ d, driver = Some d → keepsChildNodes d) →
  Forall (λ d : Delta, Z.of_nat d.2 < 2 ^ 32) ds →
  ∀ fr, kids (store fr) el = snapshot →
  deltaPath el newVNode oldVNode defaultCommit effects driver ds fr
  = forEach ds
      (spec_deltaStep el newVNode oldVNode defaultCommit effects driver
         snapshot) fr.
Proof.
  intros Hkeep Hall. unfold deltaPath.
  induction Hall as [|d ds Hd Hall IH]; intros fr Hfr; [done|].
  cbn [forEach]. rewrite deltaStep_spec, Hfr by done.
  destruct (spec_deltaStep _ _ _ _ _ _ snapshot d fr) as [fr'|] eqn:Hstep;
    [|done].
  cbn [mbind option_bind]. apply IH.
  unfold kids. unfold spec_deltaStep in Hstep.
  by rewrite (spec_deltaStepAt_childNodes _ _ _ _ Hkeep Hstep).
Qed.

(** An UPDATE entry under the default commit: the driver call, and the
    array it returns as the new value of [effects]. *)
Lemma spec_deltaStepAt_update child pos fr d :
  driver = Some d →
  spec_deltaStepAt el newVNode oldVNode defaultCommit effects driver
    child (DeltaTypes.UPDATE, pos) fr
  = (cs ← children newVNode;
     '(a, st') ← d child (elements cs !! pos)
                   (oldVNodeChildren oldVNode !! pos) defaultCommit
                   (effectsVar fr) (store fr);
     Some (mkFrame a st')).
Proof. intros ->. reflexivity. Qed.

End DeltaReplay.




(** ** The generic unkeyed path *)

Lemma genericPath_spec el newVNode oldVNode commit effects driver new fr :
  genericPath el newVNode oldVNode commit effects driver new fr
  = spec_genericPath el newVNode oldVNode commit effects driver new fr.
Proof.
  unfold genericPath, spec_genericPath.
  destruct (truthy (oldChildrenValue oldVNode)) eqn:Htruthy; last first.
  { assert (oldVNodeChildren oldVNode = []) as ->.
    { unfold oldVNodeChildren.
      by destruct (oldChildrenValue oldVNode) as [l|[|ch s]]. }
    cbn [length]. change (Z.of_nat 0) with 0.
    rewrite Z.min_l by lia. cbn [seqZ reverse forEach mbind option_bind].
    rewrite forUp_forEach. rewrite Z.sub_0_r.
    destruct new as [|v new]; [done|].
    by rewrite bool_decide_eq_true_2 by (cbn [length]; lia). }
  set (nOld := Z.of_nat (length (oldVNodeChildren oldVNode))).
  set (nNew := Z.of_nat (length new)).
  set (common := nOld `min` nNew).
  assert (0 ≤ common) by lia.
  rewrite forDown_forEach.
  rewrite Z2Nat.id by done.
  replace (common - 1 - common + 1) with 0 by lia.
  destruct (forEach (reverse (seqZ 0 common)) _ fr) as [fr1|]; [|done].
  cbn [mbind option_bind].
  destruct (decide (nOld < nNew)) as [Hlt|Hge].
  - rewrite !bool_decide_eq_true_2 by lia.
    rewrite forUp_forEach. by rewrite Z2Nat.id by lia.
  - rewrite (bool_decide_eq_false_2 (nNew > nOld)) by lia.
    rewrite (bool_decide_eq_false_2 (nOld < nNew)) by lia.
    destruct (decide (nNew < nOld)) as [Hlt|Heq].
    + rewrite bool_decide_eq_true_2 by lia.
      rewrite forDown_forEach. rewrite Z2Nat.id by lia.
      do 3 f_equal. lia.
    + rewrite bool_decide_eq_false_2 by lia.
      by replace (nOld - common) with 0 by lia.
Qed.

(** C7: on the generic unkeyed path (no patch list, default flag, both
    child lists present and the old one non-empty) the indices below
    [min(|old|,|new|)] are reconciled one by one from the highest down to
    0, each by handing the driver call to commit and taking the array it
    returns; then, when the new list is longer, every extra new child is
    materialized and one CREATE effect appending it is queued, in
    increasing index order; when the old list is longer, one REMOVE effect
    per extra old child is queued, in decreasing index order. *)
Theorem C7_generic_path
    drivers el newVNode oldVNode commit effects driver new olds st :
  delta newVNode = None →
  flag newVNode = Flags.DEFAULT →
  children newVNode = Some (ChildArray new) →
  oldVNode ≫= children = Some (ChildArray olds) →
  olds ≠ [] →
  let nOld := Z.of_nat (length olds) in
  let nNew := Z.of_nat (length new) in
  let common := Z.min nOld nNew in
  useChildren drivers el newVNode oldVNode commit effects driver st
  = (fr1 ← forEach (reverse (seqZ 0 common))
             (diffAt el newVNode oldVNode commit driver new)
             (mkFrame effects st);
     fr2 ← (if bool_decide (nOld < nNew) then
              forEach (seqZ common (nNew - common))
                (appendCreated el effects new) fr1
            else
              forEach (reverse (seqZ common (nOld - common)))
                (removeAt el effects) fr1);
     finish drivers el newVNode oldVNode commit driver el fr2)
  ∧ (∀ i fr d,
       driver = Some d →
       diffAt el newVNode oldVNode defaultCommit driver new i fr
       = ('(a, st') ← d (item (store fr) el i) (index new i) (index olds i)
                        defaultCommit (effectsVar fr) (store fr);
          Some (mkFrame a st')))
  ∧ (∀ i v fr,
       index new i = Some v →
       ∃ fr',
         appendCreated el effects new i fr = Some fr'
         ∧ effectsVar fr' = effectsVar fr
         ∧ made (store fr') = made (store fr) ++ [Some v]
         ∧ array (store fr') effects
           = array (store fr) effects
             ++ [mkEffect el EffectTypes.CREATE
                   (AppendChild (Captured (Some (nextNode (store fr)))))])
  ∧ (∀ i fr,
       ∃ fr',
         removeAt el effects i fr = Some fr'
         ∧ effectsVar fr' = effectsVar fr
         ∧ array (store fr') effects
           = array (store fr) effects
             ++ [mkEffect el EffectTypes.REMOVE (RemoveChild (RefItem i))]).
Proof.
  intros Hdelta Hflag Hnew Hold Hne nOld nNew common.
  assert (oldVNodeChildren oldVNode = olds) as Holds
    by (by apply oldVNodeChildren_array).
  split; [|split; [|split]].
  - unfold useChildren, newVNodeChildren.
    rewrite Hdelta, Hnew, Hflag. cbn [truthy negb elements].
    rewrite decide_False by done. rewrite oldEmpty_test, Holds.
    rewrite bool_decide_eq_false_2 by (by destruct olds).
    rewrite !decide_False by done.
    rewrite genericPath_spec. unfold spec_genericPath. rewrite Holds.
    fold nOld nNew common.
    destruct (forEach (reverse (seqZ 0 common)) _ _) as [fr1|]; [|done].
    done.
  - intros i fr d ->. unfold diffAt, diff. unfold defaultCommit at 1.
    rewrite Holds. reflexivity.
  - intros i v fr Hv. unfold appendCreated. rewrite Hv. simpl.
    eexists. split; [done|]. simpl. split; [done|]. split; [done|].
    unfold queueEffect. by rewrite array_effect.
  - intros i fr. unfold removeAt. eexists. split; [done|]. simpl.
    split; [done|]. unfold queueEffect. by rewrite array_effect.
Qed.

Lemma C7_generic_path_witness :
  let newVNode :=
    mkVElement Flags.DEFAULT None
      (Some (ChildArray [VText "a"; VText "b"; VText "c"])) None in
  let oldVNode :=
    Some (mkVElement Flags.DEFAULT None (Some (ChildArray [VText "x"])) None) in
  ∃ data st',
    useChildren [] 0%nat newVNode oldVNode defaultCommit 0%nat
      (Some sameArrayDriver) sampleStore = Some (data, st')
    ∧ made st' = [Some (VText "b"); Some (VText "c")]
    ∧ array st' 0%nat
      = [mkEffect 0%nat EffectTypes.CREATE
           (AppendChild (Captured (Some 10%nat)));
         mkEffect 0%nat EffectTypes.CREATE
           (AppendChild (Captured (Some 11%nat)))].
Proof.
  intros newVNode oldVNode.
  destruct (C7_generic_path [] 0%nat newVNode oldVNode defaultCommit 0%nat
              (Some sameArrayDriver) [VText "a"; VText "b"; VText "c"]
              [VText "x"] sampleStore)
    as (Hrun & _); [reflexivity.. | discriminate |].
  rewrite Hrun. eexists _, _. split; [reflexivity|]. split; reflexivity.
Defined.

(** ** The keyed reconciler as a run of blocks *)


Lemma queued_app a evs1 evs2 :
  queued a (evs1 ++ evs2) = queued a evs1 ++ queued a evs2.
Proof. apply omap_app. Qed.

Lemma replay_app el evs1 evs2 p :
  replay el (evs1 ++ evs2) p = replay el evs2 (replay el evs1 p).
Proof. apply foldl_app. Qed.

Lemma replay_noSets el evs p : noSets el evs → replay el evs p = p.
Proof.
  revert p. induction evs as [|ev evs IH]; intros p Hno; [done|].
  assert (noSets el evs) as Hno'.
  { intros k node Hin. apply (Hno k node). by right. }
  unfold replay in *. simpl. destruct ev as [| |el' k node| |]; try by apply IH.
  case_decide as Hel; [|by apply IH]. subst el'.
  exfalso. apply (Hno k node). left.
Qed.

Section Keyed.
Variable el : DOMNode.
Variable oldVNode : option VElement.
Variable a : loc.
Variable new : list VNode.
Variable st0 : Store.

Let old := oldVNodeChildren oldVNode.
Local Abbreviation Run := (KeyedRun el a old new st0).
Local Abbreviation Block :=
  (KeyedBlock el a old new (kids st0 el) (pool st0 el)).

Lemma run_start : Run st0 [].
Proof.
  split; simpl; try done.
  - by rewrite app_nil_r.
  - unfold queued. simpl. by rewrite app_nil_r.
Qed.

Lemma run_block st bs b st' :
  Run st bs → Block b →
  trace st' = trace st ++ b →
  childNodes st' = childNodes st →
  made st' = made st →
  nextNode st' = nextNode st →
  array st' a = array st a ++ queued a b →
  (∀ b', b' ≠ a → arrays st' !! b' = arrays st !! b') →
  pool st' el = replay el b (pool st el) →
  (∀ el', el' ≠ el → pools st' !! el' = pools st !! el') →
  Run st' (bs ++ [b]).
Proof.
  intros [] Hb Ht Hc Hm Hn Ha Has Hp Hps.
  assert (concat (bs ++ [b]) = concat bs ++ b) as Hcat.
  { rewrite concat_app. simpl. by rewrite app_nil_r. }
  split; rewrite ?Hcat.
  - apply Forall_app. split; [done|]. by apply Forall_singleton.
  - rewrite Ht, kr_trace0. by rewrite app_assoc.
  - congruence.
  - congruence.
  - congruence.
  - rewrite Ha, kr_array0, queued_app. by rewrite app_assoc.
  - intros b' Hb'. rewrite Has by done. by apply kr_arrays0.
  - rewrite Hp, kr_pool0. by rewrite replay_app.
  - intros el' Hel'. rewrite Hps by done. by apply kr_pools0.
Qed.

Lemma run_item st bs i : Run st bs → item st el i = index (kids st0 el) i.
Proof. intros []. unfold item, kids. by rewrite kr_childNodes0. Qed.

Lemma queued_queue e : queued a [EvQueue a e] = [e].
Proof. unfold queued. simpl. by rewrite decide_True. Qed.

Lemma elem_of_concat_snoc (ev : Event) bs b :
  ev ∈ concat (bs ++ [b]) ↔ ev ∈ concat bs ∨ ev ∈ b.
Proof. rewrite concat_app, elem_of_app. simpl. by rewrite app_nil_r. Qed.

Lemma run_init st bs :
  Run st bs →
  ∃ bs', Run (poolInit el st) bs'
         ∧ ∀ ev, ev ∈ concat bs' → ev ∈ concat bs ∨ ev = EvPoolInit el.
Proof.
  intros Hrun. unfold poolInit. destruct (pools st !! el) eqn:Hp.
  { eauto. }
  exists (bs ++ [[EvPoolInit el]]). split.
  - eapply run_block; [done|constructor|..]; simpl; try done.
    + by rewrite app_nil_r.
    + unfold pool. simpl. by rewrite lookup_insert_eq, Hp.
    + intros el' Hel'. by rewrite lookup_insert_ne.
  - intros ev [H|H]%elem_of_concat_snoc; [by left|].
    right. by apply list_elem_of_singleton in H.
Qed.

Lemma run_move st bs i r :
  Run st bs →
  Run (effect el a EffectTypes.CREATE
         (InsertBefore (Captured (item st el i)) r) st)
      (bs ++ [[EvQueue a (mkEffect el EffectTypes.CREATE
                 (InsertBefore (Captured (index (kids st0 el) i)) r))]]).
Proof.
  intros Hrun. rewrite (run_item _ _ _ Hrun).
  eapply run_block; [done|constructor|..]; try done.
  - by rewrite array_effect, queued_queue.
  - intros b' Hb'. simpl. by rewrite lookup_insert_ne.
Qed.

Lemma run_insert st bs v head :
  Run st bs → noSets el (concat bs) → v ∈ new →
  let c := mjoin (pool st0 el !! key v) in
  (poolGet el (key v) st).1 = c
  ∧ Run (effect el a EffectTypes.CREATE
           (InsertBefore (CachedOrCreate c (Some v)) (RefItem head))
           (poolGet el (key v) st).2)
        (bs ++ [[EvPoolGet el (key v) c;
                 EvQueue a (mkEffect el EffectTypes.CREATE
                   (InsertBefore (CachedOrCreate c (Some v))
                      (RefItem head)))]]).
Proof.
  intros Hrun Hno Hv c.
  assert (mjoin (pool st el !! key v) = c) as Hc.
  { destruct Hrun. rewrite kr_pool0. by rewrite replay_noSets. }
  split; [done|].
  eapply run_block; [done|by constructor|..]; try done.
  - unfold poolGet. simpl. rewrite Hc. by rewrite <- app_assoc.
  - rewrite array_effect. unfold queued. simpl. by rewrite decide_True.
  - intros b' Hb'. simpl. by rewrite lookup_insert_ne.
Qed.

Lemma run_remove st bs i v :
  Run st bs → index old i = Some v →
  Run (effect el a EffectTypes.REMOVE
         (RemoveChild (RefCaptured (item st el i)))
         (poolSet el (key v) (item st el i) st))
      (bs ++ [[EvPoolSet el (key v) (index (kids st0 el) i);
               EvQueue a (mkEffect el EffectTypes.REMOVE
                 (RemoveChild (RefCaptured (index (kids st0 el) i))))]]).
Proof.
  intros Hrun Hv. rewrite (run_item _ _ _ Hrun).
  eapply run_block; [done|by constructor|..]; try done.
  - simpl. by rewrite <- app_assoc.
  - rewrite array_effect. unfold queued. simpl. by rewrite decide_True.
  - intros b' Hb'. simpl. by rewrite lookup_insert_ne.
  - unfold replay. simpl. rewrite decide_True by done.
    unfold pool at 1. simpl. by rewrite lookup_insert_eq.
  - intros el' Hel'. simpl. by rewrite lookup_insert_ne.
Qed.


Ltac not_in_block H :=
  repeat (apply elem_of_cons in H as [H|H]; [discriminate H|]);
  by apply elem_of_nil in H.

Ltac snoc_events :=
  match goal with
  | |- noSets _ _ => intros ? ? [?|?]%elem_of_concat_snoc
  | |- noGets _ _ => intros ? ? [?|?]%elem_of_concat_snoc
  end;
  [ match goal with H : noSets _ _ |- _ => by eapply H
                  | H : noGets _ _ |- _ => by eapply H end
  | match goal with H : _ ∈ _ :: _ |- _ => not_in_block H end ].

Lemma trimLoop_run n :
  ∀ c st bs,
    inBounds oldVNode new c → Run st bs →
    noSets el (concat bs) → noGets el (concat bs) →
    ∃ c' st' bs',
      trimLoop el oldVNode a n new c st = Some (c', st')
      ∧ inBounds oldVNode new c' ∧ Run st' bs'
      ∧ noSets el (concat bs') ∧ noGets el (concat bs').
Proof.
  induction n as [|n IH]; intros c st bs Hb Hrun HnoS HnoG.
  { simpl. eauto 10. }
  cbn [trimLoop]. destruct (inRange c) eqn:Hr; [|eauto 10].
  destruct (inBounds_lookup _ _ _ Hb Hr)
    as (vOT & vNT & vOH & vNH & HOT & HNT & HOH & HNH).
  destruct (decide (key vOT = key vNT)) as [Hk|Hk].
  { pose proof (trimStep_suffix el _ a _ _ st _ _ HOT HNT Hk) as Hs.
    rewrite Hs. cbn [mbind option_bind].
    apply (IH _ _ bs); try done. by eapply trimStep_inBounds. }
  pose proof (trimStep_other el _ a _ _ st _ _ _ _ HOT HNT HOH HNH Hk) as Hs.
  rewrite Hs. cbn [mbind option_bind].
  repeat case_decide.
  - apply (IH _ _ bs); try done. by eapply trimStep_inBounds.
  - eapply IH.
    + by eapply trimStep_inBounds.
    + by apply run_move.
    + snoc_events.
    + snoc_events.
  - eapply IH.
    + by eapply trimStep_inBounds.
    + by apply run_move.
    + snoc_events.
    + snoc_events.
  - eauto 10.
Qed.

Lemma elem_of_mapSet {V} k (v : V) k' v' m :
  (k', v') ∈ mapSet k v m → (k', v') = (k, v) ∨ (k', v') ∈ m.
Proof.
  induction m as [|[k0 v0] m IH]; simpl.
  - intros ->%list_elem_of_singleton. by left.
  - case_decide.
    + intros [->|H']%elem_of_cons; [by left|]. right. by right.
    + intros [->|H']%elem_of_cons; [right; left|].
      destruct (IH H') as [?|?]; [by left|]. right. by right.
Qed.

Lemma elem_of_mapDelete {V} k k' (v' : V) m :
  (k', v') ∈ mapDelete k m → (k', v') ∈ m.
Proof.
  induction m as [|[k0 v0] m IH]; simpl; [done|].
  case_decide.
  - intros H'. by right.
  - intros [->|H']%elem_of_cons; [left|]. right. by apply IH.
Qed.

Lemma mapGet_mapDelete_None {V} k k' (m : list (Key * V)) :
  mapGet k m = None → mapGet k (mapDelete k' m) = None.
Proof.
  induction m as [|[k0 v0] m IH]; simpl; [done|].
  repeat case_decide; simpl; try done.
  - intros. rewrite decide_False by done. by apply IH.
Qed.

Lemma mapGet_elem_of {V} k (v : V) m : mapGet k m = Some v → (k, v) ∈ m.
Proof.
  induction m as [|[k0 v0] m IH]; simpl; [done|].
  case_decide.
  - intros [= ->]. subst. left.
  - intros H'. right. by apply IH.
Qed.

Lemma elem_of_mapGet {V} k (v : V) m : (k, v) ∈ m → mapGet k m ≠ None.
Proof.
  induction m as [|[k0 v0] m IH]; simpl.
  - by intros ?%elem_of_nil.
  - intros [[= -> ->]|H']%elem_of_cons.
    + by rewrite decide_True.
    + case_decide; [done|]. by apply IH.
Qed.

Lemma keyedPath_run :
  ∃ st' bs,
    keyedPath el oldVNode a new st0 = Some st'
    ∧ Run st' bs
    ∧ getsApartFromSets el (concat bs).
Proof.
  unfold keyedPath.
  destruct (run_init st0 [] run_start) as (bs0 & Hrun0 & Hev0).
  assert (noSets el (concat bs0)) as HnoS0.
  { intros k node [H|H]%Hev0; [by apply elem_of_nil in H|done]. }
  assert (noGets el (concat bs0)) as HnoG0.
  { intros k c [H|H]%Hev0; [by apply elem_of_nil in H|done]. }
  destruct (trimLoop_run
              (Z.to_nat (Z.of_nat (length old) - 1 - 0 + 1))
              (mkCursors 0 0 (Z.of_nat (length old) - 1)
                 (Z.of_nat (length new) - 1))
              (poolInit el st0) bs0)
    as (c & st1 & bs1 & Htrim & Hb & Hrun1 & HnoS1 & HnoG1); try done.
  { unfold inBounds. fold old. simpl. lia. }
  unfold trim. cbn [oldHead oldTail]. fold old. rewrite Htrim.
  cbn [mbind option_bind].
  destruct Hb as (Hb1 & Hb2 & Hb3 & Hb4). fold old in Hb2.
  case_bool_decide as Hc1; [|case_bool_decide as Hc2].
  - (* [6] *)
    edestruct (forUp_ind
      (λ st, ∃ bs, Run st bs ∧ noSets el (concat bs))
      (insertStep el a new) (span (newHead c) (newTail c)) (newHead c) st1)
      as (st' & Hloop & bs' & Hrun' & HnoS'); [by eauto| |].
    { intros j st (Hj1 & Hj2) (bs & Hrun & HnoS).
      destruct (index_lookup new j) as (v & Hv & Hin);
        [unfold span in Hj2; lia|].
      unfold insertStep. rewrite Hv. cbn [mbind option_bind].
      destruct (run_insert st bs v j Hrun HnoS Hin) as [Hc Hrun'].
      destruct (poolGet el (key v) st) as [c' st2] eqn:Hget.
      simpl in Hc, Hrun'. subst c'.
      eexists. split; [done|]. eexists. split; [exact Hrun'|].
      intros k node [H|H]%elem_of_concat_snoc; [by eapply HnoS|].
      not_in_block H. }
    exists st', bs'. split; [done|]. split; [done|].
    intros k c' node _. apply HnoS'.
  - (* [7] *)
    edestruct (forUp_ind
      (λ st, ∃ bs, Run st bs ∧ noGets el (concat bs))
      (removeStep el oldVNode a) (span (oldHead c) (oldTail c)) (oldHead c)
      st1)
      as (st' & Hloop & bs' & Hrun' & HnoG'); [by eauto| |].
    { intros j st (Hj1 & Hj2) (bs & Hrun & HnoG).
      destruct (index_lookup old j) as (v & Hv & Hin);
        [unfold span in Hj2; lia|].
      unfold removeStep. fold old. rewrite Hv. cbn [mbind option_bind].
      eexists. split; [done|]. eexists. split; [by apply run_remove|].
      intros k c' [H|H]%elem_of_concat_snoc; [by eapply HnoG|].
      not_in_block H. }
    exists st', bs'. split; [done|]. split; [done|].
    intros k c' node Hget. by apply HnoG' in Hget.
  - (* [8] to [11] *)
    edestruct (forUp_ind (validKeyMap old) (indexStep oldVNode)
      (span (oldHead c) (oldTail c)) (oldHead c) [])
      as (m0 & Hidx & Hm0).
    { intros k i H. by apply elem_of_nil in H. }
    { intros j m (Hj1 & Hj2) Hm.
      destruct (index_lookup old j) as (v & Hv & Hin);
        [unfold span in Hj2; lia|].
      unfold indexStep. fold old. rewrite Hv.
      cbn [mbind option_bind].
      eexists. split; [done|].
      intros k i [[= -> ->]|H]%elem_of_mapSet; [eauto|]. by apply Hm. }
    rewrite Hidx. cbn [mbind option_bind].
    edestruct (forUp_ind
      (λ s : list (Key * Z) * Store,
         validKeyMap old s.1
         ∧ ∃ bs, Run s.2 bs ∧ noSets el (concat bs)
                 ∧ ∀ k c, EvPoolGet el k c ∈ concat bs →
                          mapGet k s.1 = None)
      (walkStep el a new) (span (newHead c) (newTail c)) (newHead c)
      (m0, st1))
      as ([m1 st2] & Hwalk & Hm1 & bs2 & Hrun2 & HnoS2 & Hgets2).
    { split; [done|]. exists bs1. split; [done|]. split; [done|].
      intros k c' H. by apply HnoG1 in H. }
    { intros j [m st] (Hj1 & Hj2) (Hm & bs & Hrun & HnoS & Hgets).
      simpl in Hm.
      destruct (index_lookup new j) as (v & Hv & Hin);
        [unfold span in Hj2; lia|].
      unfold walkStep. rewrite Hv. cbn [mbind option_bind].
      destruct (mapGet (key v) m) as [oldIndex|] eqn:Hget.
      - eexists. split; [done|]. simpl. split.
        { intros k i H. apply Hm. by eapply elem_of_mapDelete. }
        eexists. split; [by apply run_move|]. split.
        + intros k node [H|H]%elem_of_concat_snoc; [by eapply HnoS|].
          not_in_block H.
        + intros k c' [H|H]%elem_of_concat_snoc; [|not_in_block H].
          apply mapGet_mapDelete_None. by eapply Hgets.
      - destruct (run_insert st bs v j Hrun HnoS Hin) as [Hc Hrun'].
        destruct (poolGet el (key v) st) as [c' st3] eqn:Hpg.
        simpl in Hc, Hrun'. subst c'.
        eexists. split; [done|]. simpl. split; [done|].
        eexists. split; [exact Hrun'|]. split.
        + intros k node [H|H]%elem_of_concat_snoc; [by eapply HnoS|].
          not_in_block H.
        + intros k c' [H|H]%elem_of_concat_snoc; [by eapply Hgets|].
          apply elem_of_cons in H as [[= -> _]|H]; [done|]. not_in_block H. }
    rewrite Hwalk. cbn [mbind option_bind]. simpl in Hm1, Hgets2.
    edestruct (forEach_ind
      (λ st, ∃ bs, Run st bs
                   ∧ (∀ k c, EvPoolGet el k c ∈ concat bs →
                             mapGet k m1 = None)
                   ∧ (∀ k node, EvPoolSet el k node ∈ concat bs →
                                mapGet k m1 ≠ None))
      (cleanStep el a) m1 st2)
      as (st' & Hclean & bs' & Hrun' & Hgets' & Hsets').
    { exists bs2. split; [done|]. split; [done|].
      intros k node H. by apply HnoS2 in H. }
    { intros [k i] st Hin (bs & Hrun & Hgets & Hsets).
      destruct (Hm1 k i Hin) as (v & Hv & <-).
      unfold cleanStep. eexists. split; [done|].
      eexists. split; [by apply run_remove|]. split.
      - intros k c' [H|H]%elem_of_concat_snoc; [by eapply Hgets|].
        not_in_block H.
      - intros k node [H|H]%elem_of_concat_snoc; [by eapply Hsets|].
        apply elem_of_cons in H as [[= -> _]|H]; [|not_in_block H].
        by eapply elem_of_mapGet. }
    exists st', bs'. split; [done|]. split; [done|].
    intros k c' node Hget Hset.
    by apply (Hsets' k node Hset), (Hgets' k c').
Qed.

End Keyed.

(** ** The object pool *)

Lemma replay_cons el ev evs p :
  replay el (ev :: evs) p = replay el evs (replay el [ev] p).
Proof. apply (replay_app el [ev] evs). Qed.

Lemma replay_lookup_other el evs p k :
  (∀ node, EvPoolSet el k node ∉ evs) →
  replay el evs p !! k = p !! k.
Proof.
  revert p. induction evs as [|ev evs IH]; intros p Hno; [done|].
  rewrite replay_cons, IH.
  - unfold replay. simpl. destruct ev as [| |el' k' node| |]; try done.
    case_decide; [|done]. subst el'.
    destruct (decide (k' = k)) as [->|Hk].
    + exfalso. apply (Hno node). left.
    + by rewrite lookup_insert_ne.
  - intros node Hin. apply (Hno node). by right.
Qed.

Lemma replay_lookup_last el evs1 evs2 p k node :
  (∀ node', EvPoolSet el k node' ∉ evs2) →
  replay el (evs1 ++ EvPoolSet el k node :: evs2) p !! k = Some node.
Proof.
  intros Hno. rewrite replay_app, replay_cons, replay_lookup_other by done.
  unfold replay at 1. simpl. rewrite decide_True by done.
  by rewrite lookup_insert_eq.
Qed.

Lemma replay_dom el evs p : dom p ⊆ dom (replay el evs p).
Proof.
  revert p. induction evs as [|ev evs IH]; intros p; [done|].
  rewrite replay_cons. etrans; [|apply IH].
  unfold replay. simpl. destruct ev as [| |el' k' node| |]; try done.
  case_decide; [|done]. rewrite dom_insert. set_solver.
Qed.

Lemma replay_lookup_cases el evs p k :
  replay el evs p !! k = p !! k ∨ ∃ node, EvPoolSet el k node ∈ evs.
Proof.
  revert p. induction evs as [|ev evs IH]; intros p; [by left|].
  rewrite replay_cons.
  destruct (IH (replay el [ev] p)) as [Heq|[node Hin]].
  - rewrite Heq. unfold replay. simpl.
    destruct ev as [| |el' k' node| |]; try by left.
    case_decide; [|by left]. subst el'.
    destruct (decide (k' = k)) as [->|Hk].
    + right. exists node. left.
    + left. by rewrite lookup_insert_ne.
  - right. exists node. by right.
Qed.

(** A queued closure never touches a pool. *)
Lemma createElement_pools v s node s' :
  createElement v s = Some (node, s') → pools s' = pools s.
Proof. unfold createElement. by intros [= _ <-]. Qed.

Lemma evalNode_pools e s node s' :
  evalNode e s = Some (node, s') → pools s' = pools s.
Proof.
  destruct e as [n|v|c i|[n|] v]; simpl.
  - by intros [= _ <-].
  - destruct (createElement v s) as [[n s1]|] eqn:Hc; simpl; [|done].
    intros [= _ <-]. by eapply createElement_pools.
  - destruct c as [c|]; simpl; [|done]. by intros [= _ <-].
  - by intros [= _ <-].
  - destruct (createElement v s) as [[n s1]|] eqn:Hc; simpl; [|done].
    intros [= _ <-]. by eapply createElement_pools.
Qed.

Lemma insertBefore_pools el node ref s s' :
  insertBefore el node ref s = Some s' → pools s' = pools s.
Proof.
  unfold insertBefore. destruct node as [n|]; [|done].
  destruct ref as [r|].
  - case_bool_decide; [|done]. by intros [= <-].
  - by intros [= <-].
Qed.

Lemma removeChild_pools el child s s' :
  removeChild el child s = Some s' → pools s' = pools s.
Proof.
  unfold removeChild. destruct child as [c|]; [|done].
  case_bool_decide; [|done]. by intros [= <-].
Qed.

Lemma flush_pools e s s' : flush e s = Some s' → pools s' = pools s.
Proof.
  unfold flush. destruct (eff_flush e) as [node ref|node|child|str].
  - destruct (evalNode node s) as [[n s1]|] eqn:Hn; simpl; [|done].
    destruct (evalRef (eff_el e) ref s1) as [r|]; simpl; [|done].
    intros H%insertBefore_pools. rewrite H. by eapply evalNode_pools.
  - destruct (evalNode node s) as [[n s1]|] eqn:Hn; simpl; [|done].
    intros H%insertBefore_pools. rewrite H. by eapply evalNode_pools.
  - destruct (evalRef (eff_el e) child s) as [c|]; simpl; [|done].
    apply removeChild_pools.
  - intros [= <-]. unfold setTextContent. by destruct str as [[|]|].
Qed.

Lemma flushAll_pools es :
  ∀ s s', flushAll es s = Some s' → pools s' = pools s.
Proof.
  induction es as [|e es IH]; intros s s'; simpl; [by intros [= <-]|].
  destruct (flush e s) as [s1|] eqn:He; simpl; [|done].
  intros H%IH. rewrite H. by eapply flush_pools.
Qed.

(** Reusing a pooled node does not call the node factory. *)
Lemma flush_cached el ty node v r s s' :
  flush (mkEffect el ty (InsertBefore (CachedOrCreate (Some node) v) r)) s
  = Some s' →
  made s' = made s ∧ nextNode s' = nextNode s
  ∧ ∃ r', evalRef el r s = Some r'
          ∧ insertBefore el (Some node) r' s = Some s'.
Proof.
  unfold flush. simpl.
  destruct (evalRef el r s) as [r'|] eqn:Hr; simpl; [|done].
  intros Hins. split; [|split; [|eauto]].
  - unfold insertBefore in Hins. destruct r'; [case_bool_decide|];
      by simplify_eq.
  - unfold insertBefore in Hins. destruct r'; [case_bool_decide|];
      by simplify_eq.
Qed.

Lemma elem_of_concat {A} (x : A) (ls : list (list A)) :
  x ∈ concat ls ↔ ∃ l, l ∈ ls ∧ x ∈ l.
Proof.
  induction ls as [|l ls IH]; simpl.
  - split; [by intros ?%elem_of_nil|]. by intros (l & ?%elem_of_nil & _).
  - rewrite elem_of_app, IH. split.
    + intros [H|(l' & H1 & H2)].
      * exists l. split; [left|done].
      * exists l'. split; [by right|done].
    + intros (l' & [->|H1]%elem_of_cons & H2); [by left|].
      right. eauto.
Qed.

(** What the blocks of a keyed pass say of the effects it queued. *)
Lemma blocks_get el a old new ks p bs k c :
  Forall (KeyedBlock el a old new ks p) bs →
  EvPoolGet el k c ∈ concat bs → c = mjoin (p !! k).
Proof.
  intros Hbs (b & Hb & Hin)%elem_of_concat.
  rewrite Forall_forall in Hbs. destruct (Hbs b Hb).
  - by apply list_elem_of_singleton in Hin.
  - by apply list_elem_of_singleton in Hin.
  - apply elem_of_cons in Hin as [[= -> ->]|Hin]; [done|].
    by apply list_elem_of_singleton in Hin.
  - apply elem_of_cons in Hin as [?|Hin]; [done|].
    by apply list_elem_of_singleton in Hin.
Qed.

Lemma blocks_cached el a old new ks p bs a' ty c v r :
  Forall (KeyedBlock el a old new ks p) bs →
  EvQueue a' (mkEffect el ty (InsertBefore (CachedOrCreate c v) r))
    ∈ concat bs →
  ∃ v', v = Some v' ∧ v' ∈ new ∧ c = mjoin (p !! key v')
        ∧ EvPoolGet el (key v') c ∈ concat bs.
Proof.
  intros Hbs Hq. pose proof Hq as (b & Hb & Hin)%elem_of_concat.
  rewrite Forall_forall in Hbs. destruct (Hbs b Hb) as [| |v' head Hv'|].
  - by apply list_elem_of_singleton in Hin.
  - by apply list_elem_of_singleton in Hin.
  - apply elem_of_cons in Hin as [?|Hin]; [done|].
    apply list_elem_of_singleton in Hin. injection Hin as -> -> -> -> ->.
    exists v'. repeat (split; [done|]).
    apply elem_of_concat. eexists. split; [done|]. left.
  - apply elem_of_cons in Hin as [?|Hin]; [done|].
    by apply list_elem_of_singleton in Hin.
Qed.

(** C5: a keyed pass always returns, and its history is a sequence of
    blocks of four kinds (lazy creation of the pool, a move of an existing
    host child, a pool read followed by the queued insertion it feeds, a
    pool write followed by the queued REMOVE).  So every removal of an old
    child first stores the host node found at its index in the pool under
    the child's key, overwriting what was there, and every insertion of a
    new child first reads the pool under the child's key and queues
    [cachedNode ?? createElement(...)] with what it read; running that
    action with a pooled node inserts this very node and does not call the
    node factory.  A node a pass leaves in the pool under a key is the one
    a later pass, run after any of the queued effects, reuses for every
    insertion of that key. *)
Theorem C5_pool_recycling el oldVNode a new st :
  ∃ st' blocks,
    keyedPath el oldVNode a new st = Some st'
    ∧ trace st' = trace st ++ concat blocks
    ∧ Forall (KeyedBlock el a (oldVNodeChildren oldVNode) new (kids st el)
                (pool st el)) blocks
    ∧ array st' a = array st a ++ queued a (concat blocks)
    ∧ pool st' el = replay el (concat blocks) (pool st el)
    ∧ (∀ evs1 evs2 k node,
         concat blocks = evs1 ++ EvPoolSet el k node :: evs2 →
         (∀ node', EvPoolSet el k node' ∉ evs2) →
         pool st' el !! k = Some node)
    ∧ (∀ a' ty c v r,
         EvQueue a' (mkEffect el ty (InsertBefore (CachedOrCreate c v) r))
           ∈ concat blocks →
         ∃ v', v = Some v' ∧ v' ∈ new ∧ c = mjoin (pool st el !! key v')
               ∧ EvPoolGet el (key v') c ∈ concat blocks)
    ∧ (∀ ty node v r s s',
         flush (mkEffect el ty
                  (InsertBefore (CachedOrCreate (Some node) v) r)) s
         = Some s' →
         made s' = made s ∧ nextNode s' = nextNode s
         ∧ ∃ r', evalRef el r s = Some r'
                 ∧ insertBefore el (Some node) r' s = Some s')
    ∧ (∀ k node es st2 oldVNode2 a2 new2,
         pool st' el !! k = Some (Some node) →
         flushAll es st' = Some st2 →
         ∃ st3 blocks2,
           keyedPath el oldVNode2 a2 new2 st2 = Some st3
           ∧ trace st3 = trace st2 ++ concat blocks2
           ∧ array st3 a2 = array st2 a2 ++ queued a2 (concat blocks2)
           ∧ ∀ a' ty c v r,
               EvQueue a' (mkEffect el ty
                             (InsertBefore (CachedOrCreate c (Some v)) r))
                 ∈ concat blocks2 →
               key v = k → c = Some node).
Proof.
  destruct (keyedPath_run el oldVNode a new st) as (st' & bs & Hrun & [] & _).
  exists st', bs. repeat (split; [done|]).
  split; [|split; [|split]].
  - intros evs1 evs2 k node Hcat Hno.
    rewrite kr_pool0, Hcat. by apply replay_lookup_last.
  - intros a' ty c v r Hin. by eapply blocks_cached.
  - intros ty node v r s s'. apply flush_cached.
  - intros k node es st2 oldVNode2 a2 new2 Hk Hflush.
    destruct (keyedPath_run el oldVNode2 a2 new2 st2)
      as (st3 & bs2 & Hrun2 & [] & _).
    exists st3, bs2. repeat (split; [done|]).
    intros a' ty c v r Hin Hkey.
    destruct (blocks_cached _ _ _ _ _ _ _ _ _ _ _ _ kr_blocks1 Hin)
      as (v' & [= <-] & _ & -> & _).
    unfold pool. rewrite (flushAll_pools _ _ _ Hflush).
    fold (pool st' el). by rewrite Hkey, Hk.
Qed.

(** C10: the pool of the parent changes in a keyed pass only by the
    writes of its removals (and by being created empty): no key leaves it,
    every entry is either as before or was written by a removal of that
    key in this pass, and the pools of other nodes are not touched.  A key
    whose entry was read for an insertion is not written in the same
    pass, so the entry handed out is still in the pool when the pass
    returns; running queued effects never changes a pool; hence a later
    pass reads the same node for every insertion of that key. *)
Theorem C10_pool_entry_survives_reuse el oldVNode a new st :
  ∃ st' blocks,
    keyedPath el oldVNode a new st = Some st'
    ∧ trace st' = trace st ++ concat blocks
    ∧ Forall (KeyedBlock el a (oldVNodeChildren oldVNode) new (kids st el)
                (pool st el)) blocks
    ∧ pool st' el = replay el (concat blocks) (pool st el)
    ∧ dom (pool st el) ⊆ dom (pool st' el)
    ∧ (∀ k, pool st' el !! k = pool st el !! k
            ∨ ∃ node, EvPoolSet el k node ∈ concat blocks)
    ∧ (∀ el', el' ≠ el → pools st' !! el' = pools st !! el')
    ∧ (∀ k c,
         EvPoolGet el k c ∈ concat blocks →
         c = mjoin (pool st el !! k)
         ∧ pool st' el !! k = pool st el !! k)
    ∧ (∀ e s s', flush e s = Some s' → pools s' = pools s)
    ∧ (∀ k node es st2 oldVNode2 a2 new2,
         EvPoolGet el k (Some node) ∈ concat blocks →
         flushAll es st' = Some st2 →
         mjoin (pool st2 el !! k) = Some node
         ∧ ∃ st3 blocks2,
             keyedPath el oldVNode2 a2 new2 st2 = Some st3
             ∧ trace st3 = trace st2 ++ concat blocks2
             ∧ ∀ c, EvPoolGet el k c ∈ concat blocks2 → c = Some node).
Proof.
  destruct (keyedPath_run el oldVNode a new st)
    as (st' & bs & Hrun & [] & Hapart).
  exists st', bs. repeat (split; [done|]).
  assert (∀ k c, EvPoolGet el k c ∈ concat bs →
                 c = mjoin (pool st el !! k)
                 ∧ pool st' el !! k = pool st el !! k) as Hread.
  { intros k c Hin. split; [by eapply blocks_get|].
    rewrite kr_pool0. apply replay_lookup_other.
    intros node. by eapply Hapart. }
  split; [|split; [|split; [|split; [|split]]]].
  - rewrite kr_pool0. apply replay_dom.
  - intros k. rewrite kr_pool0. apply replay_lookup_cases.
  - done.
  - done.
  - apply flush_pools.
  - intros k node es st2 oldVNode2 a2 new2 Hin Hflush.
    destruct (Hread k _ Hin) as [Hc Hk].
    assert (mjoin (pool st2 el !! k) = Some node) as Hst2.
    { unfold pool. rewrite (flushAll_pools _ _ _ Hflush).
      fold (pool st' el). by rewrite Hk. }
    split; [done|].
    destruct (keyedPath_run el oldVNode2 a2 new2 st2)
      as (st3 & bs2 & Hrun2 & [] & _).
    exists st3, bs2. repeat (split; [done|]).
    intros c Hget. rewrite <- Hst2. by eapply blocks_get.
Qed.

(** The two claims on a run: [b] is removed by a first pass, which pools
    its host node 2; after the queued REMOVE has run, a second pass
    re-inserts [b] from the pool, and running its effect puts node 2 back
    without a call of the node factory; a third pass, removing nothing,
    would still find node 2 pooled. *)
Example pool_recycling_two_passes :
  let ab := Some (mkVElement Flags.ELEMENT_KEYED_CHILDREN None
                    (Some (ChildArray [keyedChild "a"; keyedChild "b"])) None) in
  let a_ := Some (mkVElement Flags.ELEMENT_KEYED_CHILDREN None
                    (Some (ChildArray [keyedChild "a"])) None) in
  let st0 := mkStore ∅ {[ 0%nat := [1%nat; 2%nat] ]} ∅ [] 10%nat [] in
  ∃ st1 st1' st2 st2',
    keyedPath 0%nat ab 0%nat [keyedChild "a"] st0 = Some st1
    ∧ array st1 0%nat
      = [mkEffect 0%nat EffectTypes.REMOVE
           (RemoveChild (RefCaptured (Some 2%nat)))]
    ∧ pool st1 0%nat !! Some "b" = Some (Some 2%nat)
    ∧ flushAll (array st1 0%nat) st1 = Some st1'
    ∧ kids st1' 0%nat = [1%nat]
    ∧ keyedPath 0%nat a_ 1%nat [keyedChild "a"; keyedChild "b"] st1'
      = Some st2
    ∧ array st2 1%nat
      = [mkEffect 0%nat EffectTypes.CREATE
           (InsertBefore
              (CachedOrCreate (Some 2%nat) (Some (keyedChild "b")))
              (RefItem 1))]
    ∧ flushAll (array st2 1%nat) st2 = Some st2'
    ∧ kids st2' 0%nat = [1%nat; 2%nat]
    ∧ made st2' = []
    ∧ pool st2' 0%nat !! Some "b" = Some (Some 2%nat).
Proof.
  intros ab a_ st0. eexists _, _, _, _.
  split; [vm_compute; reflexivity|].
  split; [vm_compute; reflexivity|].
  split; [vm_compute; reflexivity|].
  split; [vm_compute; reflexivity|].
  split; [vm_compute; reflexivity|].
  split; [vm_compute; reflexivity|].
  split; [vm_compute; reflexivity|].
  split; [vm_compute; reflexivity|].
  split; [vm_compute; reflexivity|].
  split; vm_compute; reflexivity.
Qed.

(** ** What a call leaves untouched *)

Section Frame.

Variable el : DOMNode.
Variable newVNode : VElement.
Variable oldVNode : option VElement.
Variable commit : Commit.
Variable a : loc.
Variable driver : option Driver.
Variable st0 : Store.

Hypothesis commit_schedules : schedulesOnly commit.
Hypothesis driver_threads : ∀ d, driver = Some d → threads d.

Local Abbreviation Kept :=
  (keepsHost el a (∀ d, driver = Some d → leavesPools d) st0).

Let KeptFrame (fr : Frame) : Prop := effectsVar fr = a ∧ Kept (store fr).

Lemma keepsHost_refl : Kept st0.
Proof. by split. Qed.

Lemma keepsHost_effect ty fl st : Kept st → Kept (effect el a ty fl st).
Proof.
  intros (Ha & Hc & Hp). split; [|done].
  etrans; [exact Ha|]. apply array_effect_prefix.
Qed.

Lemma keepsHost_createElement v st node st' :
  createElement v st = Some (node, st') → Kept st → Kept st'.
Proof. unfold createElement. by intros [= _ <-]. Qed.

Lemma keepsHost_run old new st bs :
  KeyedRun el a old new st0 st bs → Kept st.
Proof.
  intros []. split; [|done]. rewrite kr_array0. by apply prefix_app_r.
Qed.

Lemma keepsHost_diff child n o fr a' st' :
  diff commit driver child n o fr = Some (a', st') →
  KeptFrame fr → KeptFrame (mkFrame a' st').
Proof.
  unfold diff. destruct driver as [d|] eqn:Hd; simpl; [|done].
  intros Hrun (Ha & Hpre & Hc & Hp).
  destruct (driver_threads d eq_refl _ _ _ _ _ _ _ _ Hrun)
    as (-> & Hpre' & Hc').
  split; [done|]. simpl. split; [|split].
  - etrans; [exact Hpre|]. by rewrite <- Ha.
  - congruence.
  - intros Hleft el' Hel'.
    rewrite (Hleft d eq_refl _ _ _ _ _ _ _ _ Hrun). by apply Hp.
Qed.

Lemma keepsHost_onStore f fr :
  (∀ st, Kept st → Kept (f st)) → KeptFrame fr → KeptFrame (onStore f fr).
Proof. intros Hf [Ha Hk]. split; [done|]. by apply Hf. Qed.

Lemma keepsHost_deltaStep d fr fr' :
  deltaStep el newVNode oldVNode commit a driver d fr = Some fr' →
  KeptFrame fr → KeptFrame fr'.
Proof.
  destruct d as [ty pos]. unfold deltaStep. intros Hstep Hfr.
  destruct ty; simpl in Hstep.
  - simplify_eq. apply keepsHost_onStore; [|done].
    intros st. apply keepsHost_effect.
  - destruct (commit _ _ fr) as [fr1|] eqn:Hc; simpl in Hstep; [|done].
    simplify_eq. eapply commit_schedules; [|exact Hc|done].
    intros f f' Hwork Hf. cbv beta in Hwork.
    destruct (newVNodeChildren newVNode) as [cs|]; simpl in Hwork; [|done].
    destruct (diff commit driver _ _ _ f) as [[a' st']|] eqn:Hdiff;
      simpl in Hwork; [|done].
    simplify_eq. by eapply keepsHost_diff.
  - simplify_eq. apply keepsHost_onStore; [|done].
    intros st. apply keepsHost_effect.
Qed.

Lemma keepsHost_generic new fr fr' :
  genericPath el newVNode oldVNode commit a driver new fr = Some fr' →
  KeptFrame fr → KeptFrame fr'.
Proof.
  rewrite genericPath_spec. unfold spec_genericPath.
  destruct (forEach (reverse _) _ fr) as [fr1|] eqn:Hdiffs; simpl; [|done].
  intros Hextra Hfr.
  assert (KeptFrame fr1) as Hfr1.
  { eapply (forEach_inv KeptFrame); [|exact Hdiffs|done].
    intros i f f' _ Hstep Hf. unfold diffAt in Hstep.
    eapply commit_schedules; [|exact Hstep|done].
    intros g g' Hwork Hg. cbv beta in Hwork.
    destruct (diff commit driver _ _ _ g) as [[a' st']|] eqn:Hdiff;
      simpl in Hwork; [|done].
    simplify_eq. by eapply keepsHost_diff. }
  case_bool_decide.
  - eapply (forEach_inv KeptFrame); [|exact Hextra|done].
    intros i f f' _ Hstep Hf. unfold appendCreated in Hstep.
    destruct (createElement _ _) as [[node st]|] eqn:Hc; simpl in Hstep;
      [|done].
    injection Hstep as <-. destruct Hf as [Ha Hk]. split; [done|]. simpl.
    apply keepsHost_effect. by eapply keepsHost_createElement.
  - eapply (forEach_inv KeptFrame); [|exact Hextra|done].
    intros i f f' _ Hstep Hf. unfold removeAt in Hstep. simplify_eq.
    apply keepsHost_onStore; [|done]. intros st. apply keepsHost_effect.
Qed.

End Frame.

Lemma defaultCommit_schedulesOnly : schedulesOnly defaultCommit.
Proof. intros P work ctx fr fr' Hwork Hrun. by apply Hwork. Qed.

Lemma useChildren_runPath
    drivers el newVNode oldVNode commit effects driver st :
  useChildren drivers el newVNode oldVNode commit effects driver st
  = runPath drivers el newVNode oldVNode commit effects driver
      (spec_selectPath newVNode oldVNode) st.
Proof.
  unfold useChildren, spec_selectPath, runPath, noChildrenApplies,
    appendOnlyApplies, textApplies, newVNodeChildren, oldVNodeChildren,
    oldChildrenValue.
  destruct (delta newVNode) as [ds|]; [done|].
  destruct (children newVNode) as [[new|[|ch s]]|]; [|done| |done];
    (destruct (flag newVNode); simpl;
     destruct (oldVNode ≫= children) as [[[|o os]|[|ch' s']]|]; simpl; done).
Qed.

Lemma useChildren_returns el newVNode oldVNode commit a driver st data st' :
  useChildren [] el newVNode oldVNode commit a driver st = Some (data, st') →
  ∃ fr,
    data = getData newVNode oldVNode commit driver (Some el) fr
    ∧ st' = store fr
    ∧ (schedulesOnly commit → (∀ d, driver = Some d → threads d) →
       effectsVar fr = a
       ∧ keepsHost el a (∀ d, driver = Some d → leavesPools d) st
           (store fr)).
Proof.
  rewrite useChildren_runPath. unfold runPath, finish.
  cbn [forEach mbind option_bind].
  set (Kept := keepsHost el a (∀ d, driver = Some d → leavesPools d) st).
  intros Hrun.
  assert (∀ fr, effectsVar fr = a ∧ Kept (store fr) →
    effectsVar (onStore (noChildrenPath el oldVNode a) fr) = a
    ∧ Kept (store (onStore (noChildrenPath el oldVNode a) fr)))
    as Hno.
  { intros fr [Ha Hk]. split; [done|]. simpl. unfold noChildrenPath.
    destruct (negb _); [done|]. by apply keepsHost_effect. }
  destruct (spec_selectPath newVNode oldVNode) as [ds| |new| |new|new].
  - destruct (deltaPath _ _ _ _ _ _ ds _) as [fr|] eqn:Hds;
      simpl in Hrun; [|done].
    simplify_eq. exists fr. split; [done|]. split; [done|]. intros Hc Hd.
    eapply (forEach_inv (λ fr, effectsVar fr = a ∧ Kept (store fr)));
      [|exact Hds|by split; [|apply keepsHost_refl]].
    intros d f f' _ Hstep Hf. by eapply keepsHost_deltaStep.
  - simplify_eq. eexists. split; [done|]. split; [done|]. intros _ _.
    apply Hno. by split; [|apply keepsHost_refl].
  - destruct (appendPath el a new st) as [st1|] eqn:Happ; simpl in Hrun;
      [|done].
    simplify_eq. eexists. split; [done|]. split; [done|]. intros _ _.
    split; [done|]. simpl. unfold appendPath in Happ.
    rewrite forUp_forEach in Happ.
    eapply (forEach_inv Kept); [|exact Happ|apply keepsHost_refl].
    intros i s s' _ [= <-]. apply keepsHost_effect.
  - simplify_eq. eexists. split; [done|]. split; [done|]. intros _ _.
    split; [done|]. simpl. unfold textPath. case_decide.
    + apply keepsHost_effect, keepsHost_refl.
    + apply keepsHost_refl.
  - destruct (keyedPath_run el oldVNode a new st) as (st1 & bs & Hk & Hr & _).
    rewrite Hk in Hrun. simpl in Hrun. simplify_eq.
    eexists. split; [done|]. split; [done|]. intros _ _.
    split; [done|]. simpl. by eapply keepsHost_run.
  - destruct (genericPath _ _ _ _ _ _ new _) as [fr|] eqn:Hgen;
      simpl in Hrun; [|done].
    simplify_eq. exists fr. split; [done|]. split; [done|]. intros Hc Hd.
    eapply keepsHost_generic; [done|done|exact Hgen|].
    by split; [|apply keepsHost_refl].
Qed.

(** *** The value of [effects] when the record is built *)

Section EffectsVariable.

Variable el : DOMNode.
Variable newVNode : VElement.
Variable oldVNode : option VElement.
Variable a : loc.

(** An entry that does not recurse leaves the variable alone. *)
Lemma deltaStep_effectsVar commit driver d fr fr' :
  d.1 ≠ DeltaTypes.UPDATE →
  deltaStep el newVNode oldVNode commit a driver d fr = Some fr' →
  effectsVar fr' = effectsVar fr.
Proof.
  destruct d as [[] pos]; simpl; [|done|]; by intros _ [= <-].
Qed.

Lemma deltaPath_effectsVar commit driver ds :
  lastUpdate ds = None →
  ∀ fr fr',
    deltaPath el newVNode oldVNode commit a driver ds fr = Some fr' →
    effectsVar fr' = effectsVar fr.
Proof.
  unfold deltaPath.
  induction ds as [|d ds IH]; intros Hlast fr fr' Hrun.
  { by injection Hrun as <-. }
  cbn [lastUpdate] in Hlast. cbn [forEach] in Hrun.
  destruct (lastUpdate ds) as [pos|]; [done|].
  destruct (deltaStep _ _ _ _ _ _ d fr) as [fr1|] eqn:Hstep; [|done].
  cbn [mbind option_bind] in Hrun.
  rewrite (IH eq_refl _ _ Hrun).
  eapply deltaStep_effectsVar; [|exact Hstep].
  by destruct d as [[] pos].
Qed.

(** After the last UPDATE entry the variable holds what the driver
    returned for it. *)
Lemma deltaPath_lastUpdate d ds pos :
  lastUpdate ds = Some pos →
  ∀ fr fr',
    deltaPath el newVNode oldVNode defaultCommit a (Some d) ds fr
    = Some fr' →
    ∃ child a0 s0 s1,
      d child (children newVNode ≫= (λ cs, elements cs !! pos))
        (oldVNodeChildren oldVNode !! pos) defaultCommit a0 s0
      = Some (effectsVar fr', s1).
Proof.
  induction ds as [|e ds IH]; intros Hlast fr fr' Hrun; [done|].
  cbn [lastUpdate] in Hlast. unfold deltaPath in Hrun.
  cbn [forEach] in Hrun.
  destruct (deltaStep _ _ _ _ _ _ e fr) as [fr1|] eqn:Hstep; [|done].
  cbn [mbind option_bind] in Hrun.
  destruct (lastUpdate ds) as [pos'|] eqn:Hrest.
  { injection Hlast as ->. by eapply IH. }
  rewrite (deltaPath_effectsVar _ _ _ Hrest _ _ Hrun).
  destruct e as [[] pos']; [done| |done]. injection Hlast as ->.
  rewrite deltaStep_at in Hstep.
  rewrite (spec_deltaStepAt_update _ _ _ _ _ _ _ _ d eq_refl) in Hstep.
  destruct (children newVNode) as [cs|]; simpl in Hstep; [|done].
  destruct (d _ _ _ _ _ _) as [[a1 s1]|] eqn:Hd; simpl in Hstep; [|done].
  injection Hstep as <-. simpl. eauto.
Qed.

Lemma appendCreated_effectsVar new i fr fr' :
  appendCreated el a new i fr = Some fr' → effectsVar fr' = effectsVar fr.
Proof. unfold appendCreated. simpl. by intros [= <-]. Qed.

Lemma removeAt_effectsVar i fr fr' :
  removeAt el a i fr = Some fr' → effectsVar fr' = effectsVar fr.
Proof. by intros [= <-]. Qed.

(** Past the common indices the generic path leaves the variable alone. *)
Lemma genericPath_tail commit driver new fr :
  genericPath el newVNode oldVNode commit a driver new fr
  = (fr1 ← forEach
             (reverse
                (seqZ 0 (Z.of_nat (length (oldVNodeChildren oldVNode))
                         `min` Z.of_nat (length new))))
             (diffAt el newVNode oldVNode commit driver new) fr;
     forEach
       (if bool_decide (Z.of_nat (length (oldVNodeChildren oldVNode))
                        < Z.of_nat (length new))
        then seqZ (Z.of_nat (length (oldVNodeChildren oldVNode))
                   `min` Z.of_nat (length new))
               (Z.of_nat (length new)
                - Z.of_nat (length (oldVNodeChildren oldVNode))
                  `min` Z.of_nat (length new))
        else reverse
               (seqZ (Z.of_nat (length (oldVNodeChildren oldVNode))
                      `min` Z.of_nat (length new))
                  (Z.of_nat (length (oldVNodeChildren oldVNode))
                   - Z.of_nat (length (oldVNodeChildren oldVNode))
                     `min` Z.of_nat (length new))))
       (λ i fr,
          if bool_decide (Z.of_nat (length (oldVNodeChildren oldVNode))
                          < Z.of_nat (length new))
          then appendCreated el a new i fr else removeAt el a i fr) fr1).
Proof.
  rewrite genericPath_spec. unfold spec_genericPath.
  destruct (forEach (reverse _) _ fr) as [fr1|]; [|done].
  cbn [mbind option_bind]. by case_bool_decide.
Qed.

Lemma genericPath_split commit driver new fr fr' :
  genericPath el newVNode oldVNode commit a driver new fr = Some fr' →
  ∃ fr1,
    forEach
      (reverse
         (seqZ 0 (Z.of_nat (length (oldVNodeChildren oldVNode))
                  `min` Z.of_nat (length new))))
      (diffAt el newVNode oldVNode commit driver new) fr = Some fr1
    ∧ effectsVar fr' = effectsVar fr1.
Proof.
  rewrite genericPath_tail.
  destruct (forEach (reverse _) _ fr) as [fr1|]; [|done].
  cbn [mbind option_bind]. intros Htail. exists fr1. split; [done|].
  eapply (forEach_inv (λ f, effectsVar f = effectsVar fr1));
    [|exact Htail|done].
  intros i f f' _ Hstep <-. case_bool_decide.
  - by eapply appendCreated_effectsVar.
  - by eapply removeAt_effectsVar.
Qed.

Lemma genericPath_effectsVar commit driver new fr fr' :
  new = [] ∨ oldVNodeChildren oldVNode = [] →
  genericPath el newVNode oldVNode commit a driver new fr = Some fr' →
  effectsVar fr' = effectsVar fr.
Proof.
  intros Hempty (fr1 & Hdiffs & ->)%genericPath_split.
  replace (Z.of_nat (length (oldVNodeChildren oldVNode))
           `min` Z.of_nat (length new)) with 0 in Hdiffs.
  - by injection Hdiffs as <-.
  - destruct Hempty as [-> | ->]; simpl; lia.
Qed.

(** After the loop over the common indices the variable holds what the
    driver returned at index 0. *)
Lemma genericPath_lastDiff d n new o olds fr fr' :
  oldVNodeChildren oldVNode = o :: olds →
  genericPath el newVNode oldVNode defaultCommit a (Some d) (n :: new) fr
  = Some fr' →
  ∃ child a0 s0 s1,
    d child (Some n) (Some o) defaultCommit a0 s0
    = Some (effectsVar fr', s1).
Proof.
  intros Hold (fr1 & Hdiffs & ->)%genericPath_split.
  rewrite Hold in Hdiffs. cbn [length] in Hdiffs.
  rewrite seqZ_cons, reverse_cons, forEach_app in Hdiffs by lia.
  destruct (forEach (reverse _) _ fr) as [fr0|]; [|done].
  cbn [mbind option_bind forEach] in Hdiffs.
  unfold diffAt, defaultCommit, diff in Hdiffs. rewrite Hold in Hdiffs.
  simpl in Hdiffs.
  destruct (d _ _ _ _ _ _) as [[a1 s1]|] eqn:Hd; simpl in Hdiffs; [|done].
  injection Hdiffs as <-. simpl. eauto.
Qed.

End EffectsVariable.


Lemma sameArrayDriver_threads : threads sameArrayDriver.
Proof. intros child n o c a st a' st' [= <- <-]. done. Qed.

Lemma sameArrayDriver_leavesPools : leavesPools sameArrayDriver.
Proof. intros child n o c a st a' st' [= <- <-]. done. Qed.



(** Where the keyed reconciler is not reached the pool is not read: with
    an empty old list the append-only fast path runs, also under the
    KEYED_CHILDREN flag, and queues [createElement] for a key whose node
    sits in the pool. *)
Example append_path_skips_pool :
  let st0 :=
    mkStore ∅ {[ 0%nat := [] ]} {[ 0%nat := {[ Some "b" := Some 2%nat ]} ]}
      [] 10%nat [] in
  ∃ data st',
    useChildren [] 0%nat
      (mkVElement Flags.ELEMENT_KEYED_CHILDREN None
         (Some (ChildArray [keyedChild "b"])) None)
      (Some (mkVElement Flags.ELEMENT_KEYED_CHILDREN None (Some (ChildArray [])) None))
      defaultCommit 0%nat None st0 = Some (data, st')
    ∧ array st' 0%nat
      = [mkEffect 0%nat EffectTypes.CREATE
           (AppendChild (CreateElement (Some (keyedChild "b"))))].
Proof.
  intros st0. eexists _, _. split; [reflexivity|]. vm_compute. reflexivity.
Qed.

(** * Further properties of the reconciliation paths *)

(** Closed side conditions of the examples: a decidable proposition by
    evaluation, and [kidsBelowNext] on a concrete store. *)
Ltac by_computation := apply (bool_decide_unpack _); vm_compute; exact I.

Ltac below_next :=
  lazymatch goal with
  | |- kidsBelowNext ?el ?st =>
      refine (proj1 (Forall_forall (λ node, (node < nextNode st)%nat)
                       (kids st el)) _);
      vm_compute; repeat (constructor; [lia|]); constructor
  end.

(** ** Queuing several effects *)

Lemma queueAll_app a es1 es2 st :
  queueAll a (es1 ++ es2) st = queueAll a es2 (queueAll a es1 st).
Proof. apply foldl_app. Qed.

Lemma queueAll_snoc a es e st :
  queueAll a (es ++ [e]) st
  = effect (eff_el e) a (eff_type e) (eff_flush e) (queueAll a es st).
Proof. by rewrite queueAll_app. Qed.

Lemma array_queueAll a es st :
  array (queueAll a es st) a = array st a ++ es.
Proof.
  revert st. induction es as [|e es IH]; intros st; simpl.
  { by rewrite app_nil_r. }
  rewrite IH, array_effect. destruct e. by rewrite <- app_assoc.
Qed.

Lemma queueAll_frame a es st :
  childNodes (queueAll a es st) = childNodes st
  ∧ pools (queueAll a es st) = pools st
  ∧ made (queueAll a es st) = made st
  ∧ nextNode (queueAll a es st) = nextNode st
  ∧ ∀ b, b ≠ a → arrays (queueAll a es st) !! b = arrays st !! b.
Proof.
  revert st. induction es as [|e es IH]; intros st; simpl; [done|].
  destruct (IH (effect (eff_el e) a (eff_type e) (eff_flush e) st))
    as (-> & -> & -> & -> & Harr).
  repeat (split; [done|]). intros b Hb. rewrite Harr by done.
  simpl. by rewrite lookup_insert_ne.
Qed.

(** ** The append-only fast path *)

Lemma drop_cons_inv {A} (l : list A) k x l2 :
  drop k l = x :: l2 → l !! k = Some x ∧ drop (S k) l = l2.
Proof.
  revert k. induction l as [|y l IH]; intros k; [by destruct k|].
  destruct k as [|k]; simpl.
  - intros [= -> ->]. split; [done|]. by rewrite drop_0.
  - apply IH.
Qed.

Lemma appendPath_from el a l :
  ∀ l2 k st,
    drop k l = l2 →
    forUp (length l2) (Z.of_nat k)
      (λ i st, Some (queueEffect el a EffectTypes.CREATE
                       (AppendChild (CreateElement (index l i))) st))
      st
    = Some (queueAll a (appendEffect el <$> l2) st).
Proof.
  induction l2 as [|v l2 IH]; intros k st Hdrop; [done|].
  apply drop_cons_inv in Hdrop as [Hv Hdrop].
  cbn [length forUp mbind option_bind].
  rewrite index_of_nat, Hv.
  replace (Z.of_nat k + 1) with (Z.of_nat (S k)) by lia.
  by rewrite (IH _ _ Hdrop).
Qed.

Lemma appendPath_queueAll el a new st :
  appendPath el a new st = Some (queueAll a (appendEffect el <$> new) st).
Proof. by apply (appendPath_from el a new new 0%nat). Qed.

Lemma useChildren_append el newVNode oldVNode commit a driver new st :
  delta newVNode = None →
  children newVNode = Some (ChildArray new) →
  flag newVNode ≠ Flags.ELEMENT_NO_CHILDREN →
  oldVNodeChildren oldVNode = [] →
  useChildren [] el newVNode oldVNode commit a driver st
  = Some (Data.mk (Some el) newVNode oldVNode a commit driver,
          queueAll a (appendEffect el <$> new) st).
Proof.
  intros Hd Hc Hf Ho.
  unfold useChildren, newVNodeChildren. rewrite Hd, Hc.
  cbn [truthy negb elements].
  rewrite decide_False by done. rewrite oldEmpty_test, Ho.
  rewrite bool_decide_eq_true_2 by done.
  rewrite appendPath_queueAll. reflexivity.
Qed.

(** X1: with no old children (and children given, no patch list, a flag
    other than NO_CHILDREN) the call needs neither [commit] nor the
    recursive driver: it queues one CREATE [appendChild(createElement(v))]
    per new child, in order, and touches neither child lists, pools nor
    the node factory while it queues. *)
Theorem X1_append_only el newVNode oldVNode commit a driver new st :
  delta newVNode = None →
  children newVNode = Some (ChildArray new) →
  flag newVNode ≠ Flags.ELEMENT_NO_CHILDREN →
  oldVNodeChildren oldVNode = [] →
  ∃ st',
    useChildren [] el newVNode oldVNode commit a driver st
    = Some (Data.mk (Some el) newVNode oldVNode a commit driver, st')
    ∧ array st' a = array st a ++ (appendEffect el <$> new)
    ∧ childNodes st' = childNodes st
    ∧ pools st' = pools st
    ∧ made st' = made st.
Proof.
  intros Hd Hc Hf Ho. eexists. split; [by apply useChildren_append|].
  split; [apply array_queueAll|].
  destruct (queueAll_frame a (appendEffect el <$> new) st)
    as (? & ? & ? & _). done.
Qed.

Lemma X1_append_only_witness :
  ∃ st',
    useChildren [] 0%nat (plainParent [VText "a"; keyedChild "b"] None) None
      defaultCommit 0%nat None sampleStore
    = Some (Data.mk (Some 0%nat)
              (plainParent [VText "a"; keyedChild "b"] None) None 0%nat
              defaultCommit None, st')
    ∧ array st' 0%nat
      = [appendEffect 0%nat (VText "a"); appendEffect 0%nat (keyedChild "b")].
Proof.
  destruct (X1_append_only 0%nat
              (plainParent [VText "a"; keyedChild "b"] None) None
              defaultCommit 0%nat None [VText "a"; keyedChild "b"]
              sampleStore) as (st' & Hrun & Harr & _);
    [reflexivity | reflexivity | discriminate | reflexivity |].
  exists st'. split; [exact Hrun | exact Harr].
Defined.

(** ** Host primitives on the child list of [el] *)

Lemma filter_all {A} (P : A → Prop) `{∀ x, Decision (P x)} (l : list A) :
  (∀ x, x ∈ l → P x) → filter P l = l.
Proof.
  induction l as [|x l IH]; intros Hall; [done|].
  rewrite filter_cons_True by (apply Hall; left).
  f_equal. apply IH. intros y Hy. apply Hall. by right.
Qed.

Lemma kids_detach el node st :
  default [] (detach node (childNodes st) !! el)
  = filter (λ c, c ≠ node) (kids st el).
Proof.
  unfold detach, kids. rewrite lookup_fmap.
  by destruct (childNodes st !! el).
Qed.

Lemma insertBefore_append el node st :
  node ∉ kids st el →
  ∃ st',
    insertBefore el (Some node) None st = Some st'
    ∧ kids st' el = kids st el ++ [node]
    ∧ made st' = made st ∧ nextNode st' = nextNode st
    ∧ pools st' = pools st ∧ arrays st' = arrays st.
Proof.
  intros Hnot. unfold insertBefore. eexists. split; [done|].
  split; [|done]. unfold kids at 1. simpl. rewrite lookup_insert_eq. simpl.
  rewrite kids_detach, filter_all; [done|].
  intros x Hx ->. done.
Qed.

Lemma removeChild_kids el c st :
  c ∈ kids st el →
  ∃ st',
    removeChild el (Some c) st = Some st'
    ∧ kids st' el = filter (λ x, x ≠ c) (kids st el)
    ∧ made st' = made st ∧ nextNode st' = nextNode st
    ∧ pools st' = pools st ∧ arrays st' = arrays st.
Proof.
  intros Hin. unfold removeChild. rewrite bool_decide_eq_true_2 by done.
  eexists. split; [done|]. split; [|done].
  unfold kids at 1. simpl. by rewrite lookup_insert_eq.
Qed.

(** ** Running the effects of the append-only path *)

Lemma createElement_Some v st :
  ∃ st1,
    createElement (Some v) st = Some (nextNode st, st1)
    ∧ childNodes st1 = childNodes st
    ∧ made st1 = made st ++ [Some v]
    ∧ nextNode st1 = S (nextNode st)
    ∧ pools st1 = pools st ∧ arrays st1 = arrays st.
Proof. eexists. split; [reflexivity|]. done. Qed.

Lemma flush_appendEffect el v st :
  kidsBelowNext el st →
  ∃ st',
    flush (appendEffect el v) st = Some st'
    ∧ kids st' el = kids st el ++ [nextNode st]
    ∧ made st' = made st ++ [Some v]
    ∧ nextNode st' = S (nextNode st)
    ∧ pools st' = pools st
    ∧ kidsBelowNext el st'.
Proof.
  intros Hbelow. unfold flush, appendEffect.
  cbn [eff_flush eff_el evalNode].
  destruct (createElement_Some v st)
    as (st1 & -> & Hc1 & Hm1 & Hn1 & Hp1 & _).
  cbn [mbind option_bind].
  assert (kids st1 el = kids st el) as Hk1 by (unfold kids; by rewrite Hc1).
  destruct (insertBefore_append el (nextNode st) st1)
    as (st' & -> & Hkids & Hmade & Hnext & Hpools & _).
  { rewrite Hk1. intros Hin%Hbelow. lia. }
  exists st'. split; [done|].
  rewrite Hkids, Hmade, Hnext, Hpools, Hk1, Hm1, Hn1, Hp1.
  repeat (split; [done|]).
  intros node. rewrite Hkids, Hnext, Hk1, Hn1.
  intros [Hin|Hin]%elem_of_app.
  - apply Hbelow in Hin. lia.
  - apply list_elem_of_singleton in Hin as ->. lia.
Qed.

Lemma flushAll_appendEffects el new :
  ∀ st,
    kidsBelowNext el st →
    ∃ st',
      flushAll (appendEffect el <$> new) st = Some st'
      ∧ kids st' el = kids st el ++ seq (nextNode st) (length new)
      ∧ made st' = made st ++ (Some <$> new)
      ∧ pools st' = pools st.
Proof.
  induction new as [|v new IH]; intros st Hbelow.
  { exists st. simpl. by rewrite !app_nil_r. }
  destruct (flush_appendEffect el v st Hbelow)
    as (st1 & Hflush & Hkids & Hmade & Hnext & Hpools & Hbelow1).
  destruct (IH st1 Hbelow1) as (st' & Hrest & Hkids' & Hmade' & Hpools').
  exists st'. rewrite fmap_cons. cbn [flushAll]. rewrite Hflush.
  cbn [mbind option_bind]. split; [done|].
  rewrite Hkids', Hmade', Hpools', Hkids, Hmade, Hnext, Hpools.
  rewrite <- !app_assoc. done.
Qed.

(** X2: running the effects of the append-only path appends one new host
    node per new child, in order, after the children [el] had; the
    factory has then been called on the new descriptions, in order, and
    the pools are as before. *)
Theorem X2_append_only_replay el newVNode oldVNode commit a driver new st :
  delta newVNode = None →
  children newVNode = Some (ChildArray new) →
  flag newVNode ≠ Flags.ELEMENT_NO_CHILDREN →
  oldVNodeChildren oldVNode = [] →
  array st a = [] →
  kidsBelowNext el st →
  ∃ data st1 st2,
    useChildren [] el newVNode oldVNode commit a driver st = Some (data, st1)
    ∧ flushAll (array st1 a) st1 = Some st2
    ∧ kids st2 el = kids st el ++ seq (nextNode st) (length new)
    ∧ made st2 = made st ++ (Some <$> new)
    ∧ pools st2 = pools st.
Proof.
  intros Hd Hc Hf Ho Harr Hbelow.
  pose proof (useChildren_append el newVNode oldVNode commit a driver new st
                Hd Hc Hf Ho) as Hrun.
  set (st1 := queueAll a (appendEffect el <$> new) st) in *.
  destruct (queueAll_frame a (appendEffect el <$> new) st)
    as (Hkids & Hpools & Hmade & Hnext & _).
  fold st1 in Hkids, Hpools, Hmade, Hnext.
  destruct (flushAll_appendEffects el new st1)
    as (st2 & Hflush & Hk2 & Hm2 & Hp2).
  { intros node. unfold kids. rewrite Hkids, Hnext. apply Hbelow. }
  eexists _, st1, st2. split; [exact Hrun|].
  unfold st1 at 1. rewrite array_queueAll, Harr. cbn [app].
  split; [exact Hflush|].
  rewrite Hk2, Hm2, Hp2, Hnext, Hmade, Hpools. unfold kids.
  by rewrite Hkids.
Qed.

Lemma X2_append_only_replay_witness :
  ∃ data st1 st2,
    useChildren [] 0%nat (plainParent [VText "a"; keyedChild "b"] None) None
      defaultCommit 0%nat None sampleStore = Some (data, st1)
    ∧ flushAll (array st1 0%nat) st1 = Some st2
    ∧ kids st2 0%nat = [1; 2; 3; 10; 11]%nat
    ∧ made st2 = [Some (VText "a"); Some (keyedChild "b")].
Proof.
  destruct (X2_append_only_replay 0%nat
              (plainParent [VText "a"; keyedChild "b"] None) None
              defaultCommit 0%nat None [VText "a"; keyedChild "b"]
              sampleStore) as (data & st1 & st2 & Hrun & Hflush & Hk & Hm & _);
    [reflexivity | reflexivity | discriminate | reflexivity | reflexivity
    | below_next |].
  exists data, st1, st2. repeat split; [exact Hrun|exact Hflush|exact Hk|exact Hm].
Defined.

(** ** The driver chain *)

Lemma useChildren_finish el newVNode oldVNode commit a driver st :
  ∃ r : option Frame,
    ∀ drivers,
      useChildren drivers el newVNode oldVNode commit a driver st
      = (fr ← r; finish drivers el newVNode oldVNode commit driver el fr).
Proof.
  assert (∀ drivers,
    useChildren drivers el newVNode oldVNode commit a driver st
    = runPath drivers el newVNode oldVNode commit a driver
        (spec_selectPath newVNode oldVNode) st) as Hpath
    by (intros; apply useChildren_runPath).
  destruct (spec_selectPath newVNode oldVNode) as [ds| |new| |new|new].
  - eexists. intros drivers. rewrite Hpath. reflexivity.
  - exists (Some (onStore (noChildrenPath el oldVNode a) (mkFrame a st))).
    intros drivers. by rewrite Hpath.
  - exists (mkFrame a <$> appendPath el a new st). intros drivers.
    rewrite Hpath. simpl. by destruct (appendPath el a new st).
  - exists (Some (onStore (textPath el newVNode oldVNode a) (mkFrame a st))).
    intros drivers. by rewrite Hpath.
  - exists (mkFrame a <$> keyedPath el oldVNode a new st). intros drivers.
    rewrite Hpath. simpl. by destruct (keyedPath el oldVNode a new st).
  - eexists. intros drivers. rewrite Hpath. reflexivity.
Qed.

Lemma finish_default drivers el newVNode oldVNode driver fr :
  finish drivers el newVNode oldVNode defaultCommit driver el fr
  = (st' ← forEach drivers
             (λ d st, d el newVNode oldVNode defaultCommit (effectsVar fr)
                        driver st)
             (store fr);
     Some (getData newVNode oldVNode defaultCommit driver (Some el) fr, st')).
Proof.
  unfold finish.
  assert (∀ st,
    forEach drivers
      (λ d, defaultCommit
              (λ f, st0 ← d el newVNode oldVNode defaultCommit (effectsVar f)
                             driver (store f);
                    Some (mkFrame (effectsVar f) st0))
              (Data.context
                 (getData newVNode oldVNode defaultCommit driver (Some el) fr)))
      (mkFrame (effectsVar fr) st)
    = mkFrame (effectsVar fr)
        <$> forEach drivers
              (λ d st, d el newVNode oldVNode defaultCommit (effectsVar fr)
                         driver st) st) as Hloop.
  { unfold defaultCommit.
    induction drivers as [|d drivers IH]; intros st; [done|].
    cbn [forEach effectsVar store].
    destruct (d el newVNode oldVNode _ (effectsVar fr) driver st)
      as [st1|]; cbn [mbind option_bind]; [|done].
    apply IH. }
  destruct fr as [a st]. cbn [effectsVar store] in *. rewrite Hloop.
  by destruct (forEach drivers _ st).
Qed.

(** X3: [finish] under the default [commit]: the call with the chain
    [drivers] is the call without a chain, followed by every chained
    driver in order on the same [el], [newVNode], [oldVNode] and on the
    effects array of the returned record; their results are dropped, the
    record stays, and a fault of a chained driver is a fault of the
    call. *)
Theorem X3_driver_chain drivers el newVNode oldVNode a driver st :
  useChildren drivers el newVNode oldVNode defaultCommit a driver st
  = ('(data, st1) ← useChildren [] el newVNode oldVNode defaultCommit a
                      driver st;
     st' ← forEach drivers
             (λ d st, d el newVNode oldVNode defaultCommit (Data.effects data)
                        driver st)
             st1;
     Some (data, st')).
Proof.
  destruct (useChildren_finish el newVNode oldVNode defaultCommit a driver st)
    as [r Hr].
  rewrite (Hr drivers), (Hr []).
  destruct r as [fr|]; [|done]. cbn [mbind option_bind].
  rewrite finish_default. unfold finish. cbn [forEach mbind option_bind].
  reflexivity.
Qed.

(** ** Recursion needs a driver *)

Lemma forEach_fault {A S} (body : A → S → option S) l x :
  x ∈ l → (∀ s, body x s = None) → ∀ s, forEach l body s = None.
Proof.
  intros Hin Hx. induction l as [|y l IH]; intros s.
  { by apply elem_of_nil in Hin. }
  cbn [forEach]. apply elem_of_cons in Hin as [<-|Hin].
  - by rewrite Hx.
  - destruct (body y s); [|done]. cbn [mbind option_bind]. by apply IH.
Qed.

(** X4: [driver!] at line 54: a patch list with an UPDATE entry faults
    under the default [commit] when no recursive driver is passed. *)
Theorem X4_update_needs_driver
    drivers el newVNode oldVNode a ds pos st :
  delta newVNode = Some ds →
  (DeltaTypes.UPDATE, pos) ∈ ds →
  useChildren drivers el newVNode oldVNode defaultCommit a None st = None.
Proof.
  intros Hds Hin. unfold useChildren. rewrite Hds.
  unfold deltaPath. rewrite (forEach_fault _ _ _ Hin); [done|].
  intros fr. unfold deltaStep, defaultCommit, diff. simpl.
  by destruct (newVNodeChildren newVNode).
Qed.

Lemma X4_update_needs_driver_witness :
  useChildren [] 0%nat
    (plainParent [VText "a"; VText "b"]
       (Some [(DeltaTypes.CREATE, 0%nat); (DeltaTypes.UPDATE, 1%nat)]))
    None defaultCommit 0%nat None sampleStore = None.
Proof.
  apply (X4_update_needs_driver [] 0%nat _ None 0%nat
           [(DeltaTypes.CREATE, 0%nat); (DeltaTypes.UPDATE, 1%nat)] 1%nat
           sampleStore); [reflexivity | right; left].
Defined.

(** X5: on the generic path with children on both sides, the call faults
    under the default [commit] when no recursive driver is passed. *)
Theorem X5_generic_needs_driver
    drivers el newVNode oldVNode a new st :
  delta newVNode = None →
  flag newVNode ≠ Flags.ELEMENT_NO_CHILDREN →
  flag newVNode ≠ Flags.ELEMENT_KEYED_CHILDREN →
  flag newVNode ≠ Flags.ELEMENT_TEXT_CHILDREN →
  children newVNode = Some (ChildArray new) →
  new ≠ [] →
  oldVNodeChildren oldVNode ≠ [] →
  useChildren drivers el newVNode oldVNode defaultCommit a None st = None.
Proof.
  intros Hd Hf1 Hf2 Hf3 Hc Hnew Hold. unfold useChildren, newVNodeChildren.
  rewrite Hd, Hc. cbn [truthy negb elements].
  rewrite !decide_False by done. rewrite oldEmpty_test.
  rewrite bool_decide_eq_false_2 by (by destruct (oldVNodeChildren oldVNode)).
  unfold genericPath. rewrite truthy_old by done.
  assert (0 < length new)%nat by (destruct new; [done|simpl; lia]).
  assert (0 < length (oldVNodeChildren oldVNode))%nat
    by (destruct (oldVNodeChildren oldVNode); [done|simpl; lia]).
  cbv zeta.
  destruct (Z.to_nat (_ `min` _)) as [|n] eqn:Hn; [lia|].
  cbn [forDown]. unfold diffAt at 1, defaultCommit at 1, diff. simpl. done.
Qed.

Lemma X5_generic_needs_driver_witness :
  useChildren [] 0%nat (plainParent [VText "a"] None)
    (Some (plainParent [VText "b"] None)) defaultCommit 0%nat None sampleStore
  = None.
Proof.
  apply (X5_generic_needs_driver [] 0%nat (plainParent [VText "a"] None)
           (Some (plainParent [VText "b"] None)) 0%nat [VText "a"]
           sampleStore);
    [reflexivity | discriminate | discriminate | discriminate | reflexivity
    | discriminate | discriminate].
Defined.

(** ** The trim loop on runs of matching keys *)

Section TrimRuns.
Variable el : DOMNode.
Variable oldVNode : option VElement.
Variable a : loc.
Variable new : list VNode.

Let old := oldVNodeChildren oldVNode.

Local Abbreviation sameKeyAt := (sameKeyAt old new).
Local Abbreviation otherKeyAt := (otherKeyAt old new).

Lemma trim_done c st :
  inRange c = false → trim el oldVNode a new c st = Some (c, st).
Proof. intros H. by rewrite trim_unfold, H. Qed.

(** [n] matching pairs at the tails are skipped without an effect. *)
Lemma trim_suffix_run (n : nat) :
  ∀ c st,
    (∀ j : nat, (j < n)%nat →
       sameKeyAt (oldTail c - Z.of_nat j) (newTail c - Z.of_nat j)) →
    Z.of_nat n ≤ oldTail c - oldHead c + 1 →
    Z.of_nat n ≤ newTail c - newHead c + 1 →
    trim el oldVNode a new c st
    = trim el oldVNode a new
        (mkCursors (oldHead c) (newHead c) (oldTail c - Z.of_nat n)
           (newTail c - Z.of_nat n)) st.
Proof.
  induction n as [|n IH]; intros c st Hsame Ho Hn.
  { destruct c. simpl. by rewrite !Z.sub_0_r. }
  rewrite trim_unfold.
  assert (inRange c = true) as -> by (apply inRange_spec; lia).
  destruct (Hsame 0%nat) as (vo & vn & Hvo & Hvn & Hk); [lia|].
  rewrite !Z.sub_0_r in *.
  rewrite (trimStep_suffix el oldVNode a new c st vo vn Hvo Hvn Hk).
  cbn [mbind option_bind]. rewrite (IH (suffixCursors c)).
  - unfold suffixCursors. cbn [oldHead newHead oldTail newTail].
    do 2 f_equal; lia.
  - intros j Hj. unfold suffixCursors. cbn [oldTail newTail].
    replace (oldTail c - 1 - Z.of_nat j) with (oldTail c - Z.of_nat (S j))
      by lia.
    replace (newTail c - 1 - Z.of_nat j) with (newTail c - Z.of_nat (S j))
      by lia.
    apply Hsame. lia.
  - unfold suffixCursors. simpl. lia.
  - unfold suffixCursors. simpl. lia.
Qed.

(** With tails that do not match, [n] matching pairs at the heads are
    skipped without an effect. *)
Lemma trim_prefix_run (n : nat) :
  ∀ c st,
    ((0 < n)%nat → otherKeyAt (oldTail c) (newTail c)) →
    (∀ j : nat, (j < n)%nat →
       sameKeyAt (oldHead c + Z.of_nat j) (newHead c + Z.of_nat j)) →
    Z.of_nat n ≤ oldTail c - oldHead c + 1 →
    Z.of_nat n ≤ newTail c - newHead c + 1 →
    trim el oldVNode a new c st
    = trim el oldVNode a new
        (mkCursors (oldHead c + Z.of_nat n) (newHead c + Z.of_nat n)
           (oldTail c) (newTail c)) st.
Proof.
  induction n as [|n IH]; intros c st Hother Hsame Ho Hn.
  { destruct c. simpl. by rewrite !Z.add_0_r. }
  rewrite trim_unfold.
  assert (inRange c = true) as -> by (apply inRange_spec; lia).
  destruct Hother as (vOT & vNT & HOT & HNT & Hne); [lia|].
  destruct (Hsame 0%nat) as (vOH & vNH & HOH & HNH & Hk); [lia|].
  rewrite !Z.add_0_r in *.
  rewrite (trimStep_other el oldVNode a new c st _ _ _ _ HOT HNT HOH HNH Hne).
  rewrite decide_True by done.
  cbn [mbind option_bind]. rewrite (IH (prefixCursors c)).
  - unfold prefixCursors. cbn [oldHead newHead oldTail newTail].
    do 2 f_equal; lia.
  - intros _. unfold prefixCursors. cbn [oldTail newTail].
    by exists vOT, vNT.
  - intros j Hj. unfold prefixCursors. cbn [oldHead newHead].
    replace (oldHead c + 1 + Z.of_nat j) with (oldHead c + Z.of_nat (S j))
      by lia.
    replace (newHead c + 1 + Z.of_nat j) with (newHead c + Z.of_nat (S j))
      by lia.
    apply Hsame. lia.
  - unfold prefixCursors. simpl. lia.
  - unfold prefixCursors. simpl. lia.
Qed.

End TrimRuns.

(** ** Lists with the same keys *)

Lemma index_app_l {A} (l1 l2 : list A) (i : Z) :
  i < Z.of_nat (length l1) → index (l1 ++ l2) i = index l1 i.
Proof.
  intros Hi. unfold index. case_bool_decide; [|done].
  apply lookup_app_l. lia.
Qed.

Lemma index_app_r {A} (l1 l2 : list A) (i : Z) :
  Z.of_nat (length l1) ≤ i →
  index (l1 ++ l2) i = index l2 (i - Z.of_nat (length l1)).
Proof.
  intros Hi. unfold index. rewrite !bool_decide_eq_true_2 by lia.
  rewrite lookup_app_r by lia. f_equal. lia.
Qed.

Lemma same_keys_lookup (l1 l2 : list VNode) (i : Z) :
  key <$> l1 = key <$> l2 →
  0 ≤ i < Z.of_nat (length l1) →
  ∃ v1 v2, index l1 i = Some v1 ∧ index l2 i = Some v2 ∧ key v1 = key v2.
Proof.
  intros Hkeys Hi.
  assert (length l2 = length l1) as Hlen.
  { by rewrite <- (length_fmap key l2), <- Hkeys, length_fmap. }
  destruct (index_lookup l1 i) as (v1 & Hv1 & _); [lia|].
  destruct (index_lookup l2 i) as (v2 & Hv2 & _); [lia|].
  exists v1, v2. repeat (split; [done|]).
  unfold index in Hv1, Hv2. rewrite bool_decide_eq_true_2 in Hv1, Hv2 by lia.
  assert ((key <$> l1) !! Z.to_nat i = (key <$> l2) !! Z.to_nat i) as Hl
    by (by rewrite Hkeys).
  rewrite !list_lookup_fmap, Hv1, Hv2 in Hl. by injection Hl.
Qed.

Lemma same_keys_length (l1 l2 : list VNode) :
  key <$> l1 = key <$> l2 → length l1 = length l2.
Proof.
  intros H. by rewrite <- (length_fmap key l1), H, length_fmap.
Qed.

(** Two lists with the same keys are consumed by suffix matches alone. *)
Lemma keyedPath_same_keys el oldVNode a new st :
  key <$> oldVNodeChildren oldVNode = key <$> new →
  keyedPath el oldVNode a new st = Some (poolInit el st).
Proof.
  intros Hkeys. pose proof (same_keys_length _ _ Hkeys) as Hlen.
  unfold keyedPath. fold (trim el oldVNode a new).
  rewrite (trim_suffix_run el oldVNode a new (length new)).
  - cbn [oldHead newHead oldTail newTail]. rewrite trim_done.
    + cbn [mbind option_bind oldHead newHead oldTail newTail].
      rewrite bool_decide_eq_true_2 by lia.
      unfold span. by replace (Z.to_nat _) with 0%nat by lia.
    + unfold inRange. cbn [oldHead oldTail].
      rewrite bool_decide_eq_false_2 by lia. done.
  - intros j Hj. cbn [oldTail newTail]. rewrite Hlen.
    destruct (same_keys_lookup _ _ (Z.of_nat (length new) - 1 - Z.of_nat j)
                Hkeys) as (v1 & v2 & ? & ? & ?); [lia|].
    by exists v1, v2.
  - cbn [oldHead oldTail]. lia.
  - cbn [newHead newTail]. lia.
Qed.

(** ** Only removals, only insertions *)

Section KeyedLoops.
Variable el : DOMNode.
Variable oldVNode : option VElement.
Variable a : loc.

Let old := oldVNodeChildren oldVNode.

Lemma removeStep_eq i v st :
  index old i = Some v →
  removeStep el oldVNode a i st
  = Some (queueEffect el a EffectTypes.REMOVE
            (RemoveChild (RefCaptured (item st el i)))
            (poolSet el (key v) (item st el i) st)).
Proof. intros Hv. unfold removeStep. fold old. by rewrite Hv. Qed.

Lemma insertStep_eq new i v st :
  index new i = Some v →
  insertStep el a new i st
  = Some (queueEffect el a EffectTypes.CREATE
            (InsertBefore (CachedOrCreate (mjoin (pool st el !! key v))
                             (Some v)) (RefItem i))
            (poolGet el (key v) st).2).
Proof. intros Hv. unfold insertStep. by rewrite Hv. Qed.

(** [7] on the old children [m], which follow [p] in the old list. *)
Lemma removeLoop_run m :
  ∀ p s st,
    old = p ++ m ++ s →
    ∃ st',
      forUp (length m) (Z.of_nat (length p)) (removeStep el oldVNode a) st
      = Some st'
      ∧ array st' a
        = array st a
          ++ ((λ j, removeEffect el (kids st el !! j))
                <$> seq (length p) (length m))
      ∧ childNodes st' = childNodes st
      ∧ made st' = made st
      ∧ (∀ k, k ∉ key <$> m → pool st' el !! k = pool st el !! k)
      ∧ (NoDup (key <$> m) →
         ∀ (j : nat) v, m !! j = Some v →
           pool st' el !! key v = Some (kids st el !! (length p + j)%nat)).
Proof.
  induction m as [|v m IH]; intros p s st Hold.
  { exists st. simpl. rewrite app_nil_r.
    do 5 (split; [done|]). intros _ j v Hj. by rewrite lookup_nil in Hj. }
  cbn [length forUp].
  assert (index old (Z.of_nat (length p)) = Some v) as Hv.
  { rewrite index_of_nat, Hold, lookup_app_r, Nat.sub_diag by lia. done. }
  rewrite (removeStep_eq _ _ _ Hv). cbn [mbind option_bind].
  set (node := item st el (Z.of_nat (length p))).
  set (st1 := queueEffect el a _ _ _).
  assert (node = kids st el !! length p) as Hnode
    by (unfold node, item; by rewrite index_of_nat).
  assert (childNodes st1 = childNodes st) as Hc1 by done.
  assert (kids st1 el = kids st el) as Hk1 by done.
  assert (pool st1 el = <[key v := node]> (pool st el)) as Hp1.
  { unfold st1, queueEffect, pool at 1. simpl.
    by rewrite lookup_insert_eq. }
  destruct (IH (p ++ [v]) s st1) as (st' & Hrun & Harr & Hc & Hm & Hpo & Hpi).
  { rewrite Hold, <- app_assoc. done. }
  rewrite length_app in Hrun, Harr, Hpi. cbn [length] in Hrun, Harr, Hpi.
  replace (Z.of_nat (length p) + 1) with (Z.of_nat (length p + 1)) by lia.
  exists st'. split; [exact Hrun|]. split; [|split; [|split; [|split]]].
  - rewrite Harr, Hk1. unfold st1, queueEffect. rewrite array_effect.
    rewrite <- app_assoc. f_equal. cbn [seq]. rewrite fmap_cons.
    cbn [app]. unfold removeEffect at 2. rewrite <- Hnode.
    replace (length p + 1)%nat with (S (length p)) by lia. done.
  - by rewrite Hc.
  - by rewrite Hm.
  - intros k Hk. rewrite fmap_cons, not_elem_of_cons in Hk.
    destruct Hk as [Hk1' Hk2]. rewrite Hpo by done. rewrite Hp1.
    by rewrite lookup_insert_ne.
  - intros Hnd j v' Hj. rewrite fmap_cons in Hnd.
    apply NoDup_cons in Hnd as [Hnotin Hnd].
    destruct j as [|j]; simpl in Hj.
    + injection Hj as <-. rewrite Hpo by done. rewrite Hp1.
      rewrite lookup_insert_eq. by rewrite Nat.add_0_r, Hnode.
    + rewrite (Hpi Hnd j v' Hj). rewrite Hk1. do 2 f_equal. lia.
Qed.

(** [6] on the new children [m], which follow [p] in the new list. *)
Lemma insertLoop_run new m :
  ∀ p s st,
    new = p ++ m ++ s →
    ∃ st',
      forUp (length m) (Z.of_nat (length p)) (insertStep el a new) st
      = Some st'
      ∧ array st' a
        = array st a
          ++ imap (λ j v, insertEffect el (mjoin (pool st el !! key v)) v
                            (Z.of_nat (length p + j))) m
      ∧ childNodes st' = childNodes st
      ∧ made st' = made st
      ∧ pools st' = pools st.
Proof.
  induction m as [|v m IH]; intros p s st Hnew.
  { exists st. simpl. by rewrite app_nil_r. }
  cbn [length forUp].
  assert (index new (Z.of_nat (length p)) = Some v) as Hv.
  { rewrite index_of_nat, Hnew, lookup_app_r, Nat.sub_diag by lia. done. }
  rewrite (insertStep_eq _ _ _ _ Hv). cbn [mbind option_bind].
  set (st1 := queueEffect el a _ _ _).
  assert (pools st1 = pools st) as Hp1 by done.
  destruct (IH (p ++ [v]) s st1) as (st' & Hrun & Harr & Hc & Hm & Hpo).
  { rewrite Hnew, <- app_assoc. done. }
  rewrite length_app in Hrun, Harr. cbn [length] in Hrun, Harr.
  replace (Z.of_nat (length p) + 1) with (Z.of_nat (length p + 1)) by lia.
  exists st'. split; [exact Hrun|]. split; [|split; [|split]].
  - rewrite Harr.
    assert (array st1 a
            = array st a
              ++ [insertEffect el (mjoin (pool st el !! key v)) v
                    (Z.of_nat (length p))]) as ->
      by (unfold st1, queueEffect; by rewrite array_effect).
    rewrite <- app_assoc. f_equal. cbn [imap app]. f_equal.
    + by rewrite Nat.add_0_r.
    + apply imap_ext. intros j v' Hj. unfold compose.
      assert (pool st1 el = pool st el) as -> by done.
      unfold insertEffect. do 4 f_equal. lia.
  - by rewrite Hc.
  - by rewrite Hm.
  - by rewrite Hpo.
Qed.

End KeyedLoops.

Lemma NoDup_keys_index (l : list VNode) (i j : Z) v1 v2 :
  NoDup (key <$> l) →
  index l i = Some v1 → index l j = Some v2 → i ≠ j → key v1 ≠ key v2.
Proof.
  intros Hnd Hi Hj Hne Hk. unfold index in Hi, Hj.
  case_bool_decide; [|done]. case_bool_decide; [|done].
  apply Hne.
  assert (Z.to_nat i = Z.to_nat j); [|lia].
  eapply (NoDup_lookup (key <$> l)); [done| |].
  - rewrite list_lookup_fmap, Hi. done.
  - rewrite list_lookup_fmap, Hj. simpl. by rewrite Hk.
Qed.

Section KeyedShapes.
Variable el : DOMNode.
Variable oldVNode : option VElement.
Variable a : loc.
Variable new : list VNode.

Let old := oldVNodeChildren oldVNode.

(** A common prefix and a common suffix are trimmed: what is left of the
    old list is [m] and of the new list [m']. *)
Lemma trim_common p m s p' m' s' st :
  old = p ++ m ++ s → new = p' ++ m' ++ s' →
  key <$> p = key <$> p' → key <$> s = key <$> s' →
  (p ≠ [] →
   otherKeyAt old new (Z.of_nat (length p + length m) - 1)
     (Z.of_nat (length p + length m') - 1)) →
  trim el oldVNode a new
    (mkCursors 0 0 (Z.of_nat (length old) - 1) (Z.of_nat (length new) - 1))
    st
  = trim el oldVNode a new
      (mkCursors (Z.of_nat (length p)) (Z.of_nat (length p))
         (Z.of_nat (length p + length m) - 1)
         (Z.of_nat (length p + length m') - 1)) st.
Proof.
  intros Hold Hnew Hp Hs Hother.
  pose proof (same_keys_length _ _ Hp) as Hlp.
  pose proof (same_keys_length _ _ Hs) as Hls.
  assert (length old = (length p + length m + length s)%nat) as Hlo
    by (rewrite Hold, !length_app; lia).
  assert (length new = (length p + length m' + length s)%nat) as Hln
    by (rewrite Hnew, !length_app; lia).
  rewrite (trim_suffix_run el oldVNode a new (length s)).
  2:{ intros j Hj. cbn [oldTail newTail]. fold old.
      destruct (same_keys_lookup s s'
                  (Z.of_nat (length s) - 1 - Z.of_nat j) Hs)
        as (v1 & v2 & H1 & H2 & Hk); [lia|].
      exists v1, v2. split; [|split; [|done]].
      - rewrite Hlo, Hold, app_assoc, index_app_r
          by (rewrite length_app; lia).
        rewrite <- H1. f_equal. rewrite length_app. lia.
      - rewrite Hln, Hnew, app_assoc, index_app_r
          by (rewrite length_app; lia).
        rewrite <- H2. f_equal. rewrite length_app. lia. }
  2:{ cbn [oldHead oldTail]. fold old. lia. }
  2:{ cbn [newHead newTail]. lia. }
  cbn [oldHead newHead oldTail newTail]. fold old.
  rewrite (trim_prefix_run el oldVNode a new (length p)).
  - cbn [oldHead newHead oldTail newTail]. do 2 f_equal; lia.
  - intros Hp0. cbn [oldTail newTail].
    replace (Z.of_nat (length old) - 1 - Z.of_nat (length s))
      with (Z.of_nat (length p + length m) - 1) by lia.
    replace (Z.of_nat (length new) - 1 - Z.of_nat (length s))
      with (Z.of_nat (length p + length m') - 1) by lia.
    apply Hother. destruct p; [simpl in Hp0; lia|done].
  - intros j Hj. cbn [oldHead newHead].
    destruct (same_keys_lookup p p' (Z.of_nat j) Hp)
      as (v1 & v2 & H1 & H2 & Hk); [lia|].
    exists v1, v2. split; [|split; [|done]].
    + fold old. rewrite Hold, index_app_l by lia. by rewrite Z.add_0_l.
    + rewrite Hnew, index_app_l by lia. by rewrite Z.add_0_l.
  - cbn [oldHead oldTail]. lia.
  - cbn [newHead newTail]. lia.
Qed.

Lemma keyedPath_deletion p m s p' s' st :
  old = p ++ m ++ s → new = p' ++ s' →
  key <$> p = key <$> p' → key <$> s = key <$> s' →
  NoDup (key <$> old) → m ≠ [] →
  ∃ st',
    keyedPath el oldVNode a new st = Some st'
    ∧ array st' a
      = array st a
        ++ ((λ j, removeEffect el (kids st el !! j))
              <$> seq (length p) (length m))
    ∧ childNodes st' = childNodes st
    ∧ made st' = made st
    ∧ (∀ k, k ∉ key <$> m → pool st' el !! k = pool st el !! k)
    ∧ (∀ (j : nat) v, m !! j = Some v →
         pool st' el !! key v = Some (kids st el !! (length p + j)%nat)).
Proof.
  intros Hold Hnew Hp Hs Hnd Hm.
  pose proof (same_keys_length _ _ Hp) as Hlp.
  assert (0 < length m)%nat as Hm0 by (destruct m; [done|simpl; lia]).
  unfold keyedPath. fold old.
  rewrite (trim_common p m s p' [] s' (poolInit el st) Hold Hnew Hp Hs).
  2:{ intros Hp0.
      assert (0 < length p)%nat by (destruct p; [done|simpl; lia]).
      destruct (index_lookup old (Z.of_nat (length p + length m) - 1))
        as (vo & Hvo & _); [rewrite Hold, !length_app; lia|].
      destruct (same_keys_lookup p p' (Z.of_nat (length p) - 1) Hp)
        as (v1 & v2 & H1 & H2 & Hk); [lia|].
      exists vo, v2. split; [done|]. split.
      - rewrite Hnew, index_app_l by (simpl; lia).
        rewrite <- H2. f_equal. simpl. lia.
      - rewrite <- Hk.
        eapply (NoDup_keys_index old _ (Z.of_nat (length p) - 1));
          [done|exact Hvo| |lia].
        rewrite Hold, index_app_l by lia. exact H1. }
  rewrite trim_done.
  2:{ unfold inRange. cbn [oldHead oldTail newHead newTail].
      rewrite (bool_decide_eq_false_2 (_ ≤ Z.of_nat (length p + length []) - 1))
        by (simpl; lia).
      apply andb_false_r. }
  cbn [mbind option_bind oldHead oldTail newHead newTail].
  rewrite bool_decide_eq_false_2 by lia.
  rewrite bool_decide_eq_true_2 by (simpl; lia).
  unfold span.
  replace (Z.to_nat (Z.of_nat (length p + length m) - 1
                     - Z.of_nat (length p) + 1)) with (length m) by lia.
  destruct (removeLoop_run el oldVNode a m p s (poolInit el st) Hold)
    as (st' & Hrun & Harr & Hc & Hmade & Hpo & Hpi).
  exists st'. split; [exact Hrun|].
  assert (kids (poolInit el st) el = kids st el) as Hk
    by (unfold kids; by rewrite childNodes_poolInit).
  rewrite Hk in Harr, Hpi. rewrite pool_poolInit in Hpo.
  unfold array in Harr at 2. rewrite arrays_poolInit in Harr.
  split; [exact Harr|]. split; [by rewrite Hc, childNodes_poolInit|].
  split.
  { rewrite Hmade. unfold poolInit. by destruct (pools st !! el). }
  split; [exact Hpo|].
  apply Hpi. rewrite Hold, !fmap_app in Hnd.
  apply NoDup_app in Hnd as (_ & _ & Hnd).
  by apply NoDup_app in Hnd as (Hnd & _ & _).
Qed.

Lemma keyedPath_insertion p s p' m s' st :
  old = p ++ s → new = p' ++ m ++ s' →
  key <$> p = key <$> p' → key <$> s = key <$> s' →
  NoDup (key <$> new) → m ≠ [] →
  ∃ st',
    keyedPath el oldVNode a new st = Some st'
    ∧ array st' a
      = array st a
        ++ imap (λ j v, insertEffect el (mjoin (pool st el !! key v)) v
                          (Z.of_nat (length p + j))) m
    ∧ childNodes st' = childNodes st
    ∧ made st' = made st
    ∧ pool st' el = pool st el.
Proof.
  intros Hold Hnew Hp Hs Hnd Hm.
  pose proof (same_keys_length _ _ Hp) as Hlp.
  assert (0 < length m)%nat as Hm0 by (destruct m; [done|simpl; lia]).
  unfold keyedPath. fold old.
  rewrite (trim_common p [] s p' m s' (poolInit el st)); [|done..|].
  2:{ intros Hp0.
      assert (0 < length p)%nat by (destruct p; [done|simpl; lia]).
      destruct (index_lookup new (Z.of_nat (length p + length m) - 1))
        as (vn & Hvn & _); [rewrite Hnew, !length_app; lia|].
      destruct (same_keys_lookup p p' (Z.of_nat (length p) - 1) Hp)
        as (v1 & v2 & H1 & H2 & Hk); [lia|].
      exists v1, vn. split; [|split; [done|]].
      - fold old. rewrite Hold, index_app_l by (simpl; lia).
        rewrite <- H1. f_equal. simpl. lia.
      - rewrite Hk.
        eapply (NoDup_keys_index new (Z.of_nat (length p) - 1));
          [done| |exact Hvn|lia].
        rewrite Hnew, index_app_l by lia. exact H2. }
  rewrite trim_done.
  2:{ unfold inRange. cbn [oldHead oldTail newHead newTail].
      rewrite (bool_decide_eq_false_2 (_ ≤ Z.of_nat (length p + length []) - 1))
        by (simpl; lia).
      done. }
  cbn [mbind option_bind oldHead oldTail newHead newTail].
  rewrite bool_decide_eq_true_2 by (simpl; lia).
  unfold span.
  replace (Z.to_nat (Z.of_nat (length p + length m) - 1
                     - Z.of_nat (length p) + 1)) with (length m) by lia.
  rewrite Hlp in *.
  destruct (insertLoop_run el a new m p' s' (poolInit el st) Hnew)
    as (st' & Hrun & Harr & Hc & Hmade & Hpo).
  exists st'. split; [exact Hrun|].
  unfold array in Harr at 2. rewrite arrays_poolInit in Harr.
  split.
  { rewrite Harr. f_equal. apply imap_ext. intros j v Hj. simpl.
    by rewrite pool_poolInit. }
  split; [by rewrite Hc, childNodes_poolInit|].
  split.
  { rewrite Hmade. unfold poolInit. by destruct (pools st !! el). }
  unfold pool at 1. rewrite Hpo. apply pool_poolInit.
Qed.

End KeyedShapes.

(** ** Keyed shapes through [useChildren] *)

Lemma useChildren_keyed el newVNode oldVNode commit a driver new st :
  delta newVNode = None →
  flag newVNode = Flags.ELEMENT_KEYED_CHILDREN →
  children newVNode = Some (ChildArray new) →
  oldVNodeChildren oldVNode ≠ [] →
  useChildren [] el newVNode oldVNode commit a driver st
  = (st' ← keyedPath el oldVNode a new st;
     Some (Data.mk (Some el) newVNode oldVNode a commit driver, st')).
Proof.
  intros Hd Hf Hc Ho. unfold useChildren, newVNodeChildren.
  rewrite Hd, Hc, Hf. cbn [truthy negb elements].
  rewrite decide_False by done. rewrite oldEmpty_test.
  rewrite bool_decide_eq_false_2 by (by destruct (oldVNodeChildren oldVNode)).
  rewrite decide_True by done.
  by destruct (keyedPath el oldVNode a new st).
Qed.

(** X6: under KEYED_CHILDREN, an old and a new list with the same keys in
    the same order queue nothing: the effects arrays, the child lists,
    the factory history and the entries of the pool are as before. *)
Theorem X6_keyed_same_keys el newVNode oldVNode commit a driver new st :
  delta newVNode = None →
  flag newVNode = Flags.ELEMENT_KEYED_CHILDREN →
  children newVNode = Some (ChildArray new) →
  key <$> oldVNodeChildren oldVNode = key <$> new →
  ∃ st',
    useChildren [] el newVNode oldVNode commit a driver st
    = Some (Data.mk (Some el) newVNode oldVNode a commit driver, st')
    ∧ arrays st' = arrays st
    ∧ childNodes st' = childNodes st
    ∧ made st' = made st
    ∧ pool st' el = pool st el.
Proof.
  intros Hd Hf Hc Hkeys.
  destruct (oldVNodeChildren oldVNode) as [|o olds] eqn:Ho.
  - assert (new = []) as -> by (by destruct new).
    exists st. split; [|done].
    rewrite (useChildren_append _ _ _ _ _ _ []); [done..| |done].
    by rewrite Hf.
  - exists (poolInit el st). split.
    + rewrite (useChildren_keyed _ _ _ _ _ _ new) by (done || by rewrite Ho).
      rewrite keyedPath_same_keys by (by rewrite Ho). done.
    + rewrite arrays_poolInit, childNodes_poolInit, pool_poolInit.
      repeat (split; [done|]). unfold poolInit.
      by destruct (pools st !! el).
Qed.

Lemma X6_keyed_same_keys_witness :
  ∃ st',
    useChildren [] 0%nat (keyedParent [keyedChild "a"; keyedChild "b"])
      (Some (keyedParent [keyedChild "a"; keyedChild "b"]))
      defaultCommit 0%nat None sampleStore
    = Some (Data.mk (Some 0%nat)
              (keyedParent [keyedChild "a"; keyedChild "b"])
              (Some (keyedParent [keyedChild "a"; keyedChild "b"])) 0%nat
              defaultCommit None, st')
    ∧ arrays st' = arrays sampleStore.
Proof.
  destruct (X6_keyed_same_keys 0%nat
              (keyedParent [keyedChild "a"; keyedChild "b"])
              (Some (keyedParent [keyedChild "a"; keyedChild "b"]))
              defaultCommit 0%nat None [keyedChild "a"; keyedChild "b"]
              sampleStore) as (st' & Hrun & Harr & _);
    [reflexivity | reflexivity | reflexivity | reflexivity |].
  exists st'. split; [exact Hrun | exact Harr].
Defined.

(** X7: a block [m] of old children gone from between a common prefix and
    a common suffix: one REMOVE per child of the block and nothing else,
    in order, each on the host child at the index of the old child; that
    host child is put in the pool under the key of the old child, and no
    other key of the pool changes. *)
Theorem X7_keyed_deletion
    el newVNode oldVNode commit a driver new p m s p' s' st :
  delta newVNode = None →
  flag newVNode = Flags.ELEMENT_KEYED_CHILDREN →
  children newVNode = Some (ChildArray new) →
  oldVNodeChildren oldVNode = p ++ m ++ s →
  new = p' ++ s' →
  key <$> p = key <$> p' →
  key <$> s = key <$> s' →
  NoDup (key <$> p ++ m ++ s) →
  m ≠ [] →
  ∃ st',
    useChildren [] el newVNode oldVNode commit a driver st
    = Some (Data.mk (Some el) newVNode oldVNode a commit driver, st')
    ∧ array st' a
      = array st a
        ++ ((λ j, removeEffect el (kids st el !! j))
              <$> seq (length p) (length m))
    ∧ childNodes st' = childNodes st
    ∧ made st' = made st
    ∧ (∀ k, k ∉ key <$> m → pool st' el !! k = pool st el !! k)
    ∧ (∀ (j : nat) v, m !! j = Some v →
         pool st' el !! key v = Some (kids st el !! (length p + j)%nat)).
Proof.
  intros Hd Hf Hc Hold Hnew Hp Hs Hnd Hm.
  destruct (keyedPath_deletion el oldVNode a new p m s p' s' st)
    as (st' & Hrun & Hrest); try done.
  { by rewrite Hold. }
  exists st'. split; [|exact Hrest].
  rewrite (useChildren_keyed _ _ _ _ _ _ new); try done.
  - by rewrite Hrun.
  - rewrite Hold. destruct m; [done|]. by destruct p.
Qed.

Lemma X7_keyed_deletion_witness :
  ∃ st',
    useChildren [] 0%nat (keyedParent [keyedChild "a"; keyedChild "c"])
      (Some (keyedParent [keyedChild "a"; keyedChild "b"; keyedChild "c"]))
      defaultCommit 0%nat None sampleStore
    = Some (Data.mk (Some 0%nat)
              (keyedParent [keyedChild "a"; keyedChild "c"])
              (Some (keyedParent
                       [keyedChild "a"; keyedChild "b"; keyedChild "c"]))
              0%nat defaultCommit None, st')
    ∧ array st' 0%nat = [removeEffect 0%nat (Some 2%nat)]
    ∧ pool st' 0%nat !! Some "b" = Some (Some 2%nat).
Proof.
  destruct (X7_keyed_deletion 0%nat
              (keyedParent [keyedChild "a"; keyedChild "c"])
              (Some (keyedParent
                       [keyedChild "a"; keyedChild "b"; keyedChild "c"]))
              defaultCommit 0%nat None [keyedChild "a"; keyedChild "c"]
              [keyedChild "a"] [keyedChild "b"] [keyedChild "c"]
              [keyedChild "a"] [keyedChild "c"] sampleStore)
    as (st' & Hrun & Harr & _ & _ & _ & Hpool);
    [reflexivity | reflexivity | reflexivity | reflexivity | reflexivity
    | reflexivity | reflexivity | by_computation | discriminate |].
  exists st'. split; [exact Hrun|]. split; [exact Harr|].
  exact (Hpool 0%nat (keyedChild "b") eq_refl).
Defined.

(** X8: a block [m] of new children between a common prefix and a common
    suffix: one CREATE per child of the block and nothing else, in order,
    inserting before [item(head)] the node the pool has for the key, or
    else a new one; the pool is not written. *)
Theorem X8_keyed_insertion
    el newVNode oldVNode commit a driver new p s p' m s' st :
  delta newVNode = None →
  flag newVNode = Flags.ELEMENT_KEYED_CHILDREN →
  children newVNode = Some (ChildArray new) →
  oldVNodeChildren oldVNode = p ++ s →
  p ++ s ≠ [] →
  new = p' ++ m ++ s' →
  key <$> p = key <$> p' →
  key <$> s = key <$> s' →
  NoDup (key <$> new) →
  m ≠ [] →
  ∃ st',
    useChildren [] el newVNode oldVNode commit a driver st
    = Some (Data.mk (Some el) newVNode oldVNode a commit driver, st')
    ∧ array st' a
      = array st a
        ++ imap (λ j v, insertEffect el (mjoin (pool st el !! key v)) v
                          (Z.of_nat (length p + j))) m
    ∧ childNodes st' = childNodes st
    ∧ made st' = made st
    ∧ pool st' el = pool st el.
Proof.
  intros Hd Hf Hc Hold Hne Hnew Hp Hs Hnd Hm.
  destruct (keyedPath_insertion el oldVNode a new p s p' m s' st)
    as (st' & Hrun & Hrest); try done.
  exists st'. split; [|exact Hrest].
  rewrite (useChildren_keyed _ _ _ _ _ _ new); try done.
  - by rewrite Hrun.
  - by rewrite Hold.
Qed.

Lemma X8_keyed_insertion_witness :
  ∃ st',
    useChildren [] 0%nat
      (keyedParent [keyedChild "a"; keyedChild "b"; keyedChild "c"])
      (Some (keyedParent [keyedChild "a"; keyedChild "c"]))
      defaultCommit 0%nat None sampleStore
    = Some (Data.mk (Some 0%nat)
              (keyedParent [keyedChild "a"; keyedChild "b"; keyedChild "c"])
              (Some (keyedParent [keyedChild "a"; keyedChild "c"]))
              0%nat defaultCommit None, st')
    ∧ array st' 0%nat = [insertEffect 0%nat None (keyedChild "b") 1].
Proof.
  destruct (X8_keyed_insertion 0%nat
              (keyedParent [keyedChild "a"; keyedChild "b"; keyedChild "c"])
              (Some (keyedParent [keyedChild "a"; keyedChild "c"]))
              defaultCommit 0%nat None
              [keyedChild "a"; keyedChild "b"; keyedChild "c"]
              [keyedChild "a"] [keyedChild "c"]
              [keyedChild "a"] [keyedChild "b"] [keyedChild "c"] sampleStore)
    as (st' & Hrun & Harr & _);
    [reflexivity | reflexivity | reflexivity | reflexivity | discriminate
    | reflexivity | reflexivity | reflexivity | by_computation
    | discriminate |].
  exists st'. split; [exact Hrun | exact Harr].
Defined.

(** ** Running removals and insertions *)

Lemma filter_drop_one (kp rest : list DOMNode) (c : DOMNode) :
  NoDup (kp ++ c :: rest) →
  filter (λ x, x ≠ c) (kp ++ c :: rest) = kp ++ rest.
Proof.
  intros Hnd. apply NoDup_app in Hnd as (_ & Hkp & Hnd').
  apply NoDup_cons in Hnd' as [Hrest _].
  rewrite filter_app, filter_cons_False by (intros H; by apply H).
  rewrite !filter_all; [done| |].
  - intros x Hx ->. done.
  - intros x Hx ->. eapply Hkp; [done|left].
Qed.

Lemma flush_removeEffect el node st :
  flush (removeEffect el node) st = removeChild el node st.
Proof. reflexivity. Qed.

Lemma flushAll_removeEffects el km :
  ∀ kp ks st,
    kids st el = kp ++ km ++ ks →
    NoDup (kp ++ km ++ ks) →
    ∃ st',
      flushAll (removeEffect el <$> (Some <$> km)) st = Some st'
      ∧ kids st' el = kp ++ ks
      ∧ made st' = made st
      ∧ pools st' = pools st.
Proof.
  induction km as [|c km IH]; intros kp ks st Hkids Hnd.
  { exists st. done. }
  destruct (removeChild_kids el c st)
    as (st1 & Hrm & Hk1 & Hm1 & _ & Hp1 & _).
  { rewrite Hkids. apply elem_of_app. right. left. }
  destruct (IH kp ks st1) as (st' & Hrun & Hk' & Hm' & Hp').
  { rewrite Hk1, Hkids. by apply (filter_drop_one kp (km ++ ks) c). }
  { apply NoDup_app in Hnd as (Hkp & Hdisj & Hnd').
    apply NoDup_cons in Hnd' as [_ Hnd'].
    apply NoDup_app. split; [done|]. split; [|done].
    intros x Hx Hin. eapply Hdisj; [done|by right]. }
  exists st'. rewrite !fmap_cons. cbn [flushAll].
  rewrite flush_removeEffect, Hrm. cbn [mbind option_bind].
  split; [exact Hrun|]. rewrite Hm', Hp', Hm1, Hp1. done.
Qed.

Lemma lookups_middle {A} (kp km ks : list A) :
  (λ j, (kp ++ km ++ ks) !! j) <$> seq (length kp) (length km) = Some <$> km.
Proof.
  revert kp. induction km as [|c km IH]; intros kp; [done|].
  cbn [length seq]. rewrite !fmap_cons. f_equal.
  - by rewrite lookup_app_r, Nat.sub_diag by lia.
  - specialize (IH (kp ++ [c])). rewrite length_app in IH. cbn [length] in IH.
    replace (length kp + 1)%nat with (S (length kp)) in IH by lia.
    rewrite <- IH. apply list_fmap_ext. intros i j Hj.
    by rewrite <- !app_assoc.
Qed.

(** X9: a block of old children gone from between a common prefix and a
    common suffix, on a host child list that matches the old list:
    running the queued effects removes exactly the host children of the
    block; the factory is not called, and every removed host node is in
    the pool under the key of its old child. *)
Theorem X9_keyed_deletion_replay
    el newVNode oldVNode commit a driver new p m s p' s' kp km ks st :
  delta newVNode = None →
  flag newVNode = Flags.ELEMENT_KEYED_CHILDREN →
  children newVNode = Some (ChildArray new) →
  oldVNodeChildren oldVNode = p ++ m ++ s →
  new = p' ++ s' →
  key <$> p = key <$> p' →
  key <$> s = key <$> s' →
  NoDup (key <$> p ++ m ++ s) →
  m ≠ [] →
  array st a = [] →
  kids st el = kp ++ km ++ ks →
  length kp = length p →
  length km = length m →
  NoDup (kp ++ km ++ ks) →
  ∃ data st1 st2,
    useChildren [] el newVNode oldVNode commit a driver st = Some (data, st1)
    ∧ flushAll (array st1 a) st1 = Some st2
    ∧ kids st2 el = kp ++ ks
    ∧ made st2 = made st
    ∧ ∀ (j : nat) v node, m !! j = Some v → km !! j = Some node →
        pool st2 el !! key v = Some (Some node).
Proof.
  intros Hd Hf Hc Hold Hnew Hp Hs Hnd Hm Harr Hkids Hlp Hlm Hndk.
  destruct (keyedPath_deletion el oldVNode a new p m s p' s' st)
    as (st1 & Hrun & Harr1 & Hc1 & Hm1 & _ & Hpool); try done.
  { by rewrite Hold. }
  assert (array st1 a = removeEffect el <$> (Some <$> km)) as Hq.
  { rewrite Harr1, Harr. cbn [app]. rewrite <- Hlp, <- Hlm, Hkids.
    rewrite <- (lookups_middle kp km ks). by rewrite <- list_fmap_compose. }
  destruct (flushAll_removeEffects el km kp ks st1)
    as (st2 & Hflush & Hk2 & Hm2 & Hp2); [|done|].
  { unfold kids. rewrite Hc1. exact Hkids. }
  eexists _, st1, st2. split.
  { rewrite (useChildren_keyed _ _ _ _ _ _ new); try done.
    - by rewrite Hrun.
    - rewrite Hold. destruct m; [done|]. by destruct p. }
  rewrite Hq. split; [exact Hflush|]. split; [exact Hk2|].
  split; [by rewrite Hm2|].
  intros j v node Hv Hnode. unfold pool. rewrite Hp2. fold (pool st1 el).
  rewrite (Hpool j v Hv), Hkids.
  rewrite lookup_app_r, <- Hlp by lia.
  replace (length kp + j - length kp)%nat with j by lia.
  rewrite lookup_app_l by (apply lookup_lt_Some in Hnode; lia).
  by rewrite Hnode.
Qed.

Lemma X9_keyed_deletion_replay_witness :
  ∃ data st1 st2,
    useChildren [] 0%nat (keyedParent [keyedChild "a"; keyedChild "c"])
      (Some (keyedParent [keyedChild "a"; keyedChild "b"; keyedChild "c"]))
      defaultCommit 0%nat None sampleStore = Some (data, st1)
    ∧ flushAll (array st1 0%nat) st1 = Some st2
    ∧ kids st2 0%nat = [1; 3]%nat
    ∧ pool st2 0%nat !! Some "b" = Some (Some 2%nat).
Proof.
  destruct (X9_keyed_deletion_replay 0%nat
              (keyedParent [keyedChild "a"; keyedChild "c"])
              (Some (keyedParent
                       [keyedChild "a"; keyedChild "b"; keyedChild "c"]))
              defaultCommit 0%nat None [keyedChild "a"; keyedChild "c"]
              [keyedChild "a"] [keyedChild "b"] [keyedChild "c"]
              [keyedChild "a"] [keyedChild "c"]
              [1%nat] [2%nat] [3%nat] sampleStore)
    as (data & st1 & st2 & Hrun & Hflush & Hk & _ & Hpool);
    [reflexivity | reflexivity | reflexivity | reflexivity | reflexivity
    | reflexivity | reflexivity | by_computation | discriminate
    | reflexivity | reflexivity | reflexivity | reflexivity
    | by_computation |].
  exists data, st1, st2.
  split; [exact Hrun|]. split; [exact Hflush|]. split; [exact Hk|].
  exact (Hpool 0%nat (keyedChild "b") 2%nat eq_refl eq_refl).
Defined.

Lemma placeBefore_app node r (l1 l2 : list DOMNode) :
  r ∉ l1 → placeBefore node r (l1 ++ r :: l2) = l1 ++ node :: r :: l2.
Proof.
  induction l1 as [|c l1 IH]; intros Hnot; simpl.
  - by rewrite decide_True.
  - apply not_elem_of_cons in Hnot as [Hne Hnot].
    rewrite decide_False by done. by rewrite IH.
Qed.

(** [insertBefore] with a child of [el] as node: the node leaves its place
    and lands before the reference, the first child of [R]. *)
Lemma insertBefore_place el node (L R : list DOMNode) st :
  filter (λ c, c ≠ node) (kids st el) = L ++ R →
  NoDup (L ++ R) →
  ∃ st',
    insertBefore el (Some node) (R !! 0%nat) st = Some st'
    ∧ kids st' el = L ++ node :: R
    ∧ made st' = made st ∧ nextNode st' = nextNode st
    ∧ pools st' = pools st.
Proof.
  intros Hf Hnd. destruct R as [|r R]; cbn [lookup list_lookup].
  - unfold insertBefore. eexists. split; [done|]. split; [|done].
    unfold kids at 1. simpl. rewrite lookup_insert_eq. simpl.
    rewrite kids_detach, Hf, !app_nil_r. done.
  - assert (r ∈ filter (λ c, c ≠ node) (kids st el)) as Hin.
    { rewrite Hf. apply elem_of_app. right. left. }
    apply list_elem_of_filter in Hin as [Hne Hin].
    unfold insertBefore. rewrite bool_decide_eq_true_2 by done.
    rewrite decide_False by done.
    eexists. split; [done|]. split; [|done].
    unfold kids at 1. simpl. rewrite lookup_insert_eq. simpl.
    rewrite kids_detach, Hf. apply placeBefore_app.
    apply NoDup_app in Hnd as (_ & Hdisj & _).
    intros Hin'. eapply Hdisj; [done|left].
Qed.

Lemma flush_insertEffect_new el v (L ks : list DOMNode) st :
  kids st el = L ++ ks →
  NoDup (L ++ ks) →
  kidsBelowNext el st →
  ∃ st',
    flush (insertEffect el None v (Z.of_nat (length L))) st = Some st'
    ∧ kids st' el = L ++ nextNode st :: ks
    ∧ made st' = made st ++ [Some v]
    ∧ nextNode st' = S (nextNode st)
    ∧ pools st' = pools st.
Proof.
  intros Hkids Hnd Hbelow. unfold flush, insertEffect.
  cbn [eff_flush eff_el evalNode].
  destruct (createElement_Some v st)
    as (st1 & -> & Hc1 & Hm1 & Hn1 & Hp1 & _).
  cbn [mbind option_bind evalRef].
  assert (kids st1 el = L ++ ks) as Hk1 by (unfold kids; by rewrite Hc1).
  assert (item st1 el (Z.of_nat (length L)) = ks !! 0%nat) as ->.
  { unfold item. rewrite index_of_nat, Hk1, lookup_app_r by lia.
    by rewrite Nat.sub_diag. }
  destruct (insertBefore_place el (nextNode st) L ks st1)
    as (st' & -> & Hk & Hm & Hn & Hp); [|done|].
  { rewrite Hk1, <- Hkids. apply filter_all.
    intros x Hx%Hbelow ->. lia. }
  exists st'. split; [done|]. rewrite Hk, Hm, Hn, Hp, Hm1, Hn1, Hp1. done.
Qed.

Lemma flushAll_insertEffects el m :
  ∀ (L ks : list DOMNode) st,
    kids st el = L ++ ks →
    NoDup (L ++ ks) →
    kidsBelowNext el st →
    ∃ st',
      flushAll (imap (λ j v, insertEffect el None v
                               (Z.of_nat (length L + j))) m) st
      = Some st'
      ∧ kids st' el = L ++ seq (nextNode st) (length m) ++ ks
      ∧ made st' = made st ++ (Some <$> m)
      ∧ pools st' = pools st.
Proof.
  induction m as [|v m IH]; intros L ks st Hkids Hnd Hbelow.
  { exists st. simpl. by rewrite app_nil_r. }
  destruct (flush_insertEffect_new el v L ks st Hkids Hnd Hbelow)
    as (st1 & Hflush & Hk1 & Hm1 & Hn1 & Hp1).
  destruct (IH (L ++ [nextNode st]) ks st1)
    as (st' & Hrun & Hk' & Hm' & Hp').
  { rewrite Hk1, <- app_assoc. done. }
  { rewrite <- app_assoc. cbn [app]. apply NoDup_app in Hnd as (HL & Hdisj & Hks).
    apply NoDup_app. split; [done|]. split.
    - intros x Hx [->|Hin]%elem_of_cons.
      + assert (nextNode st ∈ kids st el) as Hin%Hbelow; [|lia].
        rewrite Hkids. apply elem_of_app. by left.
      + by eapply Hdisj.
    - apply NoDup_cons. split; [|done]. intros Hin.
      assert (nextNode st ∈ kids st el) as Hin'%Hbelow; [|lia].
      rewrite Hkids. apply elem_of_app. by right. }
  { intros node. rewrite Hk1, Hn1.
    intros [Hin|[->|Hin]%elem_of_cons]%elem_of_app; [|lia|].
    - assert (node ∈ kids st el) as Hin'%Hbelow; [|lia].
      rewrite Hkids. apply elem_of_app. by left.
    - assert (node ∈ kids st el) as Hin'%Hbelow; [|lia].
      rewrite Hkids. apply elem_of_app. by right. }
  exists st'. cbn [imap flushAll]. rewrite Nat.add_0_r, Hflush.
  cbn [mbind option_bind]. split.
  { rewrite <- Hrun. f_equal. apply imap_ext. intros j v' Hj.
    unfold compose. rewrite length_app. cbn [length]. do 2 f_equal. lia. }
  rewrite Hk', Hm', Hp', Hm1, Hn1, Hp1. cbn [length seq].
  rewrite <- !app_assoc. done.
Qed.

(** X10: a block of new children between a common prefix and a common
    suffix, when the pool has no node for their keys: running the queued
    effects puts one new host node per new child, in order, between the
    host children of the prefix and those of the suffix. *)
Theorem X10_keyed_insertion_replay
    el newVNode oldVNode commit a driver new p s p' m s' kp ks st :
  delta newVNode = None →
  flag newVNode = Flags.ELEMENT_KEYED_CHILDREN →
  children newVNode = Some (ChildArray new) →
  oldVNodeChildren oldVNode = p ++ s →
  p ++ s ≠ [] →
  new = p' ++ m ++ s' →
  key <$> p = key <$> p' →
  key <$> s = key <$> s' →
  NoDup (key <$> new) →
  m ≠ [] →
  (∀ v, v ∈ m → mjoin (pool st el !! key v) = None) →
  array st a = [] →
  kids st el = kp ++ ks →
  length kp = length p →
  NoDup (kp ++ ks) →
  kidsBelowNext el st →
  ∃ data st1 st2,
    useChildren [] el newVNode oldVNode commit a driver st = Some (data, st1)
    ∧ flushAll (array st1 a) st1 = Some st2
    ∧ kids st2 el = kp ++ seq (nextNode st) (length m) ++ ks
    ∧ made st2 = made st ++ (Some <$> m).
Proof.
  intros Hd Hf Hc Hold Hne Hnew Hp Hs Hnd Hm Hpool Harr Hkids Hlp Hndk Hbelow.
  destruct (keyedPath_insertion el oldVNode a new p s p' m s' st)
    as (st1 & Hrun & Harr1 & Hc1 & Hm1 & Hp1); try done.
  assert (array st1 a
          = imap (λ j v, insertEffect el None v (Z.of_nat (length kp + j))) m)
    as Hq.
  { rewrite Harr1, Harr. cbn [app]. apply imap_ext. intros j v Hj. simpl.
    rewrite Hpool by (by eapply list_elem_of_lookup_2). by rewrite Hlp. }
  assert (nextNode st1 = nextNode st) as Hn1.
  { destruct (keyedPath_run el oldVNode a new st) as (st1' & bs & Hrun' & [] & _).
    rewrite Hrun in Hrun'. by injection Hrun' as <-. }
  destruct (flushAll_insertEffects el m kp ks st1)
    as (st2 & Hflush & Hk2 & Hm2 & Hp2); [|done|..].
  { unfold kids. rewrite Hc1. exact Hkids. }
  { intros node. unfold kids. rewrite Hc1, Hn1. apply Hbelow. }
  eexists _, st1, st2. split.
  { rewrite (useChildren_keyed _ _ _ _ _ _ new); try done.
    - by rewrite Hrun.
    - by rewrite Hold. }
  rewrite Hq. split; [exact Hflush|]. rewrite Hk2, Hm2, Hn1, Hm1. done.
Qed.

Lemma X10_keyed_insertion_replay_witness :
  ∃ data st1 st2,
    useChildren [] 0%nat
      (keyedParent [keyedChild "a"; keyedChild "x"; keyedChild "b";
                    keyedChild "c"])
      (Some (keyedParent [keyedChild "a"; keyedChild "b"; keyedChild "c"]))
      defaultCommit 0%nat None sampleStore = Some (data, st1)
    ∧ flushAll (array st1 0%nat) st1 = Some st2
    ∧ kids st2 0%nat = [1; 10; 2; 3]%nat
    ∧ made st2 = [Some (keyedChild "x")].
Proof.
  destruct (X10_keyed_insertion_replay 0%nat
              (keyedParent [keyedChild "a"; keyedChild "x"; keyedChild "b";
                            keyedChild "c"])
              (Some (keyedParent
                       [keyedChild "a"; keyedChild "b"; keyedChild "c"]))
              defaultCommit 0%nat None
              [keyedChild "a"; keyedChild "x"; keyedChild "b"; keyedChild "c"]
              [keyedChild "a"] [keyedChild "b"; keyedChild "c"]
              [keyedChild "a"] [keyedChild "x"]
              [keyedChild "b"; keyedChild "c"]
              [1%nat] [2%nat; 3%nat] sampleStore)
    as (data & st1 & st2 & Hrun & Hflush & Hk & Hm);
    [reflexivity | reflexivity | reflexivity | reflexivity | discriminate
    | reflexivity | reflexivity | reflexivity | by_computation
    | discriminate
    | intros v ->%list_elem_of_singleton; reflexivity
    | reflexivity | reflexivity | reflexivity | by_computation
    | below_next |].
  exists data, st1, st2.
  split; [exact Hrun|]. split; [exact Hflush|]. split; [exact Hk|exact Hm].
Defined.

(** ** One child moved across a block *)

Section KeyedMoves.
Variable el : DOMNode.
Variable oldVNode : option VElement.
Variable a : loc.
Variable new : list VNode.

Let old := oldVNodeChildren oldVNode.

Lemma index_middle {A} (l1 l2 : list A) (x : A) :
  index (l1 ++ x :: l2) (Z.of_nat (length l1)) = Some x.
Proof.
  rewrite index_of_nat, lookup_app_r, Nat.sub_diag by lia. done.
Qed.

(** The first child after the common prefix has become the last one
    before the common suffix: one right move. *)
Lemma keyedPath_right_move p x ks s p' ks' x' s' st :
  old = p ++ x :: ks ++ s → new = p' ++ ks' ++ x' :: s' →
  key <$> p = key <$> p' → key <$> ks = key <$> ks' →
  key x = key x' → key <$> s = key <$> s' →
  NoDup (key <$> old) → ks ≠ [] →
  keyedPath el oldVNode a new st
  = Some (effect el a EffectTypes.CREATE
            (InsertBefore (Captured (item st el (Z.of_nat (length p))))
               (RefItemNextSibling (Z.of_nat (length p + length ks))))
            (poolInit el st)).
Proof.
  intros Hold Hnew Hp Hks Hx Hs Hnd Hne.
  pose proof (same_keys_length _ _ Hp) as Hlp.
  pose proof (same_keys_length _ _ Hks) as Hlk.
  assert (0 < length ks)%nat as Hk0 by (destruct ks; [done|simpl; lia]).
  assert (index old (Z.of_nat (length p)) = Some x) as HOH.
  { rewrite Hold. apply index_middle. }
  assert (index new (Z.of_nat (length p + length ks)) = Some x') as HNT.
  { rewrite Hnew, app_assoc.
    replace (length p + length ks)%nat with (length (p' ++ ks'))
      by (rewrite length_app; lia).
    apply index_middle. }
  destruct (index_lookup old (Z.of_nat (length p + length ks)))
    as (vOT & HOT & _).
  { rewrite Hold, !length_app. simpl. rewrite length_app. lia. }
  destruct (index_lookup new (Z.of_nat (length p)))
    as (vNH & HNH & _).
  { rewrite Hnew, !length_app. simpl. lia. }
  assert (key vOT ≠ key x') as Hk1.
  { rewrite <- Hx.
    eapply (NoDup_keys_index old (Z.of_nat (length p + length ks))
              (Z.of_nat (length p))); [exact Hnd|exact HOT|exact HOH|lia]. }
  assert (key x ≠ key vNH) as Hk2.
  { assert (index (p' ++ ks') (Z.of_nat (length p)) = Some vNH) as H1.
    { rewrite <- HNH, Hnew, app_assoc. symmetry. apply index_app_l.
      rewrite length_app. lia. }
    destruct (same_keys_lookup (p ++ ks) (p' ++ ks') (Z.of_nat (length p)))
      as (v1 & v2 & Hv1 & Hv2 & Hk).
    { by rewrite !fmap_app, Hp, Hks. }
    { rewrite length_app. lia. }
    rewrite H1 in Hv2. injection Hv2 as <-. rewrite <- Hk.
    assert (index old (Z.of_nat (length p) + 1) = Some v1) as H2.
    { rewrite Hold. rewrite index_app_r by lia.
      replace (Z.of_nat (length p) + 1 - Z.of_nat (length p)) with 1 by lia.
      rewrite index_app_r in Hv1 by lia. rewrite Z.sub_diag in Hv1.
      unfold index in *. simpl in *. rewrite <- Hv1.
      destruct ks; [done|]. done. }
    eapply (NoDup_keys_index old (Z.of_nat (length p))
              (Z.of_nat (length p) + 1)); [exact Hnd|exact HOH|exact H2|lia]. }
  unfold keyedPath.
  rewrite (trim_common el oldVNode a new p (x :: ks) s p' (ks' ++ [x']) s'
             (poolInit el st)); [|done|by rewrite Hnew, <- !app_assoc|done..|].
  2:{ intros _. exists vOT, x'. cbn [length]. rewrite length_app. cbn [length].
      replace (Z.of_nat (length p + S (length ks)) - 1)
        with (Z.of_nat (length p + length ks)) by lia.
      replace (Z.of_nat (length p + (length ks' + 1)) - 1)
        with (Z.of_nat (length p + length ks)) by lia.
      done. }
  cbn [length]. rewrite length_app. cbn [length].
  replace (Z.of_nat (length p + S (length ks)) - 1)
    with (Z.of_nat (length p + length ks)) by lia.
  replace (Z.of_nat (length p + (length ks' + 1)) - 1)
    with (Z.of_nat (length p + length ks)) by lia.
  rewrite trim_unfold.
  assert (inRange (mkCursors (Z.of_nat (length p)) (Z.of_nat (length p))
                     (Z.of_nat (length p + length ks))
                     (Z.of_nat (length p + length ks))) = true) as ->
    by (apply inRange_spec; simpl; lia).
  rewrite (trimStep_other el oldVNode a new _ _ vOT x' x vNH) by done.
  rewrite decide_False by done. rewrite decide_True by done.
  cbn [mbind option_bind]. unfold rightMoveCursors.
  cbn [oldHead oldTail newHead newTail].
  rewrite (trim_suffix_run el oldVNode a new (length ks)); cycle 1.
  { cbn [oldHead oldTail newHead newTail]. intros j Hj.
    destruct (same_keys_lookup ks ks' (Z.of_nat (length ks) - 1 - Z.of_nat j)
                Hks) as (v1 & v2 & Hv1 & Hv2 & Hk); [lia|].
    exists v1, v2. split; [|split; [|done]].
    - fold old. rewrite Hold, index_app_r by lia.
      rewrite <- Hv1. unfold index.
      rewrite !bool_decide_eq_true_2 by lia.
      replace (Z.to_nat (Z.of_nat (length p + length ks) - Z.of_nat j
                         - Z.of_nat (length p)))
        with (S (Z.to_nat (Z.of_nat (length ks) - 1 - Z.of_nat j))) by lia.
      cbn [lookup list_lookup]. apply lookup_app_l. lia.
    - rewrite Hnew, index_app_r by lia. rewrite index_app_l by lia.
      rewrite <- Hv2. f_equal. lia. }
  { cbn [oldHead oldTail newHead newTail]. lia. }
  { cbn [oldHead oldTail newHead newTail]. lia. }
  cbn [oldHead oldTail newHead newTail].
  rewrite trim_done.
  2:{ unfold inRange. cbn [oldHead oldTail newHead newTail].
      rewrite bool_decide_eq_false_2 by lia. done. }
  cbn [mbind option_bind oldHead oldTail newHead newTail].
  rewrite bool_decide_eq_true_2 by lia.
  unfold span.
  replace (Z.to_nat _) with 0%nat by lia. simpl.
  do 4 f_equal. unfold item. f_equal. unfold kids.
  by rewrite childNodes_poolInit.
Qed.

(** The last child before the common suffix has become the first one
    after the common prefix, over two children or more: one left move. *)
Lemma keyedPath_left_move p ks x s p' x' ks' s' st :
  old = p ++ ks ++ x :: s → new = p' ++ x' :: ks' ++ s' →
  key <$> p = key <$> p' → key <$> ks = key <$> ks' →
  key x = key x' → key <$> s = key <$> s' →
  NoDup (key <$> old) → (2 ≤ length ks)%nat →
  keyedPath el oldVNode a new st
  = Some (effect el a EffectTypes.CREATE
            (InsertBefore
               (Captured (item st el (Z.of_nat (length p + length ks))))
               (RefItem (Z.of_nat (length p))))
            (poolInit el st)).
Proof.
  intros Hold Hnew Hp Hks Hx Hs Hnd Hk0.
  pose proof (same_keys_length _ _ Hp) as Hlp.
  pose proof (same_keys_length _ _ Hks) as Hlk.
  assert (index old (Z.of_nat (length p + length ks)) = Some x) as HOT.
  { rewrite Hold, app_assoc.
    replace (length p + length ks)%nat with (length (p ++ ks))
      by (rewrite length_app; lia).
    apply index_middle. }
  assert (index new (Z.of_nat (length p)) = Some x') as HNH.
  { rewrite Hnew, Hlp. apply index_middle. }
  destruct (same_keys_lookup ks ks' 0 Hks) as (vOH & w0 & HOH & Hw0 & HkOH);
    [lia|].
  destruct (same_keys_lookup ks ks' (Z.of_nat (length ks) - 1) Hks)
    as (w1 & vNT & Hw1 & HNT & HkNT); [lia|].
  assert (index old (Z.of_nat (length p)) = Some vOH) as HOH'.
  { rewrite Hold, index_app_r, Z.sub_diag by lia.
    rewrite index_app_l by lia. done. }
  assert (index old (Z.of_nat (length p + length ks) - 1) = Some w1) as Hw1'.
  { rewrite Hold, index_app_r by lia. rewrite index_app_l by lia.
    rewrite <- Hw1. f_equal. lia. }
  assert (index new (Z.of_nat (length p + length ks)) = Some vNT) as HNT'.
  { rewrite Hnew, index_app_r by lia. rewrite <- HNT. unfold index.
    rewrite !bool_decide_eq_true_2 by lia.
    replace (Z.to_nat (Z.of_nat (length p + length ks) - Z.of_nat (length p')))
      with (S (Z.to_nat (Z.of_nat (length ks) - 1))) by lia.
    cbn [lookup list_lookup]. apply lookup_app_l. lia. }
  assert (key x ≠ key vNT) as Hk1.
  { rewrite <- HkNT.
    eapply (NoDup_keys_index old (Z.of_nat (length p + length ks))
              (Z.of_nat (length p + length ks) - 1));
      [exact Hnd|exact HOT|exact Hw1'|lia]. }
  assert (key vOH ≠ key x') as Hk2.
  { rewrite <- Hx.
    eapply (NoDup_keys_index old (Z.of_nat (length p))
              (Z.of_nat (length p + length ks)));
      [exact Hnd|exact HOH'|exact HOT|lia]. }
  assert (key vOH ≠ key vNT) as Hk3.
  { rewrite <- HkNT.
    eapply (NoDup_keys_index old (Z.of_nat (length p))
              (Z.of_nat (length p + length ks) - 1));
      [exact Hnd|exact HOH'|exact Hw1'|lia]. }
  unfold keyedPath.
  rewrite (trim_common el oldVNode a new p (ks ++ [x]) s p' (x' :: ks') s'
             (poolInit el st)); [|by (etrans; [exact Hold|]; rewrite <- !app_assoc)|done..|].
  2:{ intros _. exists x, vNT. cbn [length]. rewrite length_app. cbn [length].
      replace (Z.of_nat (length p + (length ks + 1)) - 1)
        with (Z.of_nat (length p + length ks)) by lia.
      replace (Z.of_nat (length p + S (length ks')) - 1)
        with (Z.of_nat (length p + length ks)) by lia.
      done. }
  cbn [length]. rewrite length_app. cbn [length].
  replace (Z.of_nat (length p + (length ks + 1)) - 1)
    with (Z.of_nat (length p + length ks)) by lia.
  replace (Z.of_nat (length p + S (length ks')) - 1)
    with (Z.of_nat (length p + length ks)) by lia.
  rewrite trim_unfold.
  assert (inRange (mkCursors (Z.of_nat (length p)) (Z.of_nat (length p))
                     (Z.of_nat (length p + length ks))
                     (Z.of_nat (length p + length ks))) = true) as ->
    by (apply inRange_spec; simpl; lia).
  rewrite (trimStep_other el oldVNode a new _ _ x vNT vOH x') by done.
  rewrite decide_False by done. rewrite decide_False by done.
  rewrite decide_True by done.
  cbn [mbind option_bind]. unfold leftMoveCursors.
  cbn [oldHead oldTail newHead newTail].
  rewrite (trim_suffix_run el oldVNode a new (length ks)); cycle 1.
  { cbn [oldHead oldTail newHead newTail]. intros j Hj.
    destruct (same_keys_lookup ks ks' (Z.of_nat (length ks) - 1 - Z.of_nat j)
                Hks) as (v1 & v2 & Hv1 & Hv2 & Hk); [lia|].
    exists v1, v2. split; [|split; [|done]].
    - fold old. rewrite Hold, index_app_r by lia.
      rewrite index_app_l by lia. rewrite <- Hv1. f_equal. lia.
    - rewrite Hnew, index_app_r by lia.
      rewrite <- Hv2. unfold index.
      rewrite !bool_decide_eq_true_2 by lia.
      replace (Z.to_nat (Z.of_nat (length p + length ks) - Z.of_nat j
                         - Z.of_nat (length p')))
        with (S (Z.to_nat (Z.of_nat (length ks) - 1 - Z.of_nat j))) by lia.
      cbn [lookup list_lookup]. apply lookup_app_l. lia. }
  { cbn [oldHead oldTail newHead newTail]. lia. }
  { cbn [oldHead oldTail newHead newTail]. lia. }
  cbn [oldHead oldTail newHead newTail].
  rewrite trim_done.
  2:{ unfold inRange. cbn [oldHead oldTail newHead newTail].
      rewrite bool_decide_eq_false_2 by lia. done. }
  cbn [mbind option_bind oldHead oldTail newHead newTail].
  rewrite bool_decide_eq_true_2 by lia.
  unfold span.
  replace (Z.to_nat _) with 0%nat by lia. simpl.
  do 4 f_equal. unfold item. f_equal. unfold kids.
  by rewrite childNodes_poolInit.
Qed.

End KeyedMoves.

(** ** Running a move *)

Lemma flush_rightMoveEffect el node (A B C : list DOMNode) st :
  kids st el = A ++ node :: B ++ C →
  NoDup (A ++ node :: B ++ C) →
  ∃ st',
    flush (rightMoveEffect el (Some node)
             (Z.of_nat (length A + length B))) st = Some st'
    ∧ kids st' el = A ++ B ++ node :: C
    ∧ made st' = made st ∧ nextNode st' = nextNode st
    ∧ pools st' = pools st.
Proof.
  intros Hkids Hnd. unfold flush, rightMoveEffect.
  cbn [eff_flush eff_el evalNode mbind option_bind evalRef].
  assert (∀ j : nat, item st el (Z.of_nat (length A + length B) + Z.of_nat j)
                     = (node :: B ++ C) !! (length B + j)%nat) as Hitem.
  { intros j. unfold item.
    replace (Z.of_nat (length A + length B) + Z.of_nat j)
      with (Z.of_nat (length A + length B + j)) by lia.
    rewrite index_of_nat, Hkids, lookup_app_r by lia. f_equal. lia. }
  pose proof (Hitem 0%nat) as H0. pose proof (Hitem 1%nat) as H1.
  rewrite Z.add_0_r in H0. change (Z.of_nat 1) with 1 in H1.
  rewrite H0, H1.
  destruct (lookup_lt_is_Some_2 (node :: B ++ C) (length B + 0)) as [c ->].
  { simpl. rewrite length_app. lia. }
  cbn [mbind option_bind].
  replace ((node :: B ++ C) !! (length B + 1)%nat) with (C !! 0%nat).
  2:{ replace (length B + 1)%nat with (S (length B)) by lia.
      change ((node :: B ++ C) !! S (length B))
        with ((B ++ C) !! length B).
      by rewrite lookup_app_r, Nat.sub_diag by lia. }
  destruct (insertBefore_place el node (A ++ B) C st)
    as (st' & Hrun & Hk & Hrest).
  { rewrite Hkids, <- app_assoc. apply (filter_drop_one A (B ++ C)). done. }
  { rewrite <- app_assoc. eapply NoDup_app in Hnd as (HA & Hdisj & Hnd).
    apply NoDup_cons in Hnd as [_ Hnd].
    apply NoDup_app. split; [done|]. split; [|done].
    intros x Hx Hin. eapply Hdisj; [done|by right]. }
  exists st'. split; [done|]. rewrite Hk, <- app_assoc. done.
Qed.

Lemma flush_leftMoveEffect el node (A B C : list DOMNode) st :
  kids st el = A ++ B ++ node :: C →
  NoDup (A ++ B ++ node :: C) →
  B ≠ [] →
  ∃ st',
    flush (leftMoveEffect el (Some node) (Z.of_nat (length A))) st = Some st'
    ∧ kids st' el = A ++ node :: B ++ C
    ∧ made st' = made st ∧ nextNode st' = nextNode st
    ∧ pools st' = pools st.
Proof.
  intros Hkids Hnd HB. unfold flush, leftMoveEffect.
  cbn [eff_flush eff_el evalNode mbind option_bind evalRef].
  assert (item st el (Z.of_nat (length A)) = (B ++ C) !! 0%nat) as ->.
  { unfold item. rewrite index_of_nat, Hkids, lookup_app_r by lia.
    rewrite Nat.sub_diag. by destruct B. }
  rewrite app_assoc in Hkids, Hnd.
  apply (insertBefore_place el node A (B ++ C) st).
  - rewrite Hkids, (filter_drop_one (A ++ B) C) by done.
    by rewrite <- app_assoc.
  - rewrite app_assoc. eapply NoDup_app in Hnd as (HA & Hdisj & Hnd).
    apply NoDup_cons in Hnd as [_ Hnd].
    apply NoDup_app. split; [done|]. split; [|done].
    intros x Hx Hin. eapply Hdisj; [done|by right].
Qed.

(** X11: the first child of a block has become its last one (keys
    otherwise in place): exactly one effect is queued, the right move
    [insertBefore(node, item(tail).nextSibling)] on the host child at the
    old index, and running it moves that host child behind the block. *)
Theorem X11_keyed_right_move
    el newVNode oldVNode commit a driver new
    p x ks s p' ks' x' s' (A B C : list DOMNode) node st :
  delta newVNode = None →
  flag newVNode = Flags.ELEMENT_KEYED_CHILDREN →
  children newVNode = Some (ChildArray new) →
  oldVNodeChildren oldVNode = p ++ x :: ks ++ s →
  new = p' ++ ks' ++ x' :: s' →
  key <$> p = key <$> p' → key <$> ks = key <$> ks' →
  key x = key x' → key <$> s = key <$> s' →
  NoDup (key <$> oldVNodeChildren oldVNode) →
  ks ≠ [] →
  kids st el = A ++ node :: B ++ C →
  length A = length p → length B = length ks →
  NoDup (A ++ node :: B ++ C) →
  ∃ data st1 st2,
    useChildren [] el newVNode oldVNode commit a driver st = Some (data, st1)
    ∧ array st1 a
      = array st a
        ++ [rightMoveEffect el (Some node) (Z.of_nat (length p + length ks))]
    ∧ flush (rightMoveEffect el (Some node)
               (Z.of_nat (length p + length ks))) st1 = Some st2
    ∧ kids st2 el = A ++ B ++ node :: C
    ∧ made st2 = made st.
Proof.
  intros Hd Hf Hc Hold Hnew Hp Hks Hx Hs Hnd Hne Hkids HlA HlB Hndk.
  pose proof (keyedPath_right_move el oldVNode a new p x ks s p' ks' x' s' st
                Hold Hnew Hp Hks Hx Hs Hnd Hne) as Hrun.
  assert (item st el (Z.of_nat (length p)) = Some node) as Hitem.
  { unfold item. rewrite Hkids, <- HlA. apply index_middle. }
  rewrite Hitem in Hrun.
  set (st1 := effect el a _ _ _) in Hrun.
  assert (kids st1 el = kids st el) as Hk1.
  { unfold kids, st1. simpl. by rewrite childNodes_poolInit. }
  assert (made st1 = made st) as Hm1.
  { unfold st1, poolInit. simpl. by destruct (pools st !! el). }
  destruct (flush_rightMoveEffect el node A B C st1)
    as (st2 & Hflush & Hk2 & Hm2 & _); [by rewrite Hk1|done|].
  eexists _, st1, st2. split.
  { rewrite (useChildren_keyed _ _ _ _ _ _ new); try done.
    - by rewrite Hrun.
    - rewrite Hold. by destruct p. }
  split.
  { unfold st1. rewrite array_effect. unfold array. 
    by rewrite arrays_poolInit. }
  rewrite <- HlA, <- HlB. split; [exact Hflush|].
  split; [done|]. by rewrite Hm2.
Qed.

Lemma X11_keyed_right_move_witness :
  ∃ data st1 st2,
    useChildren [] 0%nat
      (keyedParent [keyedChild "b"; keyedChild "c"; keyedChild "a"])
      (Some (keyedParent [keyedChild "a"; keyedChild "b"; keyedChild "c"]))
      defaultCommit 0%nat None sampleStore = Some (data, st1)
    ∧ array st1 0%nat = [rightMoveEffect 0%nat (Some 1%nat) 2]
    ∧ flush (rightMoveEffect 0%nat (Some 1%nat) 2) st1 = Some st2
    ∧ kids st2 0%nat = [2; 3; 1]%nat.
Proof.
  destruct (X11_keyed_right_move 0%nat
              (keyedParent [keyedChild "b"; keyedChild "c"; keyedChild "a"])
              (Some (keyedParent
                       [keyedChild "a"; keyedChild "b"; keyedChild "c"]))
              defaultCommit 0%nat None
              [keyedChild "b"; keyedChild "c"; keyedChild "a"]
              [] (keyedChild "a") [keyedChild "b"; keyedChild "c"] []
              [] [keyedChild "b"; keyedChild "c"] (keyedChild "a") []
              [] [2%nat; 3%nat] [] 1%nat sampleStore)
    as (data & st1 & st2 & Hrun & Harr & Hflush & Hk & _);
    [reflexivity | reflexivity | reflexivity | reflexivity | reflexivity
    | reflexivity | reflexivity | reflexivity | reflexivity
    | by_computation | discriminate
    | reflexivity | reflexivity | reflexivity | by_computation |].
  exists data, st1, st2.
  split; [exact Hrun|]. split; [exact Harr|]. split; [exact Hflush|exact Hk].
Defined.

(** X12: the last child of a block has become its first one, over two
    other children or more: exactly one effect is queued, the left move
    [insertBefore(node, item(head))] on the host child at the old index,
    and running it moves that host child before the block. *)
Theorem X12_keyed_left_move
    el newVNode oldVNode commit a driver new
    p ks x s p' x' ks' s' (A B C : list DOMNode) node st :
  delta newVNode = None →
  flag newVNode = Flags.ELEMENT_KEYED_CHILDREN →
  children newVNode = Some (ChildArray new) →
  oldVNodeChildren oldVNode = p ++ ks ++ x :: s →
  new = p' ++ x' :: ks' ++ s' →
  key <$> p = key <$> p' → key <$> ks = key <$> ks' →
  key x = key x' → key <$> s = key <$> s' →
  NoDup (key <$> oldVNodeChildren oldVNode) →
  (2 ≤ length ks)%nat →
  kids st el = A ++ B ++ node :: C →
  length A = length p → length B = length ks →
  NoDup (A ++ B ++ node :: C) →
  ∃ data st1 st2,
    useChildren [] el newVNode oldVNode commit a driver st = Some (data, st1)
    ∧ array st1 a
      = array st a ++ [leftMoveEffect el (Some node) (Z.of_nat (length p))]
    ∧ flush (leftMoveEffect el (Some node) (Z.of_nat (length p))) st1
      = Some st2
    ∧ kids st2 el = A ++ node :: B ++ C
    ∧ made st2 = made st.
Proof.
  intros Hd Hf Hc Hold Hnew Hp Hks Hx Hs Hnd Hne Hkids HlA HlB Hndk.
  pose proof (keyedPath_left_move el oldVNode a new p ks x s p' x' ks' s' st
                Hold Hnew Hp Hks Hx Hs Hnd Hne) as Hrun.
  assert (item st el (Z.of_nat (length p + length ks)) = Some node) as Hitem.
  { unfold item. rewrite Hkids, <- HlA, <- HlB, app_assoc.
    replace (length A + length B)%nat with (length (A ++ B))
      by (by rewrite length_app).
    apply index_middle. }
  rewrite Hitem in Hrun.
  set (st1 := effect el a _ _ _) in Hrun.
  assert (kids st1 el = kids st el) as Hk1.
  { unfold kids, st1. simpl. by rewrite childNodes_poolInit. }
  assert (made st1 = made st) as Hm1.
  { unfold st1, poolInit. simpl. by destruct (pools st !! el). }
  destruct (flush_leftMoveEffect el node A B C st1)
    as (st2 & Hflush & Hk2 & Hm2 & _); [by rewrite Hk1|done| |].
  { intros ->. simpl in HlB. lia. }
  eexists _, st1, st2. split.
  { rewrite (useChildren_keyed _ _ _ _ _ _ new); try done.
    - by rewrite Hrun.
    - rewrite Hold. destruct p; [|done]. destruct ks; [simpl in Hne; lia|done]. }
  split.
  { unfold st1. rewrite array_effect. unfold array.
    by rewrite arrays_poolInit. }
  rewrite <- HlA. split; [exact Hflush|].
  split; [done|]. by rewrite Hm2.
Qed.

Lemma X12_keyed_left_move_witness :
  ∃ data st1 st2,
    useChildren [] 0%nat
      (keyedParent [keyedChild "c"; keyedChild "a"; keyedChild "b"])
      (Some (keyedParent [keyedChild "a"; keyedChild "b"; keyedChild "c"]))
      defaultCommit 0%nat None sampleStore = Some (data, st1)
    ∧ array st1 0%nat = [leftMoveEffect 0%nat (Some 3%nat) 0]
    ∧ flush (leftMoveEffect 0%nat (Some 3%nat) 0) st1 = Some st2
    ∧ kids st2 0%nat = [3; 1; 2]%nat.
Proof.
  destruct (X12_keyed_left_move 0%nat
              (keyedParent [keyedChild "c"; keyedChild "a"; keyedChild "b"])
              (Some (keyedParent
                       [keyedChild "a"; keyedChild "b"; keyedChild "c"]))
              defaultCommit 0%nat None
              [keyedChild "c"; keyedChild "a"; keyedChild "b"]
              [] [keyedChild "a"; keyedChild "b"] (keyedChild "c") []
              [] (keyedChild "c") [keyedChild "a"; keyedChild "b"] []
              [] [1%nat; 2%nat] [] 3%nat sampleStore)
    as (data & st1 & st2 & Hrun & Harr & Hflush & Hk & _);
    [reflexivity | reflexivity | reflexivity | reflexivity | reflexivity
    | reflexivity | reflexivity | reflexivity | reflexivity
    | by_computation | simpl; lia
    | reflexivity | reflexivity | reflexivity | by_computation |].
  exists data, st1, st2.
  split; [exact Hrun|]. split; [exact Harr|]. split; [exact Hflush|exact Hk].
Defined.

(** ** Patch lists without UPDATE *)

Lemma deltaStep_queue el newVNode oldVNode commit a driver d fr :
  d.1 ≠ DeltaTypes.UPDATE →
  deltaStep el newVNode oldVNode commit a driver d fr
  = Some (mkFrame (effectsVar fr)
            (queueAll a (deltaEffect el (children newVNode)
                           (kids (store fr) el) d) (store fr))).
Proof.
  destruct d as [t pos]. intros Ht.
  unfold deltaStep, deltaEffect, deltaEffectAt, item.
  cbn [fst snd] in *. by destruct t.
Qed.

Lemma deltaPath_queue el newVNode oldVNode commit a driver ds :
  ∀ fr,
    (∀ d, d ∈ ds → d.1 ≠ DeltaTypes.UPDATE) →
    deltaPath el newVNode oldVNode commit a driver ds fr
    = Some (mkFrame (effectsVar fr)
              (queueAll a (concat (deltaEffect el (children newVNode)
                                     (kids (store fr) el) <$> ds))
                 (store fr))).
Proof.
  unfold deltaPath. induction ds as [|d ds IH]; intros fr Hall.
  { by destruct fr. }
  cbn [forEach]. rewrite deltaStep_queue by (apply Hall; left).
  cbn [mbind option_bind]. rewrite IH by (intros d' Hd'; apply Hall; by right).
  cbn [effectsVar store fmap list_fmap concat].
  rewrite queueAll_app. do 3 f_equal.
  unfold kids. by destruct (queueAll_frame a
    (deltaEffect el (children newVNode) (default [] (childNodes (store fr) !! el)) d)
    (store fr)) as (-> & _).
Qed.

Lemma useChildren_delta_queue el newVNode oldVNode commit a driver ds st :
  delta newVNode = Some ds →
  (∀ d, d ∈ ds → d.1 ≠ DeltaTypes.UPDATE) →
  useChildren [] el newVNode oldVNode commit a driver st
  = Some (Data.mk (Some el) newVNode oldVNode a commit driver,
          queueAll a (concat (deltaEffect el (children newVNode)
                                (kids st el) <$> ds)) st).
Proof.
  intros Hd Hall. unfold useChildren. rewrite Hd.
  rewrite deltaPath_queue by done. done.
Qed.

(** X13: a patch list without UPDATE entries never calls [commit] or the
    recursive driver and never looks at the old node or at the flag: it
    queues one effect per entry, in order, each on the host child found,
    in the child list [el] has on entry, at the position of the entry
    converted to an [unsigned long]: at the position itself when it is
    below [2^32], at the position modulo [2^32] in general. *)
Theorem X13_delta_without_update
    el newVNode oldVNode commit a driver ds st :
  delta newVNode = Some ds →
  (∀ d, d ∈ ds → d.1 ≠ DeltaTypes.UPDATE) →
  ∃ st',
    useChildren [] el newVNode oldVNode commit a driver st
    = Some (Data.mk (Some el) newVNode oldVNode a commit driver, st')
    ∧ array st' a
      = array st a
        ++ concat (deltaEffect el (children newVNode) (kids st el) <$> ds)
    ∧ (∀ d : Delta,
         deltaEffect el (children newVNode) (kids st el) d
         = deltaEffectAt el (children newVNode)
             (index (kids st el) (Z.of_nat d.2 mod 2 ^ 32)) d
         ∧ (Z.of_nat d.2 < 2 ^ 32 →
            deltaEffect el (children newVNode) (kids st el) d
            = deltaEffectAt el (children newVNode) (kids st el !! d.2) d))
    ∧ length (array st' a) = (length (array st a) + length ds)%nat
    ∧ childNodes st' = childNodes st
    ∧ pools st' = pools st
    ∧ made st' = made st.
Proof.
  intros Hd Hall. eexists. split; [by apply useChildren_delta_queue|].
  rewrite array_queueAll.
  destruct (queueAll_frame a
              (concat (deltaEffect el (children newVNode) (kids st el) <$> ds))
              st) as (-> & -> & -> & _).
  split; [done|]. split.
  { intros d. split; [done|]. intros Hsmall. unfold deltaEffect.
    by rewrite toUint32_small, index_of_nat. }
  split; [|done].
  rewrite length_app. f_equal.
  clear Hd. induction ds as [|d ds IH]; [done|].
  cbn [fmap list_fmap concat length]. rewrite length_app.
  rewrite IH by (intros d' Hd'; apply Hall; by right).
  assert (d.1 ≠ DeltaTypes.UPDATE) as Hne by (apply Hall; left).
  unfold deltaEffect, deltaEffectAt. by destruct (d.1).
Qed.

Lemma X13_delta_without_update_witness :
  ∃ st',
    useChildren [] 0%nat
      (plainParent [VText "a"]
         (Some [(DeltaTypes.CREATE, 0%nat); (DeltaTypes.REMOVE, 1%nat)]))
      None defaultCommit 0%nat None sampleStore
    = Some (Data.mk (Some 0%nat)
              (plainParent [VText "a"]
                 (Some [(DeltaTypes.CREATE, 0%nat);
                        (DeltaTypes.REMOVE, 1%nat)]))
              None 0%nat defaultCommit None, st')
    ∧ array st' 0%nat
      = [mkEffect 0%nat EffectTypes.CREATE
           (InsertBefore
              (CreateElementAt (Some (ChildArray [VText "a"])) 0)
              (RefCaptured (Some 1%nat)));
         removeEffect 0%nat (Some 2%nat)].
Proof.
  destruct (X13_delta_without_update 0%nat
              (plainParent [VText "a"]
                 (Some [(DeltaTypes.CREATE, 0%nat);
                        (DeltaTypes.REMOVE, 1%nat)]))
              None defaultCommit 0%nat None
              [(DeltaTypes.CREATE, 0%nat); (DeltaTypes.REMOVE, 1%nat)]
              sampleStore) as (st' & Hrun & Harr & _);
    [reflexivity
    | apply Forall_forall; repeat (constructor; [discriminate|]); constructor
    |].
  exists st'. split; [exact Hrun | exact Harr].
Defined.

(** ** Running REMOVE entries *)

Lemma list_difference_nil_r (l : list DOMNode) : list_difference l [] = l.
Proof.
  induction l as [|x l IH]; [done|]. cbn [list_difference].
  destruct (decide_rel _ x []) as [H|H]; [by apply elem_of_nil in H|].
  by rewrite IH.
Qed.

Lemma list_difference_filter (l cs : list DOMNode) (c : DOMNode) :
  list_difference (filter (λ x, x ≠ c) l) cs = list_difference l (c :: cs).
Proof.
  induction l as [|x l IH]; [done|]. cbn [list_difference].
  destruct (decide (x = c)) as [->|Hne].
  - rewrite filter_cons_False by (intros H; by apply H).
    destruct (decide_rel _ c (c :: cs)) as [H|H]; [done|].
    destruct H. left.
  - rewrite filter_cons_True by done. cbn [list_difference]. rewrite IH.
    destruct (decide_rel _ x cs) as [Hx|Hx];
      destruct (decide_rel _ x (c :: cs)) as [Hx'|Hx']; try done.
    + destruct Hx'. by right.
    + apply elem_of_cons in Hx' as [->|?]; done.
Qed.

Lemma flushAll_removeEffects_any el cs :
  ∀ st,
    NoDup cs →
    (∀ c, c ∈ cs → c ∈ kids st el) →
    ∃ st',
      flushAll (removeEffect el <$> (Some <$> cs)) st = Some st'
      ∧ kids st' el = list_difference (kids st el) cs
      ∧ made st' = made st
      ∧ pools st' = pools st.
Proof.
  induction cs as [|c cs IH]; intros st Hnd Hin.
  { exists st. by rewrite list_difference_nil_r. }
  apply NoDup_cons in Hnd as [Hc Hnd].
  destruct (removeChild_kids el c st)
    as (st1 & Hrm & Hk1 & Hm1 & _ & Hp1 & _); [apply Hin; left|].
  destruct (IH st1 Hnd) as (st' & Hrun & Hk & Hm & Hp).
  { intros c' Hc'. rewrite Hk1. apply list_elem_of_filter. split.
    - intros ->. done.
    - apply Hin. by right. }
  exists st'. cbn [fmap list_fmap flushAll]. rewrite flush_removeEffect, Hrm.
  cbn [mbind option_bind]. split; [exact Hrun|].
  rewrite Hk, Hm, Hp, Hk1, Hm1, Hp1. split; [|done].
  apply list_difference_filter.
Qed.

Lemma index_Some {A} (l : list A) (i : Z) (x : A) :
  index l i = Some x → 0 ≤ i ∧ l !! Z.to_nat i = Some x.
Proof. unfold index. by case_bool_decide. Qed.

Lemma NoDup_picked {D} (w : D → Z) (K : list DOMNode) (ds : list D) cs :
  Forall2 (λ d c, index K (w d) = Some c) ds cs →
  NoDup (w <$> ds) → NoDup K → NoDup cs.
Proof.
  intros Hcs Hpos Hnd. induction Hcs as [|d c ds cs Hdc Hcs IH]; [constructor|].
  rewrite fmap_cons in Hpos. apply NoDup_cons in Hpos as [Hd Hpos].
  apply NoDup_cons. split; [|by apply IH].
  intros Hin. apply Hd.
  apply list_elem_of_lookup in Hin as [j Hj].
  destruct (Forall2_lookup_r _ _ _ _ _ Hcs Hj) as (d' & Hd' & Hdc').
  apply index_Some in Hdc as [Hd0 Hdc]. apply index_Some in Hdc' as [Hd0' Hdc'].
  assert (w d' = w d) as <-.
  { apply Z2Nat.inj; [done..|].
    eapply NoDup_lookup; [exact Hnd|exact Hdc'|exact Hdc]. }
  apply list_elem_of_fmap. exists d'. split; [done|].
  by eapply list_elem_of_lookup_2.
Qed.

Lemma Forall2_small_positions (K : list DOMNode) (ds : list Delta) cs :
  Forall (λ d : Delta, Z.of_nat d.2 < 2 ^ 32) ds →
  Forall2 (λ d c, K !! d.2 = Some c) ds cs →
  NoDup ds.*2 →
  Forall2 (λ d c, index K (toUint32 (Z.of_nat d.2)) = Some c) ds cs
  ∧ NoDup ((λ d : Delta, toUint32 (Z.of_nat d.2)) <$> ds).
Proof.
  intros Hsmall Hcs Hpos. split.
  - induction Hcs as [|d c ds cs Hdc Hcs IH]; [constructor|].
    apply Forall_cons in Hsmall as [Hd Hsmall].
    rewrite fmap_cons in Hpos. apply NoDup_cons in Hpos as [_ Hpos].
    constructor; [|by apply IH].
    by rewrite toUint32_small, index_of_nat.
  - clear Hcs. induction ds as [|d ds IH]; [constructor|].
    apply Forall_cons in Hsmall as [Hd Hsmall].
    rewrite fmap_cons in Hpos. apply NoDup_cons in Hpos as [Hnin Hpos].
    rewrite fmap_cons. apply NoDup_cons. split; [|by apply IH].
    intros (d' & Heq & Hin)%list_elem_of_fmap. apply Hnin.
    apply list_elem_of_fmap. exists d'. split; [|done].
    rewrite Forall_forall in Hsmall.
    rewrite !toUint32_small in Heq by (done || by apply Hsmall). lia.
Qed.

(** X14: REMOVE entries at distinct positions inside the child list are
    in the coordinates of the child list on entry: running the queued
    effects drops exactly the children that were at these positions.  A
    position counts as converted to an [unsigned long], that is modulo
    [2^32]; for positions below [2^32] these are the positions
    themselves. *)
Theorem X14_delta_remove_replay
    el newVNode oldVNode commit a driver ds cs st :
  delta newVNode = Some ds →
  (∀ d, d ∈ ds → d.1 = DeltaTypes.REMOVE) →
  (Forall2 (λ d c, index (kids st el) (toUint32 (Z.of_nat d.2)) = Some c)
     ds cs
   ∧ NoDup ((λ d : Delta, toUint32 (Z.of_nat d.2)) <$> ds))
  ∨ (Forall (λ d : Delta, Z.of_nat d.2 < 2 ^ 32) ds
     ∧ Forall2 (λ d c, kids st el !! d.2 = Some c) ds cs
     ∧ NoDup ds.*2) →
  NoDup (kids st el) →
  array st a = [] →
  ∃ data st1 st2,
    useChildren [] el newVNode oldVNode commit a driver st = Some (data, st1)
    ∧ flushAll (array st1 a) st1 = Some st2
    ∧ kids st2 el = list_difference (kids st el) cs
    ∧ made st2 = made st.
Proof.
  intros Hd Hall Hpicked Hnd Harr.
  assert (Forall2 (λ d c, index (kids st el) (toUint32 (Z.of_nat d.2))
                          = Some c) ds cs
          ∧ NoDup ((λ d : Delta, toUint32 (Z.of_nat d.2)) <$> ds))
    as [Hcs Hpos].
  { destruct Hpicked as [?|(Hsmall & Hcs & Hpos)]; [done|].
    by apply Forall2_small_positions. }
  clear Hpicked.
  assert (concat (deltaEffect el (children newVNode) (kids st el) <$> ds)
          = removeEffect el <$> (Some <$> cs)) as Hes.
  { clear Hd Hpos. induction Hcs as [|d c ds cs Hdc Hcs IH]; [done|].
    cbn [fmap list_fmap concat].
    rewrite IH by (intros d' Hd'; apply Hall; by right).
    unfold deltaEffect at 1, deltaEffectAt.
    rewrite (Hall d) by left. rewrite Hdc. done. }
  set (st1 := queueAll a (removeEffect el <$> (Some <$> cs)) st).
  destruct (queueAll_frame a (removeEffect el <$> (Some <$> cs)) st)
    as (Hc1 & Hp1 & Hm1 & _).
  fold st1 in Hc1, Hp1, Hm1.
  assert (kids st1 el = kids st el) as Hk1 by (unfold kids; by rewrite Hc1).
  destruct (flushAll_removeEffects_any el cs st1) as (st2 & Hrun & Hk & Hm & _).
  { exact (NoDup_picked (λ d : Delta, toUint32 (Z.of_nat d.2)) (kids st el)
             ds cs Hcs Hpos Hnd). }
  { intros c Hin. rewrite Hk1.
    apply list_elem_of_lookup in Hin as [j Hj].
    destruct (Forall2_lookup_r _ _ _ _ _ Hcs Hj) as (d' & Hd' & Hdc').
    apply index_Some in Hdc' as [_ Hdc'].
    by eapply list_elem_of_lookup_2. }
  exists (Data.mk (Some el) newVNode oldVNode a commit driver), st1, st2.
  split.
  { rewrite (useChildren_delta_queue _ _ _ _ _ _ ds) by
      (try done; intros d Hin; by rewrite (Hall d Hin)).
    by rewrite Hes. }
  unfold st1 at 1. rewrite array_queueAll, Harr. cbn [app].
  split; [exact Hrun|]. rewrite Hk, Hk1, Hm, Hm1. done.
Qed.

Lemma X14_delta_remove_replay_witness :
  ∃ data st1 st2,
    useChildren [] 0%nat
      (plainParent []
         (Some [(DeltaTypes.REMOVE, 2%nat); (DeltaTypes.REMOVE, 0%nat)]))
      None defaultCommit 0%nat None sampleStore = Some (data, st1)
    ∧ flushAll (array st1 0%nat) st1 = Some st2
    ∧ kids st2 0%nat = [2%nat].
Proof.
  destruct (X14_delta_remove_replay 0%nat
              (plainParent []
                 (Some [(DeltaTypes.REMOVE, 2%nat);
                        (DeltaTypes.REMOVE, 0%nat)]))
              None defaultCommit 0%nat None
              [(DeltaTypes.REMOVE, 2%nat); (DeltaTypes.REMOVE, 0%nat)]
              [3%nat; 1%nat] sampleStore)
    as (data & st1 & st2 & Hrun & Hflush & Hk & _);
    [reflexivity
    | apply Forall_forall; repeat (constructor; [reflexivity|]); constructor
    | right; split;
        [repeat (constructor; [simpl; lia|]); constructor
        |split; [repeat (constructor; [reflexivity|]); constructor
                |by_computation]]
    | by_computation | reflexivity |].
  exists data, st1, st2.
  split; [exact Hrun|]. split; [exact Hflush|exact Hk].
Defined.

(** ** The generic path on an empty new list *)

Lemma removeLoop_queue el a n :
  ∀ i fr,
    i = Z.of_nat n - 1 →
    forDown n i (removeAt el a) fr
    = Some (mkFrame (effectsVar fr)
              (queueAll a (removeAtEffect el <$>
                             (Z.of_nat <$> reverse (seq 0 n))) (store fr))).
Proof.
  induction n as [|n IH]; intros i fr Hi; [by destruct fr|].
  cbn [forDown].
  change (removeAt el a i fr)
    with (Some (onStore (effect el a EffectTypes.REMOVE
                           (RemoveChild (RefItem i))) fr)).
  cbn [mbind option_bind].
  rewrite (IH (i - 1)) by lia. cbn [onStore effectsVar store].
  rewrite seq_S, reverse_app. cbn [reverse rev_append app Nat.add].
  rewrite !fmap_cons.
  assert (i = Z.of_nat n) as -> by lia. reflexivity.
Qed.

Lemma useChildren_clear el newVNode oldVNode commit a driver st :
  delta newVNode = None →
  children newVNode = Some (ChildArray []) →
  flag newVNode ≠ Flags.ELEMENT_NO_CHILDREN →
  flag newVNode ≠ Flags.ELEMENT_KEYED_CHILDREN →
  flag newVNode ≠ Flags.ELEMENT_TEXT_CHILDREN →
  oldVNodeChildren oldVNode ≠ [] →
  useChildren [] el newVNode oldVNode commit a driver st
  = Some (Data.mk (Some el) newVNode oldVNode a commit driver,
          queueAll a
            (removeAtEffect el <$>
               (Z.of_nat <$>
                  reverse (seq 0 (length (oldVNodeChildren oldVNode))))) st).
Proof.
  intros Hd Hc Hf1 Hf2 Hf3 Hold. unfold useChildren, newVNodeChildren.
  rewrite Hd, Hc. cbn [truthy negb elements].
  rewrite !decide_False by done. rewrite oldEmpty_test.
  rewrite bool_decide_eq_false_2 by (by destruct (oldVNodeChildren oldVNode)).
  unfold genericPath. rewrite truthy_old by done. cbn [length].
  rewrite Z.min_r by lia. cbn [Z.to_nat forDown mbind option_bind].
  rewrite bool_decide_eq_false_2 by lia.
  rewrite bool_decide_eq_true_2
    by (destruct (oldVNodeChildren oldVNode); [done|simpl; lia]).
  rewrite Z.sub_0_r, Nat2Z.id.
  change (Z.to_nat (Z.of_nat 0)) with 0%nat. cbn [forDown mbind option_bind].
  rewrite removeLoop_queue by done. done.
Qed.

Lemma flush_removeAtEffect el i st :
  flush (removeAtEffect el i) st = removeChild el (item st el i) st.
Proof. reflexivity. Qed.

Lemma flushAll_removeAt el n :
  ∀ (K : list DOMNode) st,
    kids st el = K → NoDup K → (n ≤ length K)%nat →
    ∃ st',
      flushAll (removeAtEffect el <$> (Z.of_nat <$> reverse (seq 0 n))) st
      = Some st'
      ∧ kids st' el = drop n K
      ∧ made st' = made st
      ∧ pools st' = pools st.
Proof.
  induction n as [|n IH]; intros K st Hkids Hnd Hn.
  { exists st. by rewrite drop_0. }
  rewrite seq_S, reverse_app. cbn [reverse rev_append app Nat.add].
  rewrite !fmap_cons. cbn [flushAll].
  destruct (lookup_lt_is_Some_2 K n) as [c Hc]; [lia|].
  rewrite flush_removeAtEffect. unfold item.
  rewrite index_of_nat, Hkids, Hc.
  destruct (removeChild_kids el c st)
    as (st1 & -> & Hk1 & Hm1 & _ & Hp1 & _).
  { rewrite Hkids. by eapply list_elem_of_lookup_2. }
  cbn [mbind option_bind].
  pose proof (take_drop_middle K n c Hc) as HK.
  assert (kids st1 el = take n K ++ drop (S n) K) as Hk1'.
  { rewrite Hk1, Hkids. rewrite <- HK at 1.
    apply filter_drop_one. by rewrite HK. }
  destruct (IH (take n K ++ drop (S n) K) st1 Hk1')
    as (st' & Hrun & Hk & Hm & Hp).
  { rewrite <- HK in Hnd. apply NoDup_app in Hnd as (H1 & H2 & H3).
    apply NoDup_cons in H3 as [_ H3]. apply NoDup_app. split; [done|].
    split; [|done]. intros x Hx Hin. eapply H2; [done|by right]. }
  { rewrite length_app, length_take. lia. }
  exists st'. split; [exact Hrun|]. rewrite Hk, Hm, Hp, Hm1, Hp1.
  split; [|done].
  rewrite drop_app_length'; [done|]. rewrite length_take. lia.
Qed.

(** X15: an empty new list on the generic path needs no recursive
    driver: one REMOVE [removeChild(item(i))] per old child is queued,
    highest index first, and nothing else is touched. *)
Theorem X15_generic_clear el newVNode oldVNode commit a driver st :
  delta newVNode = None →
  children newVNode = Some (ChildArray []) →
  flag newVNode ≠ Flags.ELEMENT_NO_CHILDREN →
  flag newVNode ≠ Flags.ELEMENT_KEYED_CHILDREN →
  flag newVNode ≠ Flags.ELEMENT_TEXT_CHILDREN →
  oldVNodeChildren oldVNode ≠ [] →
  ∃ st',
    useChildren [] el newVNode oldVNode commit a driver st
    = Some (Data.mk (Some el) newVNode oldVNode a commit driver, st')
    ∧ array st' a
      = array st a
        ++ (removeAtEffect el <$>
              (Z.of_nat <$>
                 reverse (seq 0 (length (oldVNodeChildren oldVNode)))))
    ∧ childNodes st' = childNodes st
    ∧ pools st' = pools st
    ∧ made st' = made st.
Proof.
  intros Hd Hc Hf1 Hf2 Hf3 Hold. eexists.
  split; [by apply useChildren_clear|].
  rewrite array_queueAll.
  by destruct (queueAll_frame a
    (removeAtEffect el <$>
       (Z.of_nat <$> reverse (seq 0 (length (oldVNodeChildren oldVNode))))) st)
    as (-> & -> & -> & _).
Qed.

Lemma X15_generic_clear_witness :
  ∃ st',
    useChildren [] 0%nat (plainParent [] None)
      (Some (plainParent [VText "a"; VText "b"] None))
      defaultCommit 0%nat None sampleStore
    = Some (Data.mk (Some 0%nat) (plainParent [] None)
              (Some (plainParent [VText "a"; VText "b"] None))
              0%nat defaultCommit None, st')
    ∧ array st' 0%nat = [removeAtEffect 0%nat 1; removeAtEffect 0%nat 0].
Proof.
  destruct (X15_generic_clear 0%nat (plainParent [] None)
              (Some (plainParent [VText "a"; VText "b"] None))
              defaultCommit 0%nat None sampleStore)
    as (st' & Hrun & Harr & _);
    [reflexivity | reflexivity | discriminate | discriminate | discriminate
    | discriminate |].
  exists st'. split; [exact Hrun | exact Harr].
Defined.

(** X16: an empty new list on the generic path: running the queued
    effects drops the first [|old|] host children, and faults when [el]
    has fewer children than the old node had. *)
Theorem X16_generic_clear_replay el newVNode oldVNode commit a driver st :
  delta newVNode = None →
  children newVNode = Some (ChildArray []) →
  flag newVNode ≠ Flags.ELEMENT_NO_CHILDREN →
  flag newVNode ≠ Flags.ELEMENT_KEYED_CHILDREN →
  flag newVNode ≠ Flags.ELEMENT_TEXT_CHILDREN →
  oldVNodeChildren oldVNode ≠ [] →
  array st a = [] →
  NoDup (kids st el) →
  ∃ data st1,
    useChildren [] el newVNode oldVNode commit a driver st = Some (data, st1)
    ∧ ((length (oldVNodeChildren oldVNode) ≤ length (kids st el))%nat →
       ∃ st2,
         flushAll (array st1 a) st1 = Some st2
         ∧ kids st2 el
           = drop (length (oldVNodeChildren oldVNode)) (kids st el)
         ∧ made st2 = made st)
    ∧ ((length (kids st el) < length (oldVNodeChildren oldVNode))%nat →
       flushAll (array st1 a) st1 = None).
Proof.
  intros Hd Hc Hf1 Hf2 Hf3 Hold Harr Hnd. eexists _, _.
  split; [by apply useChildren_clear|].
  rewrite array_queueAll, Harr. cbn [app].
  set (n := length (oldVNodeChildren oldVNode)).
  set (es := removeAtEffect el <$> _).
  destruct (queueAll_frame a es st) as (Hc1 & Hp1 & Hm1 & _).
  set (st1 := queueAll a es st) in *.
  assert (kids st1 el = kids st el) as Hk1 by (unfold kids; by rewrite Hc1).
  split.
  - intros Hn.
    destruct (flushAll_removeAt el n (kids st el) st1 Hk1 Hnd Hn)
      as (st2 & Hrun & Hk & Hm & _).
    exists st2. split; [exact Hrun|]. by rewrite Hk, Hm, Hm1.
  - intros Hn. unfold es.
    destruct n as [|n']; [lia|].
    rewrite seq_S, reverse_app. cbn [reverse rev_append app Nat.add].
    rewrite !fmap_cons. cbn [flushAll].
    rewrite flush_removeAtEffect. unfold item.
    rewrite index_of_nat, Hk1, lookup_ge_None_2 by lia. done.
Qed.

Lemma X16_generic_clear_replay_witness :
  ∃ data st1 st2,
    useChildren [] 0%nat (plainParent [] None)
      (Some (plainParent [VText "a"; VText "b"] None))
      defaultCommit 0%nat None sampleStore = Some (data, st1)
    ∧ flushAll (array st1 0%nat) st1 = Some st2
    ∧ kids st2 0%nat = [3%nat].
Proof.
  destruct (X16_generic_clear_replay 0%nat (plainParent [] None)
              (Some (plainParent [VText "a"; VText "b"] None))
              defaultCommit 0%nat None sampleStore)
    as (data & st1 & Hrun & Hin & _);
    [reflexivity | reflexivity | discriminate | discriminate | discriminate
    | discriminate | reflexivity | by_computation |].
  destruct Hin as (st2 & Hflush & Hk & _); [vm_compute; lia|].
  exists data, st1, st2.
  split; [exact Hrun|]. split; [exact Hflush|exact Hk].
Defined.

(** ** A block replaced by children with other keys: [8], [10], [11] *)

Lemma flushAll_app es1 es2 st :
  flushAll (es1 ++ es2) st = (st' ← flushAll es1 st; flushAll es2 st').
Proof.
  revert st. induction es1 as [|e es1 IH]; intros st; [done|].
  cbn [app flushAll]. destruct (flush e st); [apply IH|done].
Qed.

Lemma mapSet_fresh {V} k (v : V) m :
  k ∉ m.*1 → mapSet k v m = m ++ [(k, v)].
Proof.
  induction m as [|[k0 v0] m IH]; intros Hk; [done|].
  rewrite fmap_cons in Hk. apply not_elem_of_cons in Hk as [Hne Hk].
  cbn [mapSet]. rewrite decide_False by (intros ->; done).
  by rewrite IH.
Qed.

Lemma mapGet_None {V} k (m : list (Key * V)) :
  k ∉ m.*1 → mapGet k m = None.
Proof.
  induction m as [|[k0 v0] m IH]; intros Hk; [done|].
  rewrite fmap_cons in Hk. apply not_elem_of_cons in Hk as [Hne Hk].
  cbn [mapGet]. rewrite decide_False by (intros ->; done).
  by apply IH.
Qed.

Section KeyedReplace.
Variable el : DOMNode.
Variable oldVNode : option VElement.
Variable a : loc.
Variable new : list VNode.

Let old := oldVNodeChildren oldVNode.

Lemma keyEntries_keys p m : (keyEntries p m).*1 = key <$> m.
Proof.
  unfold keyEntries. revert p. induction m as [|v m IH]; intros p; [done|].
  cbn [imap fmap list_fmap]. f_equal.
  rewrite <- (IH (p ++ [v])). f_equal. apply imap_ext.
  intros j v' _. unfold compose. rewrite length_app. simpl.
  do 2 f_equal. lia.
Qed.

Lemma indexStep_eq i v acc :
  index old i = Some v →
  indexStep oldVNode i acc = Some (mapSet (key v) i acc).
Proof. intros Hv. unfold indexStep. fold old. by rewrite Hv. Qed.

Lemma indexLoop_run m :
  ∀ p s acc,
    old = p ++ m ++ s →
    NoDup (acc.*1 ++ (key <$> m)) →
    forUp (length m) (Z.of_nat (length p)) (indexStep oldVNode) acc
    = Some (acc ++ keyEntries p m).
Proof.
  induction m as [|v m IH]; intros p s acc Hold Hnd.
  { simpl. by rewrite app_nil_r. }
  cbn [length forUp].
  assert (index old (Z.of_nat (length p)) = Some v) as Hv.
  { rewrite index_of_nat, Hold, lookup_app_r, Nat.sub_diag by lia. done. }
  rewrite (indexStep_eq _ _ _ Hv). cbn [mbind option_bind].
  rewrite fmap_cons in Hnd.
  rewrite mapSet_fresh.
  2:{ apply NoDup_app in Hnd as (_ & Hdisj & _). intros Hin.
      eapply Hdisj; [done|left]. }
  replace (Z.of_nat (length p) + 1) with (Z.of_nat (length (p ++ [v])))
    by (rewrite length_app; simpl; lia).
  rewrite (IH (p ++ [v]) s).
  - rewrite <- app_assoc. do 2 f_equal. unfold keyEntries. cbn [imap app].
    f_equal; [by rewrite Nat.add_0_r|].
    apply imap_ext. intros j v' _. unfold compose.
    rewrite length_app. simpl. do 2 f_equal. lia.
  - by rewrite Hold, <- app_assoc.
  - rewrite fmap_app, <- app_assoc. done.
Qed.

(** [10] alone: no new child of the range has its key in the map. *)
Lemma walkLoop_insert n :
  ∀ i oldKeyMap st,
    (∀ j : nat, (j < n)%nat →
       ∃ v, index new (i + Z.of_nat j) = Some v
            ∧ mapGet (key v) oldKeyMap = None) →
    forUp n i (walkStep el a new) (oldKeyMap, st)
    = (st' ← forUp n i (insertStep el a new) st; Some (oldKeyMap, st')).
Proof.
  induction n as [|n IH]; intros i oldKeyMap st Hall; [done|].
  cbn [forUp].
  destruct (Hall 0%nat) as (v & Hv & Hget); [lia|].
  rewrite Z.add_0_r in Hv.
  rewrite (insertStep_eq el a new i v st Hv).
  assert (walkStep el a new i (oldKeyMap, st)
          = Some (oldKeyMap,
                  queueEffect el a EffectTypes.CREATE
                    (InsertBefore
                       (CachedOrCreate (mjoin (pool st el !! key v)) (Some v))
                       (RefItem i))
                    (poolGet el (key v) st).2)) as ->.
  { unfold walkStep. rewrite Hv. cbn [mbind option_bind]. by rewrite Hget. }
  cbn [mbind option_bind]. apply IH.
  intros j Hj. destruct (Hall (S j)) as (v' & Hv' & Hget'); [lia|].
  exists v'. split; [|done]. rewrite <- Hv'. f_equal. lia.
Qed.

(** [11] over the entries of [m] is [7] over [m]. *)
Lemma cleanLoop_remove m :
  ∀ p s st,
    old = p ++ m ++ s →
    forEach (keyEntries p m) (cleanStep el a) st
    = forUp (length m) (Z.of_nat (length p)) (removeStep el oldVNode a) st.
Proof.
  induction m as [|v m IH]; intros p s st Hold; [done|].
  unfold keyEntries. cbn [imap forEach length forUp].
  assert (index old (Z.of_nat (length p)) = Some v) as Hv.
  { rewrite index_of_nat, Hold, lookup_app_r, Nat.sub_diag by lia. done. }
  rewrite (removeStep_eq el oldVNode a _ _ _ Hv).
  rewrite Nat.add_0_r.
  change (cleanStep el a (key v, Z.of_nat (length p)) st)
    with (Some (queueEffect el a EffectTypes.REMOVE
                  (RemoveChild (RefCaptured (item st el (Z.of_nat (length p)))))
                  (poolSet el (key v) (item st el (Z.of_nat (length p))) st))).
  cbn [mbind option_bind].
  replace (Z.of_nat (length p) + 1) with (Z.of_nat (length (p ++ [v])))
    by (rewrite length_app; simpl; lia).
  rewrite <- (IH (p ++ [v]) s) by (by rewrite Hold, <- app_assoc).
  f_equal. unfold keyEntries. apply imap_ext. intros j v' _. unfold compose.
  rewrite length_app. simpl. do 2 f_equal. lia.
Qed.

Lemma keyedPath_replace p m s p' m' s' st :
  old = p ++ m ++ s → new = p' ++ m' ++ s' →
  key <$> p = key <$> p' → key <$> s = key <$> s' →
  NoDup (key <$> old) →
  m ≠ [] → m' ≠ [] →
  (∀ v v', v ∈ m → v' ∈ m' → key v ≠ key v') →
  ∃ st',
    keyedPath el oldVNode a new st = Some st'
    ∧ array st' a
      = array st a
        ++ imap (λ j v, insertEffect el (mjoin (pool st el !! key v)) v
                          (Z.of_nat (length p + j))) m'
        ++ ((λ j, removeEffect el (kids st el !! j))
              <$> seq (length p) (length m))
    ∧ childNodes st' = childNodes st
    ∧ made st' = made st
    ∧ (∀ k, k ∉ key <$> m → pool st' el !! k = pool st el !! k)
    ∧ (∀ (j : nat) v, m !! j = Some v →
         pool st' el !! key v = Some (kids st el !! (length p + j)%nat)).
Proof.
  intros Hold Hnew Hp Hs Hnd Hm Hm' Hdisj.
  pose proof (same_keys_length _ _ Hp) as Hlp.
  assert (0 < length m)%nat as Hm0 by (destruct m; [done|simpl; lia]).
  assert (0 < length m')%nat as Hm0' by (destruct m'; [done|simpl; lia]).
  assert (∀ i : Z, 0 ≤ i < Z.of_nat (length m) →
            ∃ v, index old (Z.of_nat (length p) + i) = Some v ∧ v ∈ m) as Hio.
  { intros i Hi. destruct (index_lookup m i Hi) as (v & Hv & Hin).
    exists v. split; [|done]. fold old. rewrite Hold, index_app_r by lia.
    rewrite index_app_l by lia. rewrite <- Hv. f_equal. lia. }
  assert (∀ i : Z, 0 ≤ i < Z.of_nat (length m') →
            ∃ v, index new (Z.of_nat (length p) + i) = Some v ∧ v ∈ m') as Hin.
  { intros i Hi. destruct (index_lookup m' i Hi) as (v & Hv & Hin).
    exists v. split; [|done]. rewrite Hnew, index_app_r by lia.
    rewrite index_app_l by lia. rewrite <- Hv. f_equal. lia. }
  destruct (Hio 0) as (vOH & HOH & HOHm); [lia|].
  destruct (Hio (Z.of_nat (length m) - 1)) as (vOT & HOT & HOTm); [lia|].
  destruct (Hin 0) as (vNH & HNH & HNHm); [lia|].
  destruct (Hin (Z.of_nat (length m') - 1)) as (vNT & HNT & HNTm); [lia|].
  rewrite Z.add_0_r in HOH, HNH.
  replace (Z.of_nat (length p) + (Z.of_nat (length m) - 1))
    with (Z.of_nat (length p + length m) - 1) in HOT by lia.
  replace (Z.of_nat (length p) + (Z.of_nat (length m') - 1))
    with (Z.of_nat (length p + length m') - 1) in HNT by lia.
  unfold keyedPath.
  rewrite (trim_common el oldVNode a new p m s p' m' s' (poolInit el st)
             Hold Hnew Hp Hs).
  2:{ intros _. exists vOT, vNT. split; [done|]. split; [done|].
      by apply Hdisj. }
  rewrite trim_unfold.
  assert (inRange (mkCursors (Z.of_nat (length p)) (Z.of_nat (length p))
                     (Z.of_nat (length p + length m) - 1)
                     (Z.of_nat (length p + length m') - 1)) = true) as ->
    by (apply inRange_spec; simpl; lia).
  rewrite (trimStep_other el oldVNode a new _ _ vOT vNT vOH vNH)
    by (try done; by apply Hdisj).
  rewrite !decide_False by (by apply Hdisj).
  cbn [mbind option_bind oldHead oldTail newHead newTail].
  rewrite !bool_decide_eq_false_2 by lia.
  unfold span.
  replace (Z.to_nat (Z.of_nat (length p + length m) - 1
                     - Z.of_nat (length p) + 1)) with (length m) by lia.
  replace (Z.to_nat (Z.of_nat (length p + length m') - 1
                     - Z.of_nat (length p) + 1)) with (length m') by lia.
  rewrite (indexLoop_run m p s [] Hold).
  2:{ cbn [fmap list_fmap app]. fold old in Hnd. rewrite Hold in Hnd.
      rewrite !fmap_app in Hnd.
      apply NoDup_app in Hnd as (_ & _ & Hnd).
      by apply NoDup_app in Hnd as (Hnd & _). }
  cbn [mbind option_bind app].
  rewrite walkLoop_insert.
  2:{ intros j Hj. destruct (Hin (Z.of_nat j)) as (v & Hv & Hvm); [lia|].
      exists v. split; [done|]. apply mapGet_None. rewrite keyEntries_keys.
      intros (vo & Hk & Hvo)%list_elem_of_fmap. by eapply (Hdisj vo v). }
  destruct (insertLoop_run el a new m' p' s' (poolInit el st) Hnew)
    as (st1 & Hrun1 & Harr1 & Hc1 & Hmade1 & Hpo1).
  rewrite <- Hlp in Hrun1, Harr1. rewrite Hrun1.
  cbn [mbind option_bind].
  rewrite (cleanLoop_remove m p s st1 Hold).
  destruct (removeLoop_run el oldVNode a m p s st1 Hold)
    as (st2 & -> & Harr2 & Hc2 & Hmade2 & Hpo2 & Hpi2).
  exists st2. split; [done|].
  assert (kids st1 el = kids st el) as Hk1.
  { unfold kids. by rewrite Hc1, childNodes_poolInit. }
  assert (pool st1 el = pool st el) as Hp1.
  { unfold pool at 1. rewrite Hpo1. apply pool_poolInit. }
  split.
  { rewrite Harr2, Harr1, Hk1, <- app_assoc.
    assert (array (poolInit el st) a = array st a) as ->
      by (unfold array; by rewrite arrays_poolInit).
    f_equal. f_equal.
    apply imap_ext. intros j v Hj. simpl. by rewrite pool_poolInit. }
  split; [by rewrite Hc2, Hc1, childNodes_poolInit|].
  split.
  { rewrite Hmade2, Hmade1. unfold poolInit. by destruct (pools st !! el). }
  split.
  - intros k Hk. by rewrite Hpo2, Hp1.
  - intros j v Hj. rewrite Hpi2 with (j := j) (v := v); [by rewrite Hk1|..|done].
    fold old in Hnd. rewrite Hold in Hnd. rewrite !fmap_app in Hnd.
    apply NoDup_app in Hnd as (_ & _ & Hnd).
    by apply NoDup_app in Hnd as (Hnd & _).
Qed.

End KeyedReplace.

(** X17: a block of old children replaced by a block of children with
    other keys, between a common prefix and a common suffix: one
    insertion per new child, then one removal per old child, whose host
    node goes to the pool under its key. *)
Theorem X17_keyed_replace
    el newVNode oldVNode commit a driver new p m s p' m' s' st :
  delta newVNode = None →
  flag newVNode = Flags.ELEMENT_KEYED_CHILDREN →
  children newVNode = Some (ChildArray new) →
  oldVNodeChildren oldVNode = p ++ m ++ s →
  new = p' ++ m' ++ s' →
  key <$> p = key <$> p' →
  key <$> s = key <$> s' →
  NoDup (key <$> p ++ m ++ s) →
  m ≠ [] → m' ≠ [] →
  (∀ v v', v ∈ m → v' ∈ m' → key v ≠ key v') →
  ∃ st',
    useChildren [] el newVNode oldVNode commit a driver st
    = Some (Data.mk (Some el) newVNode oldVNode a commit driver, st')
    ∧ array st' a
      = array st a
        ++ imap (λ j v, insertEffect el (mjoin (pool st el !! key v)) v
                          (Z.of_nat (length p + j))) m'
        ++ ((λ j, removeEffect el (kids st el !! j))
              <$> seq (length p) (length m))
    ∧ childNodes st' = childNodes st
    ∧ made st' = made st
    ∧ (∀ k, k ∉ key <$> m → pool st' el !! k = pool st el !! k)
    ∧ (∀ (j : nat) v, m !! j = Some v →
         pool st' el !! key v = Some (kids st el !! (length p + j)%nat)).
Proof.
  intros Hd Hf Hc Hold Hnew Hp Hs Hnd Hm Hm' Hdisj.
  destruct (keyedPath_replace el oldVNode a new p m s p' m' s' st)
    as (st' & Hrun & Hrest); try done.
  { by rewrite Hold. }
  exists st'. split; [|exact Hrest].
  rewrite (useChildren_keyed _ _ _ _ _ _ new); try done.
  - by rewrite Hrun.
  - rewrite Hold. destruct m; [done|]. by destruct p.
Qed.

Lemma X17_keyed_replace_witness :
  ∃ st',
    useChildren [] 0%nat
      (keyedParent [keyedChild "a"; keyedChild "x"; keyedChild "c"])
      (Some (keyedParent [keyedChild "a"; keyedChild "b"; keyedChild "c"]))
      defaultCommit 0%nat None sampleStore
    = Some (Data.mk (Some 0%nat)
              (keyedParent [keyedChild "a"; keyedChild "x"; keyedChild "c"])
              (Some (keyedParent
                       [keyedChild "a"; keyedChild "b"; keyedChild "c"]))
              0%nat defaultCommit None, st')
    ∧ array st' 0%nat
      = [insertEffect 0%nat None (keyedChild "x") 1;
         removeEffect 0%nat (Some 2%nat)]
    ∧ pool st' 0%nat !! Some "b" = Some (Some 2%nat).
Proof.
  destruct (X17_keyed_replace 0%nat
              (keyedParent [keyedChild "a"; keyedChild "x"; keyedChild "c"])
              (Some (keyedParent
                       [keyedChild "a"; keyedChild "b"; keyedChild "c"]))
              defaultCommit 0%nat None
              [keyedChild "a"; keyedChild "x"; keyedChild "c"]
              [keyedChild "a"] [keyedChild "b"] [keyedChild "c"]
              [keyedChild "a"] [keyedChild "x"] [keyedChild "c"] sampleStore)
    as (st' & Hrun & Harr & _ & _ & _ & Hpool);
    [reflexivity | reflexivity | reflexivity | reflexivity | reflexivity
    | reflexivity | reflexivity | by_computation | discriminate
    | discriminate
    | intros v v' ->%list_elem_of_singleton ->%list_elem_of_singleton;
      discriminate
    |].
  exists st'. split; [exact Hrun|]. split; [exact Harr|].
  exact (Hpool 0%nat (keyedChild "b") eq_refl).
Defined.

(** X18: a block of old children replaced by a block of children with
    other keys, when no new child has a pooled node: running the queued
    effects puts one new host node per new child where the host children
    of the old block were, and each of those is in the pool under the key
    of its old child. *)
Theorem X18_keyed_replace_replay
    el newVNode oldVNode commit a driver new p m s p' m' s' kp km ks st :
  delta newVNode = None →
  flag newVNode = Flags.ELEMENT_KEYED_CHILDREN →
  children newVNode = Some (ChildArray new) →
  oldVNodeChildren oldVNode = p ++ m ++ s →
  new = p' ++ m' ++ s' →
  key <$> p = key <$> p' →
  key <$> s = key <$> s' →
  NoDup (key <$> p ++ m ++ s) →
  m ≠ [] → m' ≠ [] →
  (∀ v v', v ∈ m → v' ∈ m' → key v ≠ key v') →
  (∀ v, v ∈ m' → mjoin (pool st el !! key v) = None) →
  array st a = [] →
  kids st el = kp ++ km ++ ks →
  length kp = length p →
  length km = length m →
  NoDup (kp ++ km ++ ks) →
  kidsBelowNext el st →
  ∃ data st1 st2,
    useChildren [] el newVNode oldVNode commit a driver st = Some (data, st1)
    ∧ flushAll (array st1 a) st1 = Some st2
    ∧ kids st2 el = kp ++ seq (nextNode st) (length m') ++ ks
    ∧ made st2 = made st ++ (Some <$> m')
    ∧ ∀ (j : nat) v node, m !! j = Some v → km !! j = Some node →
        pool st2 el !! key v = Some (Some node).
Proof.
  intros Hd Hf Hc Hold Hnew Hp Hs Hnd Hm Hm' Hdisj Hpool Harr Hkids Hlp Hlm
    Hndk Hbelow.
  destruct (keyedPath_replace el oldVNode a new p m s p' m' s' st)
    as (st1 & Hrun & Harr1 & Hc1 & Hm1 & _ & Hpi); try done.
  { by rewrite Hold. }
  assert (array st1 a
          = imap (λ j v, insertEffect el None v (Z.of_nat (length kp + j))) m'
            ++ (removeEffect el <$> (Some <$> km))) as Hq.
  { rewrite Harr1, Harr. cbn [app]. f_equal.
    - apply imap_ext. intros j v Hj. simpl.
      rewrite Hpool by (by eapply list_elem_of_lookup_2). by rewrite Hlp.
    - rewrite <- Hlp, <- Hlm, Hkids.
      rewrite <- (lookups_middle kp km ks). by rewrite <- list_fmap_compose. }
  assert (nextNode st1 = nextNode st) as Hn1.
  { destruct (keyedPath_run el oldVNode a new st)
      as (st1' & bs & Hrun' & [] & _).
    rewrite Hrun in Hrun'. by injection Hrun' as <-. }
  assert (kids st1 el = kp ++ km ++ ks) as Hk1
    by (unfold kids; by rewrite Hc1).
  destruct (flushAll_insertEffects el m' kp (km ++ ks) st1 Hk1 Hndk)
    as (st2 & Hflush2 & Hk2 & Hm2 & Hp2).
  { intros node. unfold kids. rewrite Hc1, Hn1. apply Hbelow. }
  destruct (flushAll_removeEffects el km
              (kp ++ seq (nextNode st1) (length m')) ks st2)
    as (st3 & Hflush3 & Hk3 & Hm3 & Hp3).
  { by rewrite Hk2, <- app_assoc. }
  { rewrite <- app_assoc.
    apply NoDup_app. apply NoDup_app in Hndk as (Hkp & Hdisj1 & Hrest).
    split; [done|]. split.
    - intros x Hx [Hin|Hin]%elem_of_app; [|by eapply Hdisj1].
      apply elem_of_seq in Hin.
      assert (x ∈ kids st el) as Hx'%Hbelow; [|lia].
      rewrite Hkids. apply elem_of_app. by left.
    - apply NoDup_app. split; [apply NoDup_seq|]. split; [|done].
      intros x Hin%elem_of_seq Hx.
      assert (x ∈ kids st el) as Hx'%Hbelow; [|lia].
      rewrite Hkids. apply elem_of_app. by right. }
  eexists _, st1, st3. split.
  { rewrite (useChildren_keyed _ _ _ _ _ _ new); try done.
    - by rewrite Hrun.
    - rewrite Hold. destruct m; [done|]. by destruct p. }
  rewrite Hq, flushAll_app, Hflush2. cbn [mbind option_bind].
  split; [exact Hflush3|].
  split; [by rewrite Hk3, Hn1, <- app_assoc|].
  split; [by rewrite Hm3, Hm2, Hm1|].
  intros j v node Hv Hnode. unfold pool. rewrite Hp3, Hp2. fold (pool st1 el).
  rewrite (Hpi j v Hv), Hkids.
  rewrite lookup_app_r, <- Hlp by lia.
  replace (length kp + j - length kp)%nat with j by lia.
  rewrite lookup_app_l by (apply lookup_lt_Some in Hnode; lia).
  by rewrite Hnode.
Qed.

Lemma X18_keyed_replace_replay_witness :
  ∃ data st1 st2,
    useChildren [] 0%nat
      (keyedParent [keyedChild "a"; keyedChild "x"; keyedChild "c"])
      (Some (keyedParent [keyedChild "a"; keyedChild "b"; keyedChild "c"]))
      defaultCommit 0%nat None sampleStore = Some (data, st1)
    ∧ flushAll (array st1 0%nat) st1 = Some st2
    ∧ kids st2 0%nat = [1; 10; 3]%nat
    ∧ made st2 = [Some (keyedChild "x")]
    ∧ pool st2 0%nat !! Some "b" = Some (Some 2%nat).
Proof.
  destruct (X18_keyed_replace_replay 0%nat
              (keyedParent [keyedChild "a"; keyedChild "x"; keyedChild "c"])
              (Some (keyedParent
                       [keyedChild "a"; keyedChild "b"; keyedChild "c"]))
              defaultCommit 0%nat None
              [keyedChild "a"; keyedChild "x"; keyedChild "c"]
              [keyedChild "a"] [keyedChild "b"] [keyedChild "c"]
              [keyedChild "a"] [keyedChild "x"] [keyedChild "c"]
              [1%nat] [2%nat] [3%nat] sampleStore)
    as (data & st1 & st2 & Hrun & Hflush & Hk & Hm & Hpool);
    [reflexivity | reflexivity | reflexivity | reflexivity | reflexivity
    | reflexivity | reflexivity | by_computation | discriminate
    | discriminate
    | intros v v' ->%list_elem_of_singleton ->%list_elem_of_singleton;
      discriminate
    | intros v ->%list_elem_of_singleton; reflexivity
    | reflexivity | reflexivity | reflexivity | reflexivity
    | by_computation | below_next |].
  exists data, st1, st2.
  split; [exact Hrun|]. split; [exact Hflush|]. split; [exact Hk|].
  split; [exact Hm|].
  exact (Hpool 0%nat (keyedChild "b") 2%nat eq_refl eq_refl).
Defined.

(** ** A block in another order: [8], [9] *)

Lemma mapGet_Some {V} k (v : V) m :
  NoDup m.*1 → (k, v) ∈ m → mapGet k m = Some v.
Proof.
  induction m as [|[k0 v0] m IH]; intros Hnd Hin.
  { by apply elem_of_nil in Hin. }
  rewrite fmap_cons in Hnd. apply NoDup_cons in Hnd as [Hk0 Hnd].
  cbn [mapGet]. apply elem_of_cons in Hin as [[= -> ->]|Hin].
  - by rewrite decide_True.
  - rewrite decide_False; [by apply IH|].
    intros ->. apply Hk0. apply list_elem_of_fmap. by exists (k, v).
Qed.

Lemma elem_of_mapDelete_ne {V} k k' (v' : V) m :
  (k', v') ∈ m → k' ≠ k → (k', v') ∈ mapDelete k m.
Proof.
  induction m as [|[k0 v0] m IH]; intros Hin Hne.
  { by apply elem_of_nil in Hin. }
  cbn [mapDelete]. apply elem_of_cons in Hin as [[= -> ->]|Hin].
  - rewrite decide_False by done. left.
  - case_decide; [done|]. right. by apply IH.
Qed.

Lemma NoDup_mapDelete {V} k (m : list (Key * V)) :
  NoDup m.*1 → NoDup (mapDelete k m).*1.
Proof.
  induction m as [|[k0 v0] m IH]; intros Hnd; [done|].
  rewrite fmap_cons in Hnd. apply NoDup_cons in Hnd as [Hk0 Hnd].
  cbn [mapDelete]. case_decide; [done|].
  rewrite fmap_cons. apply NoDup_cons. split; [|by apply IH].
  intros ([k1 v1] & Hk & Hin)%list_elem_of_fmap. simpl in Hk. subst k1.
  apply Hk0. apply list_elem_of_fmap. exists (k0, v1). split; [done|].
  by eapply elem_of_mapDelete.
Qed.

Lemma length_mapDelete {V} k (v : V) m :
  (k, v) ∈ m → S (length (mapDelete k m)) = length m.
Proof.
  induction m as [|[k0 v0] m IH]; intros Hin.
  { by apply elem_of_nil in Hin. }
  cbn [mapDelete length]. case_decide; [done|].
  apply elem_of_cons in Hin as [[= -> ->]|Hin]; [done|].
  cbn [length]. by rewrite IH.
Qed.

Lemma keyEntries_lookup p m (i : nat) vo :
  m !! i = Some vo → (key vo, Z.of_nat (length p + i)) ∈ keyEntries p m.
Proof.
  intros Hi. unfold keyEntries. apply elem_of_lookup_imap.
  by exists i, vo.
Qed.

Section KeyedReorder.
Variable el : DOMNode.
Variable oldVNode : option VElement.
Variable a : loc.
Variable new : list VNode.

Let old := oldVNodeChildren oldVNode.

Lemma walkStep_move head v oldIndex oldKeyMap st :
  index new head = Some v →
  mapGet (key v) oldKeyMap = Some oldIndex →
  walkStep el a new head (oldKeyMap, st)
  = Some (mapDelete (key v) oldKeyMap,
          queueEffect el a EffectTypes.CREATE
            (InsertBefore (Captured (item st el oldIndex)) (RefItem head)) st).
Proof.
  intros Hv Hget. unfold walkStep. rewrite Hv. cbn [mbind option_bind].
  by rewrite Hget.
Qed.

(** [9] alone: every new child of the range has its key in the map, at
    the index [base + i] of its old child. *)
Lemma walkLoop_move (base : nat) m2 :
  ∀ (σ : list nat) pre s2 oldKeyMap st,
    new = pre ++ m2 ++ s2 →
    NoDup oldKeyMap.*1 →
    NoDup (key <$> m2) →
    Forall2 (λ v (i : nat), (key v, Z.of_nat (base + i)) ∈ oldKeyMap) m2 σ →
    ∃ oldKeyMap' st',
      forUp (length m2) (Z.of_nat (length pre)) (walkStep el a new)
        (oldKeyMap, st) = Some (oldKeyMap', st')
      ∧ (length oldKeyMap' + length m2 = length oldKeyMap)%nat
      ∧ array st' a
        = array st a
          ++ imap (λ j (i : nat),
                     leftMoveEffect el (kids st el !! (base + i)%nat)
                       (Z.of_nat (length pre + j))) σ
      ∧ childNodes st' = childNodes st
      ∧ made st' = made st
      ∧ pools st' = pools st.
Proof.
  induction m2 as [|v m2 IH]; intros σ pre s2 M st Hnew HndM Hnd Hall.
  { apply Forall2_nil_inv_l in Hall as ->. exists M, st. simpl.
    rewrite app_nil_r. repeat split; try done; lia. }
  apply Forall2_cons_inv_l in Hall as (i & σ2 & Hi & Hall & ->).
  rewrite fmap_cons in Hnd. apply NoDup_cons in Hnd as [Hv Hnd].
  cbn [length forUp].
  assert (index new (Z.of_nat (length pre)) = Some v) as Hidx.
  { rewrite index_of_nat, Hnew, lookup_app_r, Nat.sub_diag by lia. done. }
  rewrite (walkStep_move _ v (Z.of_nat (base + i)) M st Hidx)
    by (by apply mapGet_Some).
  cbn [mbind option_bind].
  set (st1 := queueEffect el a _ _ _).
  destruct (IH σ2 (pre ++ [v]) s2 (mapDelete (key v) M) st1)
    as (M' & st' & Hrun & Hlen & Harr & Hc & Hm & Hp).
  { by rewrite Hnew, <- app_assoc. }
  { by apply NoDup_mapDelete. }
  { done. }
  { clear IH Hnd Hidx Hnew. revert Hv.
    induction Hall as [|v' i' m2' σ2' Hvi Hall IH'];
      intros Hv; [constructor|].
    rewrite fmap_cons in Hv.
    apply not_elem_of_cons in Hv as [Hne Hv].
    constructor; [|by apply IH'].
    apply elem_of_mapDelete_ne; [done|]. congruence. }
  rewrite length_app in Hrun, Harr. cbn [length] in Hrun, Harr.
  replace (Z.of_nat (length pre) + 1) with (Z.of_nat (length pre + 1)) by lia.
  exists M', st'. split; [exact Hrun|].
  pose proof (length_mapDelete _ _ _ Hi) as HlenM.
  split; [lia|]. split; [|by rewrite Hc, Hm, Hp].
  rewrite Harr. unfold st1, queueEffect. rewrite array_effect.
  rewrite <- app_assoc. f_equal. cbn [imap app]. f_equal.
  - unfold leftMoveEffect, item. rewrite index_of_nat, Nat.add_0_r. done.
  - apply imap_ext. intros j i' _. unfold compose.
    replace (length pre + 1 + j)%nat with (length pre + S j)%nat by lia.
    done.
Qed.

Lemma keyedPath_reorder p m s p' m' s' (σ : list nat) vOH vOT vNH vNT st :
  old = p ++ m ++ s → new = p' ++ m' ++ s' →
  key <$> p = key <$> p' → key <$> s = key <$> s' →
  NoDup (key <$> old) →
  NoDup (key <$> m') →
  length m' = length m →
  Forall2 (λ v (i : nat), ∃ vo, m !! i = Some vo ∧ key vo = key v) m' σ →
  head m = Some vOH → last m = Some vOT →
  head m' = Some vNH → last m' = Some vNT →
  key vOT ≠ key vNT → key vOH ≠ key vNH →
  key vOH ≠ key vNT → key vOT ≠ key vNH →
  ∃ st',
    keyedPath el oldVNode a new st = Some st'
    ∧ array st' a
      = array st a
        ++ imap (λ j (i : nat),
                   leftMoveEffect el (kids st el !! (length p + i)%nat)
                     (Z.of_nat (length p + j))) σ
    ∧ childNodes st' = childNodes st
    ∧ made st' = made st
    ∧ pool st' el = pool st el.
Proof.
  intros Hold Hnew Hp Hs Hnd Hnd' Hlen Hσ HOH HOT HNH HNT Hk1 Hk2 Hk3 Hk4.
  pose proof (same_keys_length _ _ Hp) as Hlp.
  assert (0 < length m)%nat as Hm0 by (destruct m; [done|simpl; lia]).
  assert (index old (Z.of_nat (length p)) = Some vOH) as HOH'.
  { fold old. rewrite Hold, index_app_r, Z.sub_diag by lia.
    rewrite index_app_l by lia. by rewrite <- HOH, head_lookup. }
  assert (index new (Z.of_nat (length p)) = Some vNH) as HNH'.
  { rewrite Hnew, index_app_r by lia.
    replace (Z.of_nat (length p) - Z.of_nat (length p')) with 0 by lia.
    rewrite index_app_l by lia. by rewrite <- HNH, head_lookup. }
  assert (index old (Z.of_nat (length p + length m) - 1) = Some vOT) as HOT'.
  { fold old. rewrite Hold, index_app_r by lia. rewrite index_app_l by lia.
    rewrite last_lookup in HOT. rewrite <- HOT. unfold index.
    rewrite bool_decide_eq_true_2 by lia. f_equal. lia. }
  assert (index new (Z.of_nat (length p + length m') - 1) = Some vNT) as HNT'.
  { rewrite Hnew, index_app_r by lia. rewrite index_app_l by lia.
    rewrite last_lookup in HNT. rewrite <- HNT. unfold index.
    rewrite bool_decide_eq_true_2 by lia. f_equal. lia. }
  unfold keyedPath.
  rewrite (trim_common el oldVNode a new p m s p' m' s' (poolInit el st)
             Hold Hnew Hp Hs).
  2:{ intros _. by exists vOT, vNT. }
  rewrite trim_unfold.
  assert (inRange (mkCursors (Z.of_nat (length p)) (Z.of_nat (length p))
                     (Z.of_nat (length p + length m) - 1)
                     (Z.of_nat (length p + length m') - 1)) = true) as ->
    by (apply inRange_spec; simpl; lia).
  rewrite (trimStep_other el oldVNode a new _ _ vOT vNT vOH vNH) by done.
  rewrite !decide_False by done.
  cbn [mbind option_bind oldHead oldTail newHead newTail].
  rewrite !bool_decide_eq_false_2 by lia.
  unfold span.
  replace (Z.to_nat (Z.of_nat (length p + length m) - 1
                     - Z.of_nat (length p) + 1)) with (length m) by lia.
  replace (Z.to_nat (Z.of_nat (length p + length m') - 1
                     - Z.of_nat (length p) + 1)) with (length m') by lia.
  assert (NoDup (key <$> m)) as Hndm.
  { fold old in Hnd. rewrite Hold in Hnd. rewrite !fmap_app in Hnd.
    apply NoDup_app in Hnd as (_ & _ & Hnd).
    by apply NoDup_app in Hnd as (Hnd & _). }
  rewrite (indexLoop_run oldVNode m p s [] Hold) by done.
  cbn [mbind option_bind app].
  destruct (walkLoop_move (length p) m' σ p' s' (keyEntries p m)
              (poolInit el st) Hnew)
    as (M' & st1 & Hrun & HlenM & Harr & Hc & Hmade & Hpools).
  { by rewrite keyEntries_keys. }
  { done. }
  { eapply Forall2_impl; [exact Hσ|].
    intros v i (vo & Hvo & <-). by apply keyEntries_lookup. }
  rewrite <- Hlp in Hrun, Harr. rewrite Hrun. cbn [mbind option_bind].
  assert (M' = []) as ->.
  { apply length_zero_iff_nil.
    unfold keyEntries in HlenM. rewrite length_imap in HlenM. lia. }
  cbn [forEach]. exists st1. split; [done|].
  split.
  { rewrite Harr.
    assert (array (poolInit el st) a = array st a) as ->
      by (unfold array; by rewrite arrays_poolInit).
    f_equal. apply imap_ext. intros j i _. unfold kids.
    by rewrite childNodes_poolInit. }
  split; [by rewrite Hc, childNodes_poolInit|].
  split.
  { rewrite Hmade. unfold poolInit. by destruct (pools st !! el). }
  unfold pool at 1. rewrite Hpools. apply pool_poolInit.
Qed.

End KeyedReorder.

(** ** Running a reordering *)

Lemma nextSibling_middle node (L R : list DOMNode) :
  node ∉ L → nextSibling node (L ++ node :: R) = head R.
Proof.
  induction L as [|c L IH]; intros Hnot; simpl.
  - by rewrite decide_True.
  - apply not_elem_of_cons in Hnot as [Hne Hnot].
    rewrite decide_False by done. by apply IH.
Qed.

(** [insertBefore(node, node)]: the reference becomes the next sibling,
    and the node stays where it is. *)
Lemma insertBefore_self el node (L R : list DOMNode) st :
  kids st el = L ++ node :: R →
  NoDup (L ++ node :: R) →
  ∃ st',
    insertBefore el (Some node) (Some node) st = Some st'
    ∧ kids st' el = L ++ node :: R
    ∧ made st' = made st ∧ nextNode st' = nextNode st
    ∧ pools st' = pools st.
Proof.
  intros Hkids Hnd. unfold insertBefore.
  rewrite bool_decide_eq_true_2
    by (rewrite Hkids; apply elem_of_app; right; left).
  rewrite decide_True by done.
  eexists. split; [done|]. split; [|done].
  unfold kids at 1. simpl. rewrite lookup_insert_eq. simpl.
  rewrite kids_detach, Hkids, (filter_drop_one L R node Hnd).
  pose proof Hnd as Hnd'.
  apply NoDup_app in Hnd' as (_ & Hdisj & Hnd').
  apply NoDup_cons in Hnd' as [HnR _].
  rewrite nextSibling_middle by (intros Hin; eapply Hdisj; [done|left]).
  destruct R as [|r R]; [by rewrite app_nil_r|]. cbn [head].
  apply placeBefore_app. intros Hin. eapply Hdisj; [done|by right; left].
Qed.

Lemma flush_leftMoveEffect_any el node (L R : list DOMNode) st :
  kids st el = L ++ R →
  NoDup (L ++ R) →
  node ∈ R →
  ∃ st',
    flush (leftMoveEffect el (Some node) (Z.of_nat (length L))) st = Some st'
    ∧ kids st' el = L ++ node :: filter (λ c, c ≠ node) R
    ∧ made st' = made st ∧ nextNode st' = nextNode st
    ∧ pools st' = pools st.
Proof.
  intros Hkids Hnd Hin. unfold flush, leftMoveEffect.
  cbn [eff_flush eff_el evalNode mbind option_bind evalRef].
  assert (item st el (Z.of_nat (length L)) = R !! 0%nat) as ->.
  { unfold item. rewrite index_of_nat, Hkids, lookup_app_r by lia.
    by rewrite Nat.sub_diag. }
  assert (node ∉ L) as HnL.
  { apply NoDup_app in Hnd as (_ & Hdisj & _). intros HL. by eapply Hdisj. }
  destruct R as [|r R]; [by apply elem_of_nil in Hin|].
  cbn [lookup list_lookup].
  destruct (decide (r = node)) as [->|Hne].
  - rewrite filter_cons_False by (intros H; by apply H).
    rewrite filter_all.
    2:{ intros x Hx ->. apply NoDup_app in Hnd as (_ & _ & Hnd).
        by apply NoDup_cons in Hnd as [? _]. }
    by apply insertBefore_self.
  - rewrite filter_cons_True by done.
    apply (insertBefore_place el node L (r :: filter (λ c, c ≠ node) R) st).
    + rewrite Hkids, filter_app, (filter_all _ L) by (by intros x Hx ->).
      by rewrite filter_cons_True.
    + apply NoDup_app in Hnd as (HL & Hdisj & HR).
      apply NoDup_app. split; [done|]. split.
      * intros x Hx [->|Hx'%list_elem_of_filter]%elem_of_cons.
        -- eapply Hdisj; [done|left].
        -- eapply Hdisj; [done|]. right. by destruct Hx'.
      * apply NoDup_cons in HR as [Hr HR]. apply NoDup_cons. split.
        -- intros [_ ?]%list_elem_of_filter. done.
        -- by apply NoDup_filter.
Qed.

Lemma flushAll_leftMoves el ns :
  ∀ (L R : list DOMNode) st,
    kids st el = L ++ R →
    NoDup (L ++ R) →
    NoDup ns →
    (∀ n, n ∈ ns → n ∈ R) →
    ∃ st',
      flushAll (imap (λ j n, leftMoveEffect el (Some n)
                               (Z.of_nat (length L + j))) ns) st = Some st'
      ∧ kids st' el = L ++ ns ++ list_difference R ns
      ∧ made st' = made st
      ∧ pools st' = pools st.
Proof.
  induction ns as [|n ns IH]; intros L R st Hkids Hnd Hns Hin.
  { exists st. cbn [imap flushAll app]. by rewrite list_difference_nil_r. }
  apply NoDup_cons in Hns as [Hn Hns].
  destruct (flush_leftMoveEffect_any el n L R st Hkids Hnd)
    as (st1 & Hflush & Hk1 & Hm1 & _ & Hp1); [apply Hin; left|].
  destruct (IH (L ++ [n]) (filter (λ c, c ≠ n) R) st1)
    as (st' & Hrun & Hk & Hm & Hp).
  { by rewrite Hk1, <- app_assoc. }
  { rewrite <- app_assoc. cbn [app].
    apply NoDup_app in Hnd as (HL & Hdisj & HR).
    apply NoDup_app. split; [done|]. split.
    - intros x Hx [->|Hx'%list_elem_of_filter]%elem_of_cons.
      + eapply Hdisj; [done|]. apply Hin. left.
      + eapply Hdisj; [done|]. by destruct Hx'.
    - apply NoDup_cons. split.
      + intros [? _]%list_elem_of_filter. done.
      + by apply NoDup_filter. }
  { done. }
  { intros n' Hn'. apply list_elem_of_filter. split.
    - intros ->. done.
    - apply Hin. by right. }
  exists st'. cbn [imap flushAll]. rewrite Nat.add_0_r, Hflush.
  cbn [mbind option_bind]. split.
  { rewrite <- Hrun. f_equal. apply imap_ext. intros j n' _.
    unfold compose. rewrite length_app. cbn [length]. do 2 f_equal. lia. }
  rewrite Hk, Hm, Hp, Hm1, Hp1. split; [|done].
  rewrite <- app_assoc. cbn [app]. by rewrite list_difference_filter.
Qed.

Lemma list_difference_app (l1 l2 k : list DOMNode) :
  list_difference (l1 ++ l2) k = list_difference l1 k ++ list_difference l2 k.
Proof.
  induction l1 as [|c l1 IH]; [done|]. cbn [app list_difference].
  destruct (decide_rel _ c k); [done|]. by rewrite IH.
Qed.

Lemma list_difference_none (l k : list DOMNode) :
  (∀ x, x ∈ l → x ∈ k) → list_difference l k = [].
Proof.
  induction l as [|c l IH]; intros Hall; [done|]. cbn [list_difference].
  destruct (decide_rel _ c k) as [Hc|Hc].
  - apply IH. intros x Hx. apply Hall. by right.
  - destruct Hc. apply Hall. left.
Qed.

Lemma list_difference_id (l k : list DOMNode) :
  (∀ x, x ∈ l → x ∉ k) → list_difference l k = l.
Proof.
  induction l as [|c l IH]; intros Hall; [done|]. cbn [list_difference].
  destruct (decide_rel _ c k) as [Hc|Hc].
  - exfalso. by apply (Hall c); [left|].
  - f_equal. apply IH. intros x Hx. apply Hall. by right.
Qed.

Lemma moved_nodes_NoDup (m m' : list VNode) (σ : list nat)
    (km km' : list DOMNode) :
  NoDup (key <$> m') →
  NoDup km →
  Forall2 (λ v (i : nat), ∃ vo, m !! i = Some vo ∧ key vo = key v) m' σ →
  Forall2 (λ (i : nat) n, km !! i = Some n) σ km' →
  NoDup km'.
Proof.
  intros Hnd Hkm Hσ Hkm'. apply NoDup_alt. intros j1 j2 x H1 H2.
  destruct (Forall2_lookup_r _ _ _ _ _ Hkm' H1) as (i1 & Hi1 & Hx1).
  destruct (Forall2_lookup_r _ _ _ _ _ Hkm' H2) as (i2 & Hi2 & Hx2).
  assert (i1 = i2) as <- by (eapply NoDup_lookup; done).
  destruct (Forall2_lookup_r _ _ _ _ _ Hσ Hi1) as (v1 & Hv1 & vo1 & Hvo1 & Hk1).
  destruct (Forall2_lookup_r _ _ _ _ _ Hσ Hi2) as (v2 & Hv2 & vo2 & Hvo2 & Hk2).
  rewrite Hvo1 in Hvo2. injection Hvo2 as <-.
  eapply (NoDup_lookup (key <$> m')); [done| |].
  - rewrite list_lookup_fmap, Hv1. done.
  - rewrite list_lookup_fmap, Hv2. simpl. by rewrite <- Hk2, Hk1.
Qed.

Lemma moves_captured el (base : nat) (K : list DOMNode) (σ : list nat) :
  ∀ (km' : list DOMNode) (L : nat),
    Forall2 (λ (i : nat) n, K !! (base + i)%nat = Some n) σ km' →
    imap (λ j (i : nat),
            leftMoveEffect el (K !! (base + i)%nat) (Z.of_nat (L + j))) σ
    = imap (λ j n, leftMoveEffect el (Some n) (Z.of_nat (L + j))) km'.
Proof.
  induction σ as [|i σ IH]; intros km' L Hall.
  { by apply Forall2_nil_inv_l in Hall as ->. }
  apply Forall2_cons_inv_l in Hall as (n & km2 & Hn & Hall & ->).
  cbn [imap]. rewrite Hn. f_equal.
  specialize (IH km2 (S L) Hall).
  etrans; [|etrans; [exact IH|]]; apply imap_ext; intros j x _;
    unfold compose; do 2 f_equal; lia.
Qed.

(** X19: a block whose children all stay, in another order, with no
    match at either end of the block: the trim loop stops at once, and
    [9] queues one move [insertBefore(node, item(head))] per child of the
    new block, in the order of the new list, each on the host child at
    the old index of that child; nothing is created, removed or
    pooled. *)
Theorem X19_keyed_reorder
    el newVNode oldVNode commit a driver new p m s p' m' s' (σ : list nat)
    vOH vOT vNH vNT st :
  delta newVNode = None →
  flag newVNode = Flags.ELEMENT_KEYED_CHILDREN →
  children newVNode = Some (ChildArray new) →
  oldVNodeChildren oldVNode = p ++ m ++ s →
  new = p' ++ m' ++ s' →
  key <$> p = key <$> p' →
  key <$> s = key <$> s' →
  NoDup (key <$> p ++ m ++ s) →
  NoDup (key <$> m') →
  length m' = length m →
  Forall2 (λ v (i : nat), ∃ vo, m !! i = Some vo ∧ key vo = key v) m' σ →
  head m = Some vOH → last m = Some vOT →
  head m' = Some vNH → last m' = Some vNT →
  key vOT ≠ key vNT → key vOH ≠ key vNH →
  key vOH ≠ key vNT → key vOT ≠ key vNH →
  ∃ st',
    useChildren [] el newVNode oldVNode commit a driver st
    = Some (Data.mk (Some el) newVNode oldVNode a commit driver, st')
    ∧ array st' a
      = array st a
        ++ imap (λ j (i : nat),
                   leftMoveEffect el (kids st el !! (length p + i)%nat)
                     (Z.of_nat (length p + j))) σ
    ∧ childNodes st' = childNodes st
    ∧ made st' = made st
    ∧ pool st' el = pool st el.
Proof.
  intros Hd Hf Hc Hold Hnew Hp Hs Hnd Hnd' Hlen Hσ HOH HOT HNH HNT
    Hk1 Hk2 Hk3 Hk4.
  destruct (keyedPath_reorder el oldVNode a new p m s p' m' s' σ
              vOH vOT vNH vNT st) as (st' & Hrun & Hrest); try done.
  { by rewrite Hold. }
  exists st'. split; [|exact Hrest].
  rewrite (useChildren_keyed _ _ _ _ _ _ new); try done.
  - by rewrite Hrun.
  - rewrite Hold. destruct m; [done|]. by destruct p.
Qed.

Lemma X19_keyed_reorder_witness :
  ∃ st',
    useChildren [] 0%nat
      (keyedParent [keyedChild "c"; keyedChild "d"; keyedChild "a";
                    keyedChild "b"])
      (Some (keyedParent [keyedChild "a"; keyedChild "b"; keyedChild "c";
                          keyedChild "d"]))
      defaultCommit 0%nat None sampleStore4
    = Some (Data.mk (Some 0%nat)
              (keyedParent [keyedChild "c"; keyedChild "d"; keyedChild "a";
                            keyedChild "b"])
              (Some (keyedParent [keyedChild "a"; keyedChild "b";
                                  keyedChild "c"; keyedChild "d"]))
              0%nat defaultCommit None, st')
    ∧ array st' 0%nat
      = [leftMoveEffect 0%nat (Some 3%nat) 0;
         leftMoveEffect 0%nat (Some 4%nat) 1;
         leftMoveEffect 0%nat (Some 1%nat) 2;
         leftMoveEffect 0%nat (Some 2%nat) 3].
Proof.
  destruct (X19_keyed_reorder 0%nat
              (keyedParent [keyedChild "c"; keyedChild "d"; keyedChild "a";
                            keyedChild "b"])
              (Some (keyedParent [keyedChild "a"; keyedChild "b";
                                  keyedChild "c"; keyedChild "d"]))
              defaultCommit 0%nat None
              [keyedChild "c"; keyedChild "d"; keyedChild "a"; keyedChild "b"]
              []
              [keyedChild "a"; keyedChild "b"; keyedChild "c"; keyedChild "d"]
              [] []
              [keyedChild "c"; keyedChild "d"; keyedChild "a"; keyedChild "b"]
              [] [2; 3; 0; 1]%nat
              (keyedChild "a") (keyedChild "d") (keyedChild "c")
              (keyedChild "b") sampleStore4)
    as (st' & Hrun & Harr & _);
    [reflexivity | reflexivity | reflexivity | reflexivity | reflexivity
    | reflexivity | reflexivity | by_computation | by_computation
    | reflexivity
    | repeat (constructor; [eexists; split; reflexivity|]); constructor
    | reflexivity | reflexivity | reflexivity | reflexivity
    | discriminate | discriminate | discriminate | discriminate |].
  exists st'. split; [exact Hrun | exact Harr].
Defined.

(** X20: a block in another order, with no match at either end: running
    the queued moves puts the host children of the block in the order of
    the new list and leaves the others where they were; the factory is
    not called. *)
Theorem X20_keyed_reorder_replay
    el newVNode oldVNode commit a driver new p m s p' m' s' (σ : list nat)
    vOH vOT vNH vNT kp km ks km' st :
  delta newVNode = None →
  flag newVNode = Flags.ELEMENT_KEYED_CHILDREN →
  children newVNode = Some (ChildArray new) →
  oldVNodeChildren oldVNode = p ++ m ++ s →
  new = p' ++ m' ++ s' →
  key <$> p = key <$> p' →
  key <$> s = key <$> s' →
  NoDup (key <$> p ++ m ++ s) →
  NoDup (key <$> m') →
  length m' = length m →
  Forall2 (λ v (i : nat), ∃ vo, m !! i = Some vo ∧ key vo = key v) m' σ →
  head m = Some vOH → last m = Some vOT →
  head m' = Some vNH → last m' = Some vNT →
  key vOT ≠ key vNT → key vOH ≠ key vNH →
  key vOH ≠ key vNT → key vOT ≠ key vNH →
  array st a = [] →
  kids st el = kp ++ km ++ ks →
  length kp = length p →
  length km = length m →
  NoDup (kp ++ km ++ ks) →
  Forall2 (λ (i : nat) n, km !! i = Some n) σ km' →
  ∃ data st1 st2,
    useChildren [] el newVNode oldVNode commit a driver st = Some (data, st1)
    ∧ flushAll (array st1 a) st1 = Some st2
    ∧ kids st2 el = kp ++ km' ++ ks
    ∧ made st2 = made st
    ∧ pools st2 = pools st1.
Proof.
  intros Hd Hf Hc Hold Hnew Hp Hs Hnd Hnd' Hlen Hσ HOH HOT HNH HNT
    Hk1 Hk2 Hk3 Hk4 Harr Hkids Hlp Hlm Hndk Hkm'.
  destruct (keyedPath_reorder el oldVNode a new p m s p' m' s' σ
              vOH vOT vNH vNT st)
    as (st1 & Hrun & Harr1 & Hc1 & Hm1 & _); try done.
  { by rewrite Hold. }
  pose proof Hndk as Hndk'.
  apply NoDup_app in Hndk' as (_ & _ & Hndk').
  pose proof Hndk' as Hndk2.
  apply NoDup_app in Hndk2 as (Hndkm & Hdisj & _).
  assert (NoDup km') as Hndkm' by (by eapply moved_nodes_NoDup).
  assert (∀ n, n ∈ km' → n ∈ km) as Hsub.
  { intros n (j & Hj)%list_elem_of_lookup.
    destruct (Forall2_lookup_r _ _ _ _ _ Hkm' Hj) as (i & _ & Hi).
    by eapply list_elem_of_lookup_2. }
  assert (km' ≡ₚ km) as Hperm.
  { apply submseteq_length_Permutation.
    - by apply NoDup_submseteq.
    - rewrite <- (Forall2_length _ _ _ Hkm'), <- (Forall2_length _ _ _ Hσ).
      lia. }
  assert (array st1 a
          = imap (λ j n, leftMoveEffect el (Some n)
                           (Z.of_nat (length kp + j))) km') as Hq.
  { rewrite Harr1, Harr. cbn [app]. rewrite Hlp.
    apply moves_captured.
    eapply Forall2_impl; [exact Hkm'|]. intros i n Hi. simpl.
    rewrite Hkids, lookup_app_r by lia.
    replace (length p + i - length kp)%nat with i by lia.
    rewrite lookup_app_l by (apply lookup_lt_Some in Hi; lia). done. }
  destruct (flushAll_leftMoves el km' kp (km ++ ks) st1)
    as (st2 & Hflush & Hk2' & Hm2 & Hp2); [|done|done| |].
  { unfold kids. rewrite Hc1. exact Hkids. }
  { intros n Hn. apply elem_of_app. left. by apply Hsub. }
  eexists _, st1, st2. split.
  { rewrite (useChildren_keyed _ _ _ _ _ _ new); try done.
    - by rewrite Hrun.
    - rewrite Hold. destruct m; [done|]. by destruct p. }
  rewrite Hq. split; [exact Hflush|]. split; [|by rewrite Hm2, Hm1].
  rewrite Hk2', list_difference_app.
  rewrite list_difference_none by (intros x Hx; by rewrite Hperm).
  rewrite list_difference_id; [done|].
  intros x Hx Hx'. eapply Hdisj; [|exact Hx]. by apply Hsub.
Qed.

Lemma X20_keyed_reorder_replay_witness :
  ∃ data st1 st2,
    useChildren [] 0%nat
      (keyedParent [keyedChild "c"; keyedChild "d"; keyedChild "a";
                    keyedChild "b"])
      (Some (keyedParent [keyedChild "a"; keyedChild "b"; keyedChild "c";
                          keyedChild "d"]))
      defaultCommit 0%nat None sampleStore4 = Some (data, st1)
    ∧ flushAll (array st1 0%nat) st1 = Some st2
    ∧ kids st2 0%nat = [3; 4; 1; 2]%nat
    ∧ made st2 = [].
Proof.
  destruct (X20_keyed_reorder_replay 0%nat
              (keyedParent [keyedChild "c"; keyedChild "d"; keyedChild "a";
                            keyedChild "b"])
              (Some (keyedParent [keyedChild "a"; keyedChild "b";
                                  keyedChild "c"; keyedChild "d"]))
              defaultCommit 0%nat None
              [keyedChild "c"; keyedChild "d"; keyedChild "a"; keyedChild "b"]
              []
              [keyedChild "a"; keyedChild "b"; keyedChild "c"; keyedChild "d"]
              [] []
              [keyedChild "c"; keyedChild "d"; keyedChild "a"; keyedChild "b"]
              [] [2; 3; 0; 1]%nat
              (keyedChild "a") (keyedChild "d") (keyedChild "c")
              (keyedChild "b")
              [] [1; 2; 3; 4]%nat [] [3; 4; 1; 2]%nat sampleStore4)
    as (data & st1 & st2 & Hrun & Hflush & Hk & Hm & _);
    [reflexivity | reflexivity | reflexivity | reflexivity | reflexivity
    | reflexivity | reflexivity | by_computation | by_computation
    | reflexivity
    | repeat (constructor; [eexists; split; reflexivity|]); constructor
    | reflexivity | reflexivity | reflexivity | reflexivity
    | discriminate | discriminate | discriminate | discriminate
    | reflexivity | reflexivity | reflexivity | reflexivity
    | by_computation
    | repeat (constructor; [reflexivity|]); constructor |].
  exists data, st1, st2.
  split; [exact Hrun|]. split; [exact Hflush|]. split; [exact Hk|exact Hm].
Defined.
